(** * luckyChess: the rules engine of [src/gameLogic/GameState.ts]

    A shallow embedding of the class [ChessGameState] and the properties its
    specification states about it.

    - Numbers are [Z]; a [Position] may name any pair of integers, in or out
      of the board.
    - The board is the array of arrays of squares of the source, a
      [list (list Square)]; reading or writing [board[r][c].piece] outside
      the arrays is a [TypeError], as in JavaScript.
    - Methods that can throw return an [outcome]; [try]/[catch] is
      [try_catch], which catches whatever is thrown.
    - [isCastlingPossible], [isSquareUnderAttack] and [calculateKingMovesRaw]
      call each other.  [fuel] is the number of nested castling tests the
      stack of the engine has room for; a test nested deeper throws the
      [RangeError] of an exhausted stack, which the [catch] clauses of
      [checkForCheck] and of the legality filter swallow like any other
      error.  The language does not fix that depth, and it does not matter:
      from five nested tests on (a few dozen frames), every call gives the
      same outcome and leaves the same state whatever the fuel
      ([call_fuel_stable]), since a chain of six nested tests repeats one
      of them and so never ends.
    - A method that assigns to the fields is given twice: as the value and
      state it returns ([movePiece], [run], ...), and, in [Tracked], with
      the state it leaves when it throws half-way.  Both agree
      ([run_tracked]); the states of a game are the ones the calls leave,
      whether they return or throw ([reachable]).
    - [Math.random] is an argument of [rollDice] and [tossCoin]. *)

From stdpp Require Import base list.
From Stdlib Require Import ZArith Lia Bool.

Local Open Scope Z_scope.

(** ** Outcomes of a method call *)

(** What a call can throw: the [TypeError] of a property read on
    [undefined], the [Error("King not found")] of [findKingPosition], and the
    [RangeError] ("Maximum call stack size exceeded") of an engine whose
    stack is exhausted. *)
Inductive Error := TypeError | KingNotFound | RangeError.

Inductive outcome (A : Type) :=
| Ret (a : A)
| Throw (e : Error).
Arguments Ret {A} a.
Arguments Throw {A} e.

Definition bind {A B} (m : outcome A) (f : A -> outcome B) : outcome B :=
  match m with
  | Ret a => f a
  | Throw e => Throw e
  end.

Notation "'let*' x ':=' m 'in' k" := (bind m (fun x => k))
  (at level 10, x name, m at level 100, k at level 200).

(** [try { m } catch (error) { h }]: the handler runs whatever was thrown,
    the [RangeError] of an exhausted stack included. *)
Definition try_catch {A} (m : outcome A) (h : outcome A) : outcome A :=
  match m with
  | Ret a => Ret a
  | Throw _ => h
  end.

(** Loops of the source, over the list of values the loop variable takes. *)

(** [for (x of l) { b = f(x, b) }] *)
Fixpoint foldM {A B} (f : A -> B -> outcome B) (l : list A) (b : B) : outcome B :=
  match l with
  | [] => Ret b
  | x :: xs => let* b' := f x b in foldM f xs b'
  end.

(** [for (x of l) { if (f(x)) return true } return false], also [l.some(f)] *)
Fixpoint existsM {A} (f : A -> outcome bool) (l : list A) : outcome bool :=
  match l with
  | [] => Ret false
  | x :: xs => let* b := f x in if b then Ret true else existsM f xs
  end.

(** [l.filter(f)] *)
Fixpoint filterM {A} (f : A -> outcome bool) (l : list A) : outcome (list A) :=
  match l with
  | [] => Ret []
  | x :: xs =>
      let* b := f x in
      let* r := filterM f xs in
      Ret (if b then x :: r else r)
  end.

(** ** Data model ([src/types/Chess], [DiceGame], [CoinTossGame]) *)

(** Modelled from the spec: the enumerations [PlayerColor], [PieceType] and
    [GameType] are declared in [src/types/Chess], which is not part of the
    sources at hand; their members are the ones the engine names and the
    specification lists (Classic, CoinToss, Dice). *)
Inductive PlayerColor := WHITE | BLACK.
Inductive PieceType := PAWN | ROOK | KNIGHT | BISHOP | QUEEN | KING.
Inductive GameType := classic | coinToss | dice.

Record Position := mkPosition { row : Z; col : Z }.
Record Piece := mkPiece { type : PieceType; color : PlayerColor; hasMoved : bool }.
Record Square := mkSquare { piece : option Piece; position : Position }.
Abbreviation Board := (list (list Square)).
Abbreviation ValidMoves := (list Position).
Record LastMove := mkLastMove { lm_from : Position; lm_to : Position; lm_piece : Piece }.
Record DiceRoll := mkDiceRoll { value : Z; moves : Z; player : PlayerColor }.
Record CoinToss := mkCoinToss { result : PlayerColor }.

(** The private fields of [ChessGameState]. *)
Record ChessGameState := mkState {
  board : Board;
  currentTurn : PlayerColor;
  selectedPiece : option Position;
  validMoves : ValidMoves;
  blockedMoves : ValidMoves;
  isInCheck : option PlayerColor;
  isCheckmate : option PlayerColor;
  lastMove : option LastMove;
  gameType : GameType;
  remainingMoves : Z;
  waitingForCoinToss : bool;
  waitingForDiceRoll : bool;
  lastDiceRoll : option DiceRoll;
  lastCoinToss : option CoinToss
}.

(** The snapshot [getState] returns (type [GameState] of the source). *)
Record GameState := mkGameState {
  gs_board : Board;
  gs_currentTurn : PlayerColor;
  gs_selectedPiece : option Position;
  gs_validMoves : ValidMoves;
  gs_blockedMoves : ValidMoves;
  gs_isInCheck : option PlayerColor;
  gs_isCheckmate : option PlayerColor;
  gs_lastMove : option LastMove;
  gs_gameType : GameType;
  gs_remainingMoves : Z;
  gs_waitingForCoinToss : bool;
  gs_waitingForDiceRoll : bool
}.

(** Field assignments [this.f = v]. *)
Definition set_board (s : ChessGameState) (b : Board) :=
  mkState b (currentTurn s) (selectedPiece s) (validMoves s) (blockedMoves s)
    (isInCheck s) (isCheckmate s) (lastMove s) (gameType s) (remainingMoves s)
    (waitingForCoinToss s) (waitingForDiceRoll s) (lastDiceRoll s) (lastCoinToss s).
Definition set_currentTurn (s : ChessGameState) (c : PlayerColor) :=
  mkState (board s) c (selectedPiece s) (validMoves s) (blockedMoves s)
    (isInCheck s) (isCheckmate s) (lastMove s) (gameType s) (remainingMoves s)
    (waitingForCoinToss s) (waitingForDiceRoll s) (lastDiceRoll s) (lastCoinToss s).
Definition set_selection (s : ChessGameState) (p : option Position) (v b : ValidMoves) :=
  mkState (board s) (currentTurn s) p v b
    (isInCheck s) (isCheckmate s) (lastMove s) (gameType s) (remainingMoves s)
    (waitingForCoinToss s) (waitingForDiceRoll s) (lastDiceRoll s) (lastCoinToss s).
Definition set_isInCheck (s : ChessGameState) (c : option PlayerColor) :=
  mkState (board s) (currentTurn s) (selectedPiece s) (validMoves s) (blockedMoves s)
    c (isCheckmate s) (lastMove s) (gameType s) (remainingMoves s)
    (waitingForCoinToss s) (waitingForDiceRoll s) (lastDiceRoll s) (lastCoinToss s).
Definition set_isCheckmate (s : ChessGameState) (c : option PlayerColor) :=
  mkState (board s) (currentTurn s) (selectedPiece s) (validMoves s) (blockedMoves s)
    (isInCheck s) c (lastMove s) (gameType s) (remainingMoves s)
    (waitingForCoinToss s) (waitingForDiceRoll s) (lastDiceRoll s) (lastCoinToss s).
Definition set_lastMove (s : ChessGameState) (m : option LastMove) :=
  mkState (board s) (currentTurn s) (selectedPiece s) (validMoves s) (blockedMoves s)
    (isInCheck s) (isCheckmate s) m (gameType s) (remainingMoves s)
    (waitingForCoinToss s) (waitingForDiceRoll s) (lastDiceRoll s) (lastCoinToss s).
Definition set_remainingMoves (s : ChessGameState) (n : Z) :=
  mkState (board s) (currentTurn s) (selectedPiece s) (validMoves s) (blockedMoves s)
    (isInCheck s) (isCheckmate s) (lastMove s) (gameType s) n
    (waitingForCoinToss s) (waitingForDiceRoll s) (lastDiceRoll s) (lastCoinToss s).
Definition set_waitingForCoinToss (s : ChessGameState) (w : bool) :=
  mkState (board s) (currentTurn s) (selectedPiece s) (validMoves s) (blockedMoves s)
    (isInCheck s) (isCheckmate s) (lastMove s) (gameType s) (remainingMoves s)
    w (waitingForDiceRoll s) (lastDiceRoll s) (lastCoinToss s).
Definition set_waitingForDiceRoll (s : ChessGameState) (w : bool) :=
  mkState (board s) (currentTurn s) (selectedPiece s) (validMoves s) (blockedMoves s)
    (isInCheck s) (isCheckmate s) (lastMove s) (gameType s) (remainingMoves s)
    (waitingForCoinToss s) w (lastDiceRoll s) (lastCoinToss s).
Definition set_lastDiceRoll (s : ChessGameState) (d : option DiceRoll) :=
  mkState (board s) (currentTurn s) (selectedPiece s) (validMoves s) (blockedMoves s)
    (isInCheck s) (isCheckmate s) (lastMove s) (gameType s) (remainingMoves s)
    (waitingForCoinToss s) (waitingForDiceRoll s) d (lastCoinToss s).
Definition set_lastCoinToss (s : ChessGameState) (c : option CoinToss) :=
  mkState (board s) (currentTurn s) (selectedPiece s) (validMoves s) (blockedMoves s)
    (isInCheck s) (isCheckmate s) (lastMove s) (gameType s) (remainingMoves s)
    (waitingForCoinToss s) (waitingForDiceRoll s) (lastDiceRoll s) c.

(** [===] on the enumerations and on positions (row and column compared). *)
Definition color_eqb (a b : PlayerColor) : bool :=
  match a, b with WHITE, WHITE | BLACK, BLACK => true | _, _ => false end.
Definition type_eqb (a b : PieceType) : bool :=
  match a, b with
  | PAWN, PAWN | ROOK, ROOK | KNIGHT, KNIGHT
  | BISHOP, BISHOP | QUEEN, QUEEN | KING, KING => true
  | _, _ => false
  end.
Definition samePosition (a b : Position) : bool :=
  (row a =? row b) && (col a =? col b).

Definition gameType_eqb (a b : GameType) : bool :=
  match a, b with
  | classic, classic | coinToss, coinToss | dice, dice => true
  | _, _ => false
  end.

(** [c === PlayerColor.WHITE ? PlayerColor.BLACK : PlayerColor.WHITE] *)
Definition opposite (c : PlayerColor) : PlayerColor :=
  match c with WHITE => BLACK | BLACK => WHITE end.

(** [this.isInCheck === c] *)
Definition flaggedInCheck (flag : option PlayerColor) (c : PlayerColor) : bool :=
  match flag with Some k => color_eqb k c | None => false end.

Definition isSome {A} (o : option A) : bool :=
  match o with Some _ => true | None => false end.

(** ** Board access *)

(** [l[i]] followed by a property access: a [TypeError] outside the array. *)
Definition index {A} (l : list A) (i : Z) : outcome A :=
  if i <? 0 then Throw TypeError
  else match l !! Z.to_nat i with
       | Some x => Ret x
       | None => Throw TypeError
       end.

(** [board[r][c].piece] *)
Definition pieceAt (b : Board) (r c : Z) : outcome (option Piece) :=
  let* l := index b r in
  let* sq := index l c in
  Ret (piece sq).

(** [board[r][c].piece = p] *)
Definition setPiece (b : Board) (r c : Z) (p : option Piece) : outcome Board :=
  let* l := index b r in
  let* sq := index l c in
  Ret (<[Z.to_nat r := <[Z.to_nat c := mkSquare p (position sq)]> l]> b).

Definition range8 : list Z := [0; 1; 2; 3; 4; 5; 6; 7].

(** The squares in the order of the nested scans
    [for (row = 0; row < 8; row++) for (col = 0; col < 8; col++)]. *)
Definition allSquares : list Position :=
  flat_map (fun r => map (fun c => mkPosition r c) range8) range8.

(** [board[r][c].piece = p] on a square that exists. *)
Definition place (b : Board) (r c : Z) (p : Piece) : Board :=
  <[Z.to_nat r := alter (fun sq => mkSquare (Some p) (position sq)) (Z.to_nat c)
                    (default [] (b !! Z.to_nat r))]> b.

Definition createInitialBoard : Board :=
  let board :=
    map (fun r => map (fun c => mkSquare None (mkPosition r c)) range8) range8 in
  (* Place pawns *)
  let board :=
    fold_left (fun b c => place (place b 1 c (mkPiece PAWN BLACK false))
                                6 c (mkPiece PAWN WHITE false))
              range8 board in
  (* Place other pieces *)
  let pieces := [ROOK; KNIGHT; BISHOP; QUEEN; KING; BISHOP; KNIGHT; ROOK] in
  fold_left (fun b '(piece, c) => place (place b 0 c (mkPiece piece BLACK false))
                                        7 c (mkPiece piece WHITE false))
            (zip pieces range8) board.
Arguments createInitialBoard : simpl never.

Definition isValidPosition (r c : Z) : bool :=
  (0 <=? r) && (r <? 8) && (0 <=? c) && (c <? 8).

(** A deep copy: every square and every piece is rebuilt field by field. *)
Definition cloneBoard (b : Board) : Board :=
  map (fun r =>
         map (fun square =>
                mkSquare
                  (match piece square with
                   | Some p => Some (mkPiece (type p) (color p) (hasMoved p))
                   | None => None
                   end)
                  (position square)) r) b.

Fixpoint findKingIn (c : PlayerColor) (b : Board) (sqs : list Position) : outcome Position :=
  match sqs with
  | [] => Throw KingNotFound
  | sq :: rest =>
      let* p := pieceAt b (row sq) (col sq) in
      match p with
      | Some k =>
          if type_eqb (type k) KING && color_eqb (color k) c then Ret sq
          else findKingIn c b rest
      | None => findKingIn c b rest
      end
  end.

Definition findKingPosition (c : PlayerColor) (b : Board) : outcome Position :=
  findKingIn c b allSquares.

(** ** Raw move generator *)

(** The two arrays [validMoves] and [blockedMoves] the generators push to. *)
Definition Acc := (ValidMoves * ValidMoves)%type.
Definition pushValid (p : Position) (acc : Acc) : Acc := (acc.1 ++ [p], acc.2).
Definition pushBlocked (p : Position) (acc : Acc) : Acc := (acc.1, acc.2 ++ [p]).

(** Reads the live board [this.board] and [this.lastMove]. *)
Definition isEnPassantPossible (this : ChessGameState) (from to : Position) : outcome bool :=
  let* p := pieceAt (board this) (row from) (col from) in
  match p with
  | None => Ret false
  | Some pc =>
      if negb (type_eqb (type pc) PAWN) then Ret false
      else if negb (Z.abs (col to - col from) =? 1) then Ret false
      else match lastMove this with
           | None => Ret false
           | Some lm =>
               let lastPiece := lm_piece lm in
               if color_eqb (color pc) WHITE then
                 Ret (type_eqb (type lastPiece) PAWN
                      && color_eqb (color lastPiece) BLACK
                      && (row (lm_from lm) =? 1)
                      && (row (lm_to lm) =? 3)
                      && (col (lm_to lm) =? col to)
                      && (row from =? 3)
                      && (row to =? 2))
               else
                 Ret (type_eqb (type lastPiece) PAWN
                      && color_eqb (color lastPiece) WHITE
                      && (row (lm_from lm) =? 6)
                      && (row (lm_to lm) =? 4)
                      && (col (lm_to lm) =? col to)
                      && (row from =? 4)
                      && (row to =? 5))
           end
  end.

(** One step of [for (const colOffset of [-1, 1])] in [calculatePawnMovesRaw]. *)
Definition pawnCapture (this : ChessGameState) (pos : Position) (pc : Piece)
    (direction : Z) (b : Board) (colOffset : Z) (acc : Acc) : outcome Acc :=
  let newRow := row pos + direction in
  let newCol := col pos + colOffset in
  if isValidPosition newRow newCol then
    let* targetPiece := pieceAt b newRow newCol in
    match targetPiece with
    | Some t =>
        if negb (color_eqb (color t) (color pc))
        then Ret (pushValid (mkPosition newRow newCol) acc)
        else Ret (pushBlocked (mkPosition newRow newCol) acc)
    | None =>
        let* ep := isEnPassantPossible this pos (mkPosition newRow newCol) in
        if ep then Ret (pushValid (mkPosition newRow newCol) acc) else Ret acc
    end
  else Ret acc.

Definition calculatePawnMovesRaw (this : ChessGameState) (pos : Position)
    (acc : Acc) (b : Board) : outcome Acc :=
  let* p := pieceAt b (row pos) (col pos) in
  match p with
  | None => Ret acc
  | Some pc =>
      let direction := if color_eqb (color pc) WHITE then -1 else 1 in
      let startRow := if color_eqb (color pc) WHITE then 6 else 1 in
      let* acc1 :=
        if isValidPosition (row pos + direction) (col pos) then
          let* t1 := pieceAt b (row pos + direction) (col pos) in
          match t1 with
          | Some _ => Ret acc
          | None =>
              let acc' := pushValid (mkPosition (row pos + direction) (col pos)) acc in
              if (row pos =? startRow)
                 && isValidPosition (row pos + 2 * direction) (col pos) then
                let* t2 := pieceAt b (row pos + 2 * direction) (col pos) in
                match t2 with
                | Some _ => Ret acc'
                | None =>
                    Ret (pushValid (mkPosition (row pos + 2 * direction) (col pos)) acc')
                end
              else Ret acc'
          end
        else Ret acc in
      foldM (pawnCapture this pos pc direction b) [-1; 1] acc1
  end.

(** The [while (this.isValidPosition(currentRow, currentCol))] loop of
    [calculateLineMovementsRaw]; [n] bounds the number of iterations.  Eight
    are enough for the directions the engine walks ([walkLine_terminates]);
    a walk that would go on is given the outcome of an exhausted engine, so
    that it is never taken for a result. *)
Fixpoint walkLine (n : nat) (pc : Piece) (b : Board) (dr dc : Z)
    (currentRow currentCol : Z) (acc : Acc) : outcome Acc :=
  if isValidPosition currentRow currentCol then
    match n with
    | O => Throw RangeError
    | S n' =>
        let* targetPiece := pieceAt b currentRow currentCol in
        match targetPiece with
        | None =>
            walkLine n' pc b dr dc (currentRow + dr) (currentCol + dc)
              (pushValid (mkPosition currentRow currentCol) acc)
        | Some t =>
            if negb (color_eqb (color t) (color pc))
            then Ret (pushValid (mkPosition currentRow currentCol) acc)
            else Ret (pushBlocked (mkPosition currentRow currentCol) acc)
        end
    end
  else Ret acc.

Definition calculateLineMovementsRaw (pos : Position) (directions : list (Z * Z))
    (acc : Acc) (b : Board) : outcome Acc :=
  let* p := pieceAt b (row pos) (col pos) in
  match p with
  | None => Ret acc
  | Some pc =>
      foldM (fun d a => walkLine 8 pc b d.1 d.2 (row pos + d.1) (col pos + d.2) a)
            directions acc
  end.

Definition rookDirections : list (Z * Z) := [(-1, 0); (1, 0); (0, -1); (0, 1)].
Definition bishopDirections : list (Z * Z) := [(-1, -1); (-1, 1); (1, -1); (1, 1)].

Definition calculateRookMovesRaw (pos : Position) (acc : Acc) (b : Board) : outcome Acc :=
  calculateLineMovementsRaw pos rookDirections acc b.

Definition calculateBishopMovesRaw (pos : Position) (acc : Acc) (b : Board) : outcome Acc :=
  calculateLineMovementsRaw pos bishopDirections acc b.

Definition calculateQueenMovesRaw (pos : Position) (acc : Acc) (b : Board) : outcome Acc :=
  let* acc1 := calculateRookMovesRaw pos acc b in
  calculateBishopMovesRaw pos acc1 b.

(** The body shared by the offset loops of the knight and of the king. *)
Definition stepMove (pos : Position) (pc : Piece) (b : Board)
    (move : Z * Z) (acc : Acc) : outcome Acc :=
  let newRow := row pos + move.1 in
  let newCol := col pos + move.2 in
  if isValidPosition newRow newCol then
    let* targetPiece := pieceAt b newRow newCol in
    match targetPiece with
    | None => Ret (pushValid (mkPosition newRow newCol) acc)
    | Some t =>
        if negb (color_eqb (color t) (color pc))
        then Ret (pushValid (mkPosition newRow newCol) acc)
        else Ret (pushBlocked (mkPosition newRow newCol) acc)
    end
  else Ret acc.

Definition knightMoves : list (Z * Z) :=
  [(-2, -1); (-2, 1); (-1, -2); (-1, 2); (1, -2); (1, 2); (2, -1); (2, 1)].

Definition normalMoves : list (Z * Z) :=
  [(-1, -1); (-1, 0); (-1, 1); (0, -1); (0, 1); (1, -1); (1, 0); (1, 1)].

Definition calculateKnightMovesRaw (pos : Position) (acc : Acc) (b : Board) : outcome Acc :=
  let* p := pieceAt b (row pos) (col pos) in
  match p with
  | None => Ret acc
  | Some pc => foldM (stepMove pos pc b) knightMoves acc
  end.

(** The methods below reach [isCastlingPossible] again through the king's
    raw moves; [castle] stands for that nested call on the live state. *)
Section WithCastling.
Variable castle : Position -> Position -> outcome bool.
Variable this : ChessGameState.

Definition calculateKingMovesRaw (pos : Position) (acc : Acc) (b : Board) : outcome Acc :=
  let* p := pieceAt b (row pos) (col pos) in
  match p with
  | None => Ret acc
  | Some pc =>
      let* acc1 := foldM (stepMove pos pc b) normalMoves acc in
      if negb (hasMoved pc) && (col pos =? 4) then
        let r := if color_eqb (color pc) WHITE then 7 else 0 in
        let* kingSide := castle (mkPosition r 4) (mkPosition r 7) in
        let acc2 := if kingSide then pushValid (mkPosition r 6) acc1 else acc1 in
        let* queenSide := castle (mkPosition r 4) (mkPosition r 0) in
        Ret (if queenSide then pushValid (mkPosition r 2) acc2 else acc2)
      else Ret acc1
  end.

Definition calculateRawMovesByPieceTypeWith (pos : Position) (pieceType : PieceType)
    (b : Board) : outcome ValidMoves :=
  let* acc :=
    match pieceType with
    | PAWN => calculatePawnMovesRaw this pos ([], []) b
    | ROOK => calculateRookMovesRaw pos ([], []) b
    | KNIGHT => calculateKnightMovesRaw pos ([], []) b
    | BISHOP => calculateBishopMovesRaw pos ([], []) b
    | QUEEN => calculateQueenMovesRaw pos ([], []) b
    | KING => calculateKingMovesRaw pos ([], []) b
    end in
  Ret acc.1.

(** The body of the scan of [isSquareUnderAttack] at one square. *)
Definition attacksFrom (target : Position) (byColor : PlayerColor) (b : Board)
    (sq : Position) : outcome bool :=
  let* p := pieceAt b (row sq) (col sq) in
  match p with
  | Some pc =>
      if color_eqb (color pc) byColor then
        let* ms := calculateRawMovesByPieceTypeWith sq (type pc) b in
        Ret (existsb (fun move => samePosition move target) ms)
      else Ret false
  | None => Ret false
  end.

Definition isSquareUnderAttackWith (target : Position) (byColor : PlayerColor)
    (b : Board) : outcome bool :=
  existsM (attacksFrom target byColor b) allSquares.

Definition isCastlingPossibleBody (kingPos rookPos : Position) : outcome bool :=
  let* king := pieceAt (board this) (row kingPos) (col kingPos) in
  let* rook := pieceAt (board this) (row rookPos) (col rookPos) in
  match king, rook with
  | Some k, Some r =>
      if negb (type_eqb (type k) KING) || hasMoved k
         || negb (type_eqb (type r) ROOK) || hasMoved r then Ret false
      else if flaggedInCheck (isInCheck this) (color k) then Ret false
      else
        let startCol := Z.min (col kingPos) (col rookPos) in
        let endCol := Z.max (col kingPos) (col rookPos) in
        let* occupied :=
          existsM (fun c => let* p := pieceAt (board this) (row kingPos) c in
                            Ret (isSome p))
                  (seqZ (startCol + 1) (endCol - startCol - 1)) in
        if occupied then Ret false
        else
          let opponentColor := opposite (color k) in
          let attacked (c : Z) :=
            isSquareUnderAttackWith (mkPosition (row kingPos) c) opponentColor
              (board this) in
          if col rookPos =? 7 then
            let* a := existsM attacked [4; 5; 6] in Ret (negb a)
          else if col rookPos =? 0 then
            let* a := existsM attacked [2; 3; 4] in Ret (negb a)
          else Ret true
  | _, _ => Ret false
  end.
End WithCastling.

Fixpoint isCastlingPossible (fuel : nat) (this : ChessGameState)
    (kingPos rookPos : Position) : outcome bool :=
  match fuel with
  | O => Throw RangeError
  | S n => isCastlingPossibleBody (isCastlingPossible n this) this kingPos rookPos
  end.

Definition calculateRawMovesByPieceType (fuel : nat) (this : ChessGameState)
    (pos : Position) (pieceType : PieceType) (b : Board) : outcome ValidMoves :=
  calculateRawMovesByPieceTypeWith (isCastlingPossible fuel this) this pos pieceType b.

Definition isSquareUnderAttack (fuel : nat) (this : ChessGameState)
    (target : Position) (byColor : PlayerColor) (b : Board) : outcome bool :=
  isSquareUnderAttackWith (isCastlingPossible fuel this) this target byColor b.

(** ** Legality filter *)

(** The scratch board of the filter: a clone with the piece relocated. *)
Definition simulateMove (this : ChessGameState) (pos move : Position) : outcome Board :=
  let tempBoard := cloneBoard (board this) in
  let* p := pieceAt tempBoard (row pos) (col pos) in
  let* t1 := setPiece tempBoard (row move) (col move) p in
  setPiece t1 (row pos) (col pos) None.

(** [piece.type === KING ? move : this.findKingPosition(piece.color, tempBoard)] *)
Definition ownKingSquare (pc : Piece) (move : Position) (tempBoard : Board) : outcome Position :=
  if type_eqb (type pc) KING then Ret move
  else findKingPosition (color pc) tempBoard.

(** The callback of [rawMoves.filter] in [getValidMovesForPiece]. *)
Definition keepsKingSafe (fuel : nat) (this : ChessGameState) (pos : Position)
    (pc : Piece) (move : Position) : outcome bool :=
  let* tempBoard := simulateMove this pos move in
  try_catch
    (let* kingPos := ownKingSquare pc move tempBoard in
     let* wouldBeInCheck :=
       isSquareUnderAttack fuel this kingPos (opposite (color pc)) tempBoard in
     Ret (negb wouldBeInCheck))
    (Ret false).

Definition getValidMovesForPiece (fuel : nat) (this : ChessGameState)
    (pos : Position) : outcome ValidMoves :=
  let* p := pieceAt (board this) (row pos) (col pos) in
  match p with
  | None => Ret []
  | Some pc =>
      let* rawMoves := calculateRawMovesByPieceType fuel this pos (type pc) (board this) in
      filterM (keepsKingSafe fuel this pos pc) rawMoves
  end.

Definition getCastlingPartners (fuel : nat) (this : ChessGameState)
    (pos : Position) : outcome (list Position) :=
  let* p := pieceAt (board this) (row pos) (col pos) in
  match p with
  | None => Ret []
  | Some pc =>
      if hasMoved pc then Ret []
      else
        let r := if color_eqb (color pc) WHITE then 7 else 0 in
        if type_eqb (type pc) KING && (col pos =? 4) then
          let* k := isCastlingPossible fuel this (mkPosition r 4) (mkPosition r 7) in
          let* q := isCastlingPossible fuel this (mkPosition r 4) (mkPosition r 0) in
          Ret ((if k then [mkPosition r 7] else []) ++ (if q then [mkPosition r 0] else []))
        else if type_eqb (type pc) ROOK && ((col pos =? 0) || (col pos =? 7)) then
          let* k := isCastlingPossible fuel this (mkPosition r 4) pos in
          Ret (if k then [mkPosition r 4] else [])
        else Ret []
  end.

(** ** Check and checkmate detection *)

(** One round of [for (const color of colors)] in [checkForCheck]. *)
Definition checkColor (fuel : nat) (c : PlayerColor) (this : ChessGameState)
    : outcome ChessGameState :=
  try_catch
    (let* kingPosition := findKingPosition c (board this) in
     let* attacked := isSquareUnderAttack fuel this kingPosition (opposite c) (board this) in
     Ret (if attacked then set_isInCheck this (Some c) else this))
    (Ret this).

Definition checkForCheck (fuel : nat) (this : ChessGameState) : outcome ChessGameState :=
  foldM (checkColor fuel) [WHITE; BLACK] (set_isInCheck this None).

(** The body of the scan of [checkForCheckmate] at one square. *)
Definition canMoveFrom (fuel : nat) (this : ChessGameState) (checkedColor : PlayerColor)
    (sq : Position) : outcome bool :=
  let* p := pieceAt (board this) (row sq) (col sq) in
  match p with
  | Some pc =>
      if color_eqb (color pc) checkedColor then
        let* ms := getValidMovesForPiece fuel this sq in
        Ret (0 <? Z.of_nat (length ms))
      else Ret false
  | None => Ret false
  end.

Definition checkForCheckmate (fuel : nat) (this : ChessGameState) : outcome ChessGameState :=
  match isInCheck this with
  | None => Ret (set_isCheckmate this None)
  | Some checkedColor =>
      let* escape := existsM (canMoveFrom fuel this checkedColor) allSquares in
      Ret (set_isCheckmate this (if escape then None else Some checkedColor))
  end.

(** ** Turn and phase state machine *)

Definition constructor (g : GameType) : ChessGameState :=
  mkState createInitialBoard WHITE None [] [] None None None g 1
    (gameType_eqb g coinToss)
    (gameType_eqb g dice)
    None None.

(** [value] is the draw [Math.floor(Math.random() * 6) + 1]. *)
Definition rollDice (this : ChessGameState) (value : Z) : DiceRoll * ChessGameState :=
  if isSome (isInCheck this) || negb (waitingForDiceRoll this) then
    (mkDiceRoll 0 0 (currentTurn this), this)
  else
    let player := if value <=? 3 then WHITE else BLACK in
    let moves := if value <=? 3 then value else value - 3 in
    let roll := mkDiceRoll value moves player in
    (roll,
     set_waitingForDiceRoll
       (set_remainingMoves
          (set_currentTurn (set_lastDiceRoll this (Some roll)) player) moves) false).

(** [result] is the draw [Math.random() < 0.5 ? WHITE : BLACK]. *)
Definition tossCoin (this : ChessGameState) (result : PlayerColor) : CoinToss * ChessGameState :=
  if isSome (isInCheck this) || negb (waitingForCoinToss this) then
    (mkCoinToss (currentTurn this), this)
  else
    (mkCoinToss result,
     set_waitingForCoinToss
       (set_currentTurn (set_lastCoinToss this (Some (mkCoinToss result))) result) false).

Definition flipTurn (this : ChessGameState) : ChessGameState :=
  set_currentTurn this (opposite (currentTurn this)).

(** The first part of [handlePostMove]: the variant's turn progression and
    the cleared selection, before check detection runs. *)
Definition advanceTurn (this : ChessGameState) : ChessGameState :=
  let this1 :=
    match gameType this with
    | dice =>
        let t := set_remainingMoves this (remainingMoves this - 1) in
        if (remainingMoves t <=? 0) && negb (isSome (isInCheck t))
        then set_waitingForDiceRoll t true else t
    | coinToss =>
        if negb (isSome (isInCheck this)) then set_waitingForCoinToss this true
        else flipTurn this
    | classic => flipTurn this
    end in
  set_selection this1 None [] [].

(** The assignments under the inner [if (this.isInCheck)] of [handlePostMove]. *)
Definition checkOverride (this : ChessGameState) : ChessGameState :=
  flipTurn (set_waitingForCoinToss (set_waitingForDiceRoll this false) false).

Definition handlePostMove (fuel : nat) (this : ChessGameState) : outcome ChessGameState :=
  let* this1 := checkForCheck fuel (advanceTurn this) in
  if isSome (isInCheck this1) then
    let* this2 := checkForCheckmate fuel this1 in
    if isSome (isInCheck this2) then Ret (checkOverride this2) else Ret this2
  else Ret this1.

Definition getState (this : ChessGameState) : GameState :=
  mkGameState (board this) (currentTurn this) (selectedPiece this) (validMoves this)
    (blockedMoves this) (isInCheck this) (isCheckmate this) (lastMove this)
    (gameType this) (remainingMoves this) (waitingForCoinToss this)
    (waitingForDiceRoll this).

Definition unselectPiece (this : ChessGameState) : ChessGameState :=
  set_selection this None [] [].

Definition selectPiece (fuel : nat) (this : ChessGameState) (pos : Position)
    : outcome ChessGameState :=
  let* p := pieceAt (board this) (row pos) (col pos) in
  match p with
  | None => Ret (set_selection this None [] [])
  | Some pc =>
      if negb (color_eqb (color pc) (currentTurn this)) then
        Ret (set_selection this None [] [])
      else
        let this1 := set_selection this (Some pos) (validMoves this) (blockedMoves this) in
        let* legalMoves := getValidMovesForPiece fuel this1 pos in
        let* rawMoves := calculateRawMovesByPieceType fuel this1 pos (type pc) (board this1) in
        let* castlingPartners := getCastlingPartners fuel this1 pos in
        let valid := legalMoves ++ castlingPartners in
        Ret (set_selection this1 (Some pos) valid
               (filter (fun move => negb (existsb (fun v => samePosition v move) valid))
                       rawMoves))
  end.

(** The relocation of king and rook in the two castling branches of
    [movePiece]: the king lands on column [kingTo], the rook on column
    [rookTo], and the squares of columns 4 and [rookFrom] are cleared. *)
Definition castle (this : ChessGameState) (fromPiece : Piece) (r : Z)
    (kingTo rookTo rookFrom : Z) : outcome ChessGameState :=
  let* b1 := setPiece (board this) r kingTo
               (Some (mkPiece (type fromPiece) (color fromPiece) true)) in
  let* b2 := setPiece b1 r rookTo (Some (mkPiece ROOK (color fromPiece) true)) in
  let* b3 := setPiece b2 r 4 None in
  let* b4 := setPiece b3 r rookFrom None in
  Ret (set_board this b4).

(** The part of [movePiece] after the castling branches. *)
Definition ordinaryMove (fuel : nat) (this : ChessGameState) (fromPiece : Piece)
    (from to : Position) : outcome (bool * ChessGameState) :=
  let* valid := getValidMovesForPiece fuel this from in
  if negb (existsb (fun move => samePosition move to) valid) then Ret (false, this)
  else
    let* ep :=
      if type_eqb (type fromPiece) PAWN then isEnPassantPossible this from to
      else Ret false in
    let* b1 := if ep then setPiece (board this) (row from) (col to) None
               else Ret (board this) in
    let lm := mkLastMove (mkPosition (row from) (col from)) (mkPosition (row to) (col to))
                (mkPiece (type fromPiece) (color fromPiece) (hasMoved fromPiece)) in
    let* b2 := setPiece b1 (row to) (col to)
                 (Some (mkPiece (type fromPiece) (color fromPiece) true)) in
    let* b3 := setPiece b2 (row from) (col from) None in
    let* this' := handlePostMove fuel (set_board (set_lastMove this (Some lm)) b3) in
    Ret (true, this').

Definition movePiece (fuel : nat) (this : ChessGameState) (from to : Position)
    : outcome (bool * ChessGameState) :=
  if gameType_eqb (gameType this) dice && (remainingMoves this <=? 0) then Ret (false, this)
  else if gameType_eqb (gameType this) coinToss && waitingForCoinToss this then Ret (false, this)
  else if gameType_eqb (gameType this) dice && waitingForDiceRoll this then Ret (false, this)
  else
    let* p := pieceAt (board this) (row from) (col from) in
    match p with
    | None => Ret (false, this)
    | Some fromPiece =>
        let r := if color_eqb (color fromPiece) WHITE then 7 else 0 in
        if type_eqb (type fromPiece) KING && (col from =? 4) && (col to =? 6) then
          let* possible := isCastlingPossible fuel this (mkPosition r 4) (mkPosition r 7) in
          if negb possible then Ret (false, this)
          else
            let* this1 := castle this fromPiece r 6 5 7 in
            let* this2 := handlePostMove fuel this1 in
            Ret (true, this2)
        else if type_eqb (type fromPiece) KING && (col from =? 4) && (col to =? 2) then
          let* possible := isCastlingPossible fuel this (mkPosition r 4) (mkPosition r 0) in
          if negb possible then Ret (false, this)
          else
            let* this1 := castle this fromPiece r 2 3 0 in
            let* this2 := handlePostMove fuel this1 in
            Ret (true, this2)
        else ordinaryMove fuel this fromPiece from to
    end.

Definition resetGame (this : ChessGameState) : ChessGameState :=
  mkState createInitialBoard WHITE None [] [] None None None (gameType this) 1
    (gameType_eqb (gameType this) coinToss)
    (gameType_eqb (gameType this) dice)
    None None.

Definition promotePawn (fuel : nat) (this : ChessGameState) (pos : Position)
    (newType : PieceType) : outcome ChessGameState :=
  let* p := pieceAt (board this) (row pos) (col pos) in
  match p with
  | None => Ret this
  | Some pc =>
      if negb (type_eqb (type pc) PAWN) then Ret this
      else
        let isLastRank :=
          (color_eqb (color pc) WHITE && (row pos =? 0))
          || (color_eqb (color pc) BLACK && (row pos =? 7)) in
        if negb isLastRank then Ret this
        else
          let* b := setPiece (board this) (row pos) (col pos)
                      (Some (mkPiece newType (color pc) true)) in
          let* this1 := checkForCheck fuel (set_board this b) in
          if isSome (isInCheck this1) then checkForCheckmate fuel this1 else Ret this1
  end.

(** ** The public surface *)

(** A call of a public method with its arguments; [OpPromotePawn p None] is the
    call that leaves [newType] to its default, [PieceType.QUEEN]. *)
Inductive Op :=
| OpGetState
| OpSelectPiece (pos : Position)
| OpUnselectPiece
| OpMovePiece (from to : Position)
| OpRollDice (value : Z)
| OpTossCoin (result : PlayerColor)
| OpPromotePawn (pos : Position) (newType : option PieceType)
| OpResetGame.

(** What the call returns. *)
Inductive Response :=
| RVoid
| RBool (b : bool)
| RState (s : GameState)
| RDice (d : DiceRoll)
| RCoin (c : CoinToss).

Definition run (fuel : nat) (op : Op) (this : ChessGameState)
    : outcome (Response * ChessGameState) :=
  match op with
  | OpGetState => Ret (RState (getState this), this)
  | OpSelectPiece pos => let* s := selectPiece fuel this pos in Ret (RVoid, s)
  | OpUnselectPiece => Ret (RVoid, unselectPiece this)
  | OpMovePiece from to =>
      let* r := movePiece fuel this from to in Ret (RBool r.1, r.2)
  | OpRollDice value => let r := rollDice this value in Ret (RDice r.1, r.2)
  | OpTossCoin result => let r := tossCoin this result in Ret (RCoin r.1, r.2)
  | OpPromotePawn pos newType =>
      let* s := promotePawn fuel this pos
                  (match newType with Some t => t | None => QUEEN end) in
      Ret (RVoid, s)
  | OpResetGame => Ret (RVoid, resetGame this)
  end.

(** ** The state a call leaves *)

(** A call ends by returning a value or by throwing, and leaves the fields
    in some state either way: what was assigned before a throw stays
    assigned. *)
Inductive completion (A : Type) :=
| Done (a : A) (s : ChessGameState)
| Raised (e : Error) (s : ChessGameState).
Arguments Done {A} a s.
Arguments Raised {A} e s.

Definition stateLeft {A} (x : completion A) : ChessGameState :=
  match x with
  | Done _ s => s
  | Raised _ s => s
  end.

Definition returned {A} (x : completion A) : outcome (A * ChessGameState) :=
  match x with
  | Done a s => Ret (a, s)
  | Raised e _ => Throw e
  end.

(** A method body: statements run in order on the fields of [this]. *)
Definition method (A : Type) := ChessGameState -> completion A.

Definition retM {A} (a : A) : method A := fun this => Done a this.

Definition bindM {A B} (m : method A) (f : A -> method B) : method B :=
  fun this =>
    match m this with
    | Done a this' => f a this'
    | Raised e this' => Raised e this'
    end.

Notation "'do*' x ':=' m 'in' k" := (bindM m (fun x => k))
  (at level 10, x name, m at level 100, k at level 200).

(** An expression that reads the fields; when it throws, nothing has been
    assigned. *)
Definition read {A} (f : ChessGameState -> outcome A) : method A :=
  fun this =>
    match f this with
    | Ret a => Done a this
    | Throw e => Raised e this
    end.

(** Assignments to fields, which cannot throw. *)
Definition assign (f : ChessGameState -> ChessGameState) : method unit :=
  fun this => Done tt (f this).

(** [this.board[r][c].piece = p] *)
Definition write (r c : Z) (p : option Piece) : method unit :=
  fun this =>
    match setPiece (board this) r c p with
    | Ret b => Done tt (set_board this b)
    | Throw e => Raised e this
    end.

(** [try { m } catch (error) { console.error(...) }]: the assignments [m]
    made before it threw stay. *)
Definition tryM (m : method unit) : method unit :=
  fun this =>
    match m this with
    | Done a this' => Done a this'
    | Raised _ this' => Done tt this'
    end.

(** [for (x of l) { f(x) }] *)
Fixpoint forM {A} (f : A -> method unit) (l : list A) : method unit :=
  match l with
  | [] => retM tt
  | x :: xs => do* _ := f x in forM f xs
  end.

(** The methods that assign to the fields, statement by statement. *)
Module Tracked.

Definition checkForCheck (fuel : nat) : method unit :=
  do* _ := assign (fun this => set_isInCheck this None) in
  forM (fun color =>
          tryM (do* kingPosition :=
                  read (fun this => findKingPosition color (board this)) in
                do* attacked :=
                  read (fun this =>
                          isSquareUnderAttack fuel this kingPosition (opposite color)
                            (board this)) in
                if attacked then assign (fun this => set_isInCheck this (Some color))
                else retM tt))
       [WHITE; BLACK].

Definition checkForCheckmate (fuel : nat) : method unit :=
  do* flag := read (fun this => Ret (isInCheck this)) in
  match flag with
  | None => assign (fun this => set_isCheckmate this None)
  | Some checkedColor =>
      do* escape :=
        read (fun this => existsM (canMoveFrom fuel this checkedColor) allSquares) in
      assign (fun this =>
                set_isCheckmate this (if escape then None else Some checkedColor))
  end.

Definition handlePostMove (fuel : nat) : method unit :=
  do* _ := assign advanceTurn in
  do* _ := checkForCheck fuel in
  do* flag := read (fun this => Ret (isInCheck this)) in
  if isSome flag then
    do* _ := checkForCheckmate fuel in
    do* flag' := read (fun this => Ret (isInCheck this)) in
    if isSome flag' then assign checkOverride else retM tt
  else retM tt.

Definition selectPiece (fuel : nat) (pos : Position) : method unit :=
  do* p := read (fun this => pieceAt (board this) (row pos) (col pos)) in
  do* turn := read (fun this => Ret (currentTurn this)) in
  match p with
  | None => assign (fun this => set_selection this None [] [])
  | Some pc =>
      if negb (color_eqb (color pc) turn) then
        assign (fun this => set_selection this None [] [])
      else
        do* _ := assign (fun this =>
                           set_selection this (Some pos) (validMoves this)
                             (blockedMoves this)) in
        do* legalMoves := read (fun this => getValidMovesForPiece fuel this pos) in
        do* rawMoves :=
          read (fun this =>
                  calculateRawMovesByPieceType fuel this pos (type pc) (board this)) in
        do* castlingPartners := read (fun this => getCastlingPartners fuel this pos) in
        let valid := legalMoves ++ castlingPartners in
        assign (fun this =>
                  set_selection this (Some pos) valid
                    (filter (fun move => negb (existsb (fun v => samePosition v move) valid))
                            rawMoves))
  end.

Definition castle (fromPiece : Piece) (r : Z) (kingTo rookTo rookFrom : Z) : method unit :=
  do* _ := write r kingTo (Some (mkPiece (type fromPiece) (color fromPiece) true)) in
  do* _ := write r rookTo (Some (mkPiece ROOK (color fromPiece) true)) in
  do* _ := write r 4 None in
  write r rookFrom None.

Definition ordinaryMove (fuel : nat) (fromPiece : Piece) (from to : Position)
    : method bool :=
  do* valid := read (fun this => getValidMovesForPiece fuel this from) in
  if negb (existsb (fun move => samePosition move to) valid) then retM false
  else
    do* ep := read (fun this =>
                      if type_eqb (type fromPiece) PAWN
                      then isEnPassantPossible this from to
                      else Ret false) in
    do* _ := if ep then write (row from) (col to) None else retM tt in
    do* _ := assign (fun this =>
                       set_lastMove this
                         (Some (mkLastMove (mkPosition (row from) (col from))
                                  (mkPosition (row to) (col to))
                                  (mkPiece (type fromPiece) (color fromPiece)
                                     (hasMoved fromPiece))))) in
    do* _ := write (row to) (col to)
               (Some (mkPiece (type fromPiece) (color fromPiece) true)) in
    do* _ := write (row from) (col from) None in
    do* _ := handlePostMove fuel in
    retM true.

Definition movePiece (fuel : nat) (from to : Position) : method bool :=
  fun this =>
  if gameType_eqb (gameType this) dice && (remainingMoves this <=? 0) then Done false this
  else if gameType_eqb (gameType this) coinToss && waitingForCoinToss this
  then Done false this
  else if gameType_eqb (gameType this) dice && waitingForDiceRoll this then Done false this
  else
    (do* p := read (fun this => pieceAt (board this) (row from) (col from)) in
     match p with
     | None => retM false
     | Some fromPiece =>
         let r := if color_eqb (color fromPiece) WHITE then 7 else 0 in
         if type_eqb (type fromPiece) KING && (col from =? 4) && (col to =? 6) then
           do* possible :=
             read (fun this =>
                     isCastlingPossible fuel this (mkPosition r 4) (mkPosition r 7)) in
           if negb possible then retM false
           else
             do* _ := castle fromPiece r 6 5 7 in
             do* _ := handlePostMove fuel in
             retM true
         else if type_eqb (type fromPiece) KING && (col from =? 4) && (col to =? 2) then
           do* possible :=
             read (fun this =>
                     isCastlingPossible fuel this (mkPosition r 4) (mkPosition r 0)) in
           if negb possible then retM false
           else
             do* _ := castle fromPiece r 2 3 0 in
             do* _ := handlePostMove fuel in
             retM true
         else ordinaryMove fuel fromPiece from to
     end) this.

Definition promotePawn (fuel : nat) (pos : Position) (newType : PieceType)
    : method unit :=
  do* p := read (fun this => pieceAt (board this) (row pos) (col pos)) in
  match p with
  | None => retM tt
  | Some pc =>
      if negb (type_eqb (type pc) PAWN) then retM tt
      else
        let isLastRank :=
          (color_eqb (color pc) WHITE && (row pos =? 0))
          || (color_eqb (color pc) BLACK && (row pos =? 7)) in
        if negb isLastRank then retM tt
        else
          do* _ := write (row pos) (col pos) (Some (mkPiece newType (color pc) true)) in
          do* _ := checkForCheck fuel in
          do* flag := read (fun this => Ret (isInCheck this)) in
          if isSome flag then checkForCheckmate fuel else retM tt
  end.

Definition run (fuel : nat) (op : Op) : method Response :=
  match op with
  | OpGetState => fun this => Done (RState (getState this)) this
  | OpSelectPiece pos => do* _ := selectPiece fuel pos in retM RVoid
  | OpUnselectPiece => do* _ := assign unselectPiece in retM RVoid
  | OpMovePiece from to => do* ok := movePiece fuel from to in retM (RBool ok)
  | OpRollDice value =>
      fun this => let r := rollDice this value in Done (RDice r.1) r.2
  | OpTossCoin result =>
      fun this => let r := tossCoin this result in Done (RCoin r.1) r.2
  | OpPromotePawn pos newType =>
      do* _ := promotePawn fuel pos
                 (match newType with Some t => t | None => QUEEN end) in
      retM RVoid
  | OpResetGame => do* _ := assign resetGame in retM RVoid
  end.

End Tracked.

(** The state the call [op] leaves the game in, whether it returns or
    throws. *)
Definition leaves (fuel : nat) (op : Op) (this : ChessGameState) : ChessGameState :=
  stateLeft (Tracked.run fuel op this).

(** The states a game of variant [g] can be in: the constructed one and
    those left by public calls, returning or not, of an engine whose stack
    has room for five nested castling tests (how much deeper it is does not
    matter, [call_fuel_stable]). *)
Inductive reachable (g : GameType) : ChessGameState -> Prop :=
| reachable_new : reachable g (constructor g)
| reachable_step fuel op s :
    (5 <= fuel)%nat -> reachable g s -> reachable g (leaves fuel op s).

(** A sequence of calls from a given state; the responses are dropped. *)
Fixpoint play (fuel : nat) (ops : list Op) (this : ChessGameState) : outcome ChessGameState :=
  match ops with
  | [] => Ret this
  | op :: rest => let* r := run fuel op this in play fuel rest r.2
  end.

(** The state a sequence of calls leaves, a caller going on after a call
    that threw. *)
Fixpoint playOn (fuel : nat) (ops : list Op) (this : ChessGameState) : ChessGameState :=
  match ops with
  | [] => this
  | op :: rest => playOn fuel rest (leaves fuel op this)
  end.

(** Shorthands for the scenarios below. *)
Definition square (r c : Z) : Position := mkPosition r c.
Definition move (a b c d : Z) : Op := OpMovePiece (square a b) (square c d).

(** ** Notions used in the statements and proofs *)

(** [movePiece] refuses a move before it consults the board when the
    variant's turn conditions forbid it. *)
Definition moveBarred (s : ChessGameState) : bool :=
  (gameType_eqb (gameType s) dice && (remainingMoves s <=? 0))
  || (gameType_eqb (gameType s) coinToss && waitingForCoinToss s)
  || (gameType_eqb (gameType s) dice && waitingForDiceRoll s).

(** The state a scenario ends in (the constructed state when it fails). *)
Definition afterPlay (fuel : nat) (g : GameType) (ops : list Op) : ChessGameState :=
  match play fuel ops (constructor g) with
  | Ret s => s
  | _ => constructor g
  end.

(** The game one move after check was given with the last granted move of
    a Dice turn, by a knight, while a White pawn stands on row 0. *)
Definition exhaustedDiceGame : ChessGameState :=
  Eval vm_compute in
    afterPlay 3 dice
      [OpRollDice 3; move 6 0 4 0; move 4 0 3 0; move 3 0 2 0;
       OpRollDice 3; move 2 0 1 1; move 1 1 0 0; move 7 1 5 2;
       OpRollDice 2; move 5 2 3 3; move 3 3 1 2].

(** Fool's mate (1. f3 e5 2. g4 Qh4#), then the queen steps back to h5. *)
Definition foolsMate : list Op :=
  [move 6 5 5 5; move 1 4 3 4; move 6 6 4 6; move 0 3 4 7].

(** The test of [promotePawn]: a pawn on the far rank of its own colour. *)
Definition promotable (p : option Piece) (pos : Position) : bool :=
  match p with
  | Some pc =>
      type_eqb (type pc) PAWN
      && ((color_eqb (color pc) WHITE && (row pos =? 0))
          || (color_eqb (color pc) BLACK && (row pos =? 7)))
  | None => false
  end.

(** A position of the board: row and column in 0..7. *)
Definition inRange (p : Position) : Prop := isValidPosition (row p) (col p) = true.

(** The board is eight rows of eight squares. *)
Definition wfBoard (b : Board) : Prop :=
  length b = 8%nat /\ Forall (fun r => length r = 8%nat) b.

(** [post Q m]: the call [m] throws nothing but the [RangeError] of an
    exhausted stack, and a value it returns satisfies [Q]. *)
Definition post {A} (Q : A -> Prop) (m : outcome A) : Prop :=
  match m with
  | Ret a => Q a
  | Throw RangeError => True
  | Throw _ => False
  end.

(** [noThrow m]: [m] raises no error of its own, that is, nothing but the
    overflow of the stack. *)
Definition noThrow {A} (m : outcome A) : Prop := post (fun _ => True) m.

(** The destinations pushed so far are squares of the board. *)
Definition movesOK (acc : Acc) : Prop := Forall inRange acc.1.

(** A nested castling test that raises no error of its own on squares of
    the board. *)
Definition castleNoThrow (castle : Position -> Position -> outcome bool) : Prop :=
  forall kingPos rookPos, inRange kingPos -> inRange rookPos ->
                          noThrow (castle kingPos rookPos).

(** The positions a call hands to a board access before any other test:
    the square selected, the square moved from, the square promoted on. *)
Definition opInRange (op : Op) : Prop :=
  match op with
  | OpSelectPiece pos => inRange pos
  | OpMovePiece from _ => inRange from
  | OpPromotePawn pos _ => inRange pos
  | _ => True
  end.

(** [refines a b]: [a] is the overflow of the stack, or [a] is [b]. *)
Definition refines {A} (a b : outcome A) : Prop := a = Throw RangeError \/ a = b.

(** [finishes m]: the call [m] comes to an end, with a value or an error of
    its own: it does not overflow the stack. *)
Definition finishes {A} (m : outcome A) : Prop := m <> Throw RangeError.

(** The number of squares left on the ray from [(r, c)], that square
    included, when it is on the board. *)
Definition raySquares (dr dc r c : Z) : Z :=
  if dr =? 1 then 8 - r
  else if dr =? -1 then r + 1
  else if dc =? 1 then 8 - c
  else c + 1.

(** [color === PlayerColor.WHITE ? 7 : 0] *)
Definition homeRow (c : PlayerColor) : Z := if color_eqb c WHITE then 7 else 0.

(** [P] holds of the four castling tests the raw moves of a king ask for:
    on the home row of either colour, the king's square with the corner of
    either rook. *)
Definition onNested (P : Position -> Position -> Prop) : Prop :=
  forall c rc, rc = 7 \/ rc = 0 ->
               P (mkPosition (homeRow c) 4) (mkPosition (homeRow c) rc).

(** A call that came to an end, with a value or an error of its own, as
    opposed to one cut short by the exhausted stack. *)
Definition answered {A} (o : outcome A) : nat :=
  match o with
  | Throw RangeError => 0
  | _ => 1
  end.

(** How many of the four nested tests come to an end. *)
Definition answers (castle : Position -> Position -> outcome bool) : nat :=
  (answered (castle (mkPosition 7 4) (mkPosition 7 7))
   + answered (castle (mkPosition 7 4) (mkPosition 7 0))
   + answered (castle (mkPosition 0 4) (mkPosition 0 7))
   + answered (castle (mkPosition 0 4) (mkPosition 0 0)))%nat.

(** [ensures Q m]: a value the call [m] returns satisfies [Q]. *)
Definition ensures {A} (Q : A -> Prop) (m : outcome A) : Prop :=
  forall a, m = Ret a -> Q a.


(** Games of the Classic variant used as scenarios; the two sides move in
    turn.

    [castlingGame]: 1. Nf3 a6 2. e3 a5 3. Be2 a4, White can castle short. *)
Definition castlingGame : list Op :=
  [move 7 6 5 5; move 1 0 2 0; move 6 4 5 4; move 2 0 3 0; move 7 5 6 4; move 3 0 4 0].

(** [pawnOnE2Game]: 1. e4 d5 2. Bc4 dxe4 3. Nf3 e3 4. a3 e2. A Black pawn
    stands on e2, diagonally before the empty square f1. *)
Definition pawnOnE2Game : list Op :=
  [move 6 4 4 4; move 1 3 3 3; move 7 5 4 2; move 3 3 4 4;
   move 7 6 5 5; move 4 4 5 4; move 6 0 5 0; move 5 4 6 4].

(** [promotionGame]: 1. a4 h6 2. a5 h5 3. a6 h4 4. axb7 h3 5. bxa8. A White
    pawn stands on a8 and it is Black's turn. *)
Definition promotionGame : list Op :=
  [move 6 0 4 0; move 1 7 2 7; move 4 0 3 0; move 2 7 3 7; move 3 0 2 0;
   move 3 7 4 7; move 2 0 1 1; move 4 7 5 7; move 1 1 0 0].

(** [enPassantPinGame]: 1. e4 a5 2. Ke2 Ra6 3. Ke3 Rb6 4. Kf4 a4 5. e5 a3
    6. Kg5 Rb5 7. h3 d5. On the fifth rank stand the Black rook (b5), the
    Black pawn that has just made its double step (d5), the White pawn (e5)
    and the White king (g5). *)
Definition enPassantPinGame : list Op :=
  [move 6 4 4 4; move 1 0 3 0; move 7 4 6 4; move 0 0 2 0; move 6 4 5 4;
   move 2 0 2 1; move 5 4 4 5; move 3 0 4 0; move 4 4 3 4; move 4 0 5 0;
   move 4 5 3 6; move 2 1 3 1; move 6 7 5 7; move 1 3 3 3].

(** [openWingsGame]: 1. e4 d5 2. Nf3 Bg4 3. h3 Na6 4. a3 Qd6.  White's king
    side and Black's queen side are clear but for the bishop on f1, which
    5. Bb5+ then moves away, giving check. *)
Definition openWingsGame : list Op :=
  [move 6 4 4 4; move 1 3 3 3; move 7 6 5 5; move 0 2 4 6;
   move 6 7 5 7; move 0 1 2 0; move 6 0 5 0; move 0 3 2 3].

(** [openKingsidesGame]: 1. Nf3 Nf6 2. e3 e6 3. Be2 Be7.  Both sides have
    cleared the squares between king and king's rook. *)
Definition openKingsidesGame : list Op :=
  [move 7 6 5 5; move 0 6 2 5; move 6 4 5 4; move 1 4 2 4; move 7 5 6 4; move 0 5 1 4].

(** The position that game ends in, White to move. *)
Definition openKingsides : ChessGameState :=
  Eval vm_compute in afterPlay 5 classic openKingsidesGame.

(** The draw of a die: [Math.floor(Math.random() * 6) + 1] lies in 1..6. *)
Definition fairOp (op : Op) : Prop :=
  match op with
  | OpRollDice value => 1 <= value <= 6
  | _ => True
  end.

(** The end of [handlePostMove] on the advanced state [x]: the check flag
    [c] and the checkmate flag [m] it computed, and the override when a
    check was found. *)
Definition afterDetection (c m : option PlayerColor) (x : ChessGameState)
    : ChessGameState :=
  let s1 := set_isCheckmate (set_isInCheck x c) m in
  if isSome c then checkOverride s1 else s1.

(** The move counter stays within what a roll can grant; outside a Dice
    game it keeps its initial value and no roll is ever awaited; outside a
    CoinToss game no toss is ever awaited. *)
Definition countersOK (s : ChessGameState) : Prop :=
  0 <= remainingMoves s <= 3 /\
  (gameType s <> dice -> remainingMoves s = 1 /\ waitingForDiceRoll s = false) /\
  (gameType s <> coinToss -> waitingForCoinToss s = false).

(** A destination a piece of colour [me] standing on [pos] may be offered
    on board [b]: a square of the board, other than [pos], that is empty or
    holds a piece of the other colour. *)
Definition goodMove (b : Board) (pos : Position) (me : PlayerColor)
    (mv : Position) : Prop :=
  inRange mv /\
  (row mv, col mv) <> (row pos, col pos) /\
  exists t, pieceAt b (row mv) (col mv) = Ret t /\
            forall q, t = Some q -> color q <> me.

Definition soundMoves (b : Board) (pos : Position) (me : PlayerColor)
    (acc : Acc) : Prop :=
  Forall (goodMove b pos me) acc.1.

(** A castling test that answers true only when the king's destination is
    empty on [b]. *)
Definition castleClear (castle : Position -> Position -> outcome bool)
    (b : Board) : Prop :=
  forall r,
    (castle (mkPosition r 4) (mkPosition r 7) = Ret true -> pieceAt b r 6 = Ret None) /\
    (castle (mkPosition r 4) (mkPosition r 0) = Ret true -> pieceAt b r 2 = Ret None).

(** The test of the two castling branches of [movePiece]. *)
Definition castlingShape (pc : Piece) (from to : Position) : bool :=
  type_eqb (type pc) KING && (col from =? 4) && ((col to =? 6) || (col to =? 2)).

(** Each square carries its own coordinates in its [position] field. *)
Definition squaresLabelled (b : Board) : Prop :=
  forall (r c : nat) l sq,
    b !! r = Some l -> l !! c = Some sq ->
    position sq = mkPosition (Z.of_nat r) (Z.of_nat c).

(** [rewritten b b']: [b'] comes from [b] by assignments
    [board[r][c].piece = p] in which [p] is null or has [hasMoved] set. *)
Inductive rewritten : Board -> Board -> Prop :=
| rewritten_refl b : rewritten b b
| rewritten_step b r c p b1 b2 :
    setPiece b r c p = Ret b1 ->
    (forall q, p = Some q -> hasMoved q = true) ->
    rewritten b1 b2 -> rewritten b b2.

(** The states a call that throws can leave the game in.  [selectPiece]
    has assigned [selectedPiece] or nothing; [movePiece] has written on the
    board and recorded the move, and may have run [handlePostMove] up to
    the scan of [checkForCheckmate]; [promotePawn] has replaced the pawn and
    found a check. *)
Definition halfDone (op : Op) (s s' : ChessGameState) : Prop :=
  match op with
  | OpSelectPiece pos =>
      s' = s \/ s' = set_selection s (Some pos) (validMoves s) (blockedMoves s)
  | OpMovePiece _ _ =>
      moveBarred s = false /\
      exists b lm,
        rewritten (board s) b /\
        (s' = set_board (set_lastMove s lm) b \/
         exists c,
           s' = set_isInCheck (advanceTurn (set_board (set_lastMove s lm) b)) (Some c))
  | OpPromotePawn _ _ =>
      s' = s \/
      exists b c, rewritten (board s) b /\ s' = set_isInCheck (set_board s b) (Some c)
  | _ => False
  end.

(** A piece whose [hasMoved] is false stands where the initial board has
    it. *)
Definition unmovedAtHome (b : Board) : Prop :=
  forall r c p, pieceAt b r c = Ret (Some p) -> hasMoved p = false ->
                pieceAt createInitialBoard r c = Ret (Some p).

(** Two states that agree on what move generation reads: the board, the
    check flag and the last move. *)
Definition sameView (s1 s2 : ChessGameState) : Prop :=
  board s1 = board s2 /\ isInCheck s1 = isInCheck s2 /\ lastMove s1 = lastMove s2.

(** No king of colour [c] stands on row [r], column [k] of [b]. *)
Definition noKingAt (c : PlayerColor) (b : Board) (r k : Z) : Prop :=
  forall p, pieceAt b r k = Ret (Some p) -> ~ (type p = KING /\ color p = c).

(** The rank of a square in the scan [for row ... for col ...]. *)
Definition scanRank (sq : Position) : Z := 8 * row sq + col sq.

Fixpoint increasing (lo : Z) (l : list Z) : Prop :=
  match l with
  | [] => True
  | x :: rest => lo < x /\ increasing x rest
  end.

(** The test of one round of [checkForCheck]: the king of colour [c] is
    found and [isSquareUnderAttack] answers true for its square; an error
    thrown on the way counts as false, as the [catch] has it. *)
Definition kingAttackedb (fuel : nat) (s : ChessGameState) (c : PlayerColor) : bool :=
  match findKingPosition c (board s) with
  | Ret kp =>
      match isSquareUnderAttack fuel s kp (opposite c) (board s) with
      | Ret true => true
      | _ => false
      end
  | _ => false
  end.

(** [mv] lies on a ray from [pos] in one of the directions [dirs], and the
    squares of the ray before it are empty on [b]. *)
Definition slides (b : Board) (pos : Position) (dirs : list (Z * Z))
    (mv : Position) : Prop :=
  exists dr dc k,
    In (dr, dc) dirs /\ 1 <= k /\
    row mv = row pos + k * dr /\ col mv = col pos + k * dc /\
    forall j, 1 <= j < k -> pieceAt b (row pos + j * dr) (col pos + j * dc) = Ret None.

(** The directions [calculateRawMovesByPieceType] hands to the line walk. *)
Definition lineDirections (ty : PieceType) : list (Z * Z) :=
  match ty with
  | ROOK => rookDirections
  | BISHOP => bishopDirections
  | QUEEN => rookDirections ++ bishopDirections
  | _ => []
  end.

(** The three kinds of pawn move: one row ahead onto an empty square; two
    rows ahead from the start row over two empty squares; one row ahead and
    one column aside onto an opposing piece or, en passant, onto an empty
    square. *)
Definition pawnStep (this : ChessGameState) (b : Board) (pos : Position)
    (pc : Piece) (mv : Position) : Prop :=
  let direction := if color_eqb (color pc) WHITE then -1 else 1 in
  let startRow := if color_eqb (color pc) WHITE then 6 else 1 in
  (row mv = row pos + direction /\ col mv = col pos /\
   pieceAt b (row mv) (col mv) = Ret None) \/
  (row mv = row pos + 2 * direction /\ col mv = col pos /\ row pos = startRow /\
   pieceAt b (row pos + direction) (col pos) = Ret None /\
   pieceAt b (row mv) (col mv) = Ret None) \/
  (row mv = row pos + direction /\ Z.abs (col mv - col pos) = 1 /\
   ((exists t, pieceAt b (row mv) (col mv) = Ret (Some t) /\ color t <> color pc) \/
    (pieceAt b (row mv) (col mv) = Ret None /\
     isEnPassantPossible this pos mv = Ret true))).

(** The two kinds of king move: to a neighbouring square; or, for a king
    with [hasMoved] false on column 4, to column 6 or 2 of its colour's home
    row when the castling test on that side answers true. *)
Definition kingStep (castle : Position -> Position -> outcome bool)
    (pos : Position) (pc : Piece) (mv : Position) : Prop :=
  let r := homeRow (color pc) in
  Z.max (Z.abs (row mv - row pos)) (Z.abs (col mv - col pos)) = 1 \/
  (hasMoved pc = false /\ col pos = 4 /\ row mv = r /\
   ((col mv = 6 /\ castle (mkPosition r 4) (mkPosition r 7) = Ret true) \/
    (col mv = 2 /\ castle (mkPosition r 4) (mkPosition r 0) = Ret true))).

(** ** Reasoning about outcomes *)

Lemma bind_Ret {A B} (m : outcome A) (f : A -> outcome B) (b : B) :
  bind m f = Ret b -> exists a, m = Ret a /\ f a = Ret b.
Proof. destruct m; simpl; intros H; try discriminate. eauto. Qed.

Lemma try_catch_Ret {A} (m h : outcome A) (a : A) :
  try_catch m h = Ret a -> m = Ret a \/ ((exists e, m = Throw e) /\ h = Ret a).
Proof. destruct m; simpl; intros H; try discriminate; eauto. Qed.

Lemma bind_ext {A B} (m : outcome A) (f g : A -> outcome B) :
  (forall a, f a = g a) -> bind m f = bind m g.
Proof. intros H. destruct m; simpl; auto. Qed.

Lemma bind_cong {A B} (m1 m2 : outcome A) (f : A -> outcome B) :
  m1 = m2 -> bind m1 f = bind m2 f.
Proof. intros ->. reflexivity. Qed.

Lemma try_catch_cong {A} (m1 m2 h : outcome A) :
  m1 = m2 -> try_catch m1 h = try_catch m2 h.
Proof. intros ->. reflexivity. Qed.

Lemma foldM_ext {A B} (f g : A -> B -> outcome B) l :
  (forall x b, f x b = g x b) -> forall b, foldM f l b = foldM g l b.
Proof.
  intros H. induction l as [|x l IH]; intros b; simpl; [reflexivity|].
  rewrite H. apply bind_ext. exact IH.
Qed.

Lemma existsM_ext {A} (f g : A -> outcome bool) l :
  (forall x, f x = g x) -> existsM f l = existsM g l.
Proof.
  intros H. induction l as [|x l IH]; simpl; [reflexivity|].
  rewrite H, IH. reflexivity.
Qed.

Lemma filterM_ext {A} (f g : A -> outcome bool) l :
  (forall x, f x = g x) -> filterM f l = filterM g l.
Proof.
  intros H. induction l as [|x l IH]; simpl; [reflexivity|].
  rewrite H, IH. reflexivity.
Qed.

Lemma bind_both {A B} (m1 m2 : outcome A) (f g : A -> outcome B) :
  m1 = m2 -> (forall a, f a = g a) -> bind m1 f = bind m2 g.
Proof. intros -> H. apply bind_ext. exact H. Qed.

Lemma bindM_both {A B} (m1 m2 : method A) (f g : A -> method B) s :
  m1 s = m2 s -> (forall a s', f a s' = g a s') -> bindM m1 f s = bindM m2 g s.
Proof. intros E H. unfold bindM. rewrite E. destruct (m2 s); auto. Qed.

Lemma bindM_ext {A B} (m : method A) (f g : A -> method B) s :
  (forall a s', f a s' = g a s') -> bindM m f s = bindM m g s.
Proof. intros H. apply bindM_both; [reflexivity | exact H]. Qed.

Lemma read_ext {A} (f g : ChessGameState -> outcome A) s :
  (forall x, f x = g x) -> read f s = read g s.
Proof. intros H. unfold read. rewrite H. reflexivity. Qed.

(** Splits a hypothesis [bind m f = Ret b] into its two steps. *)
Ltac bind_inv H :=
  let a := fresh "a" in
  let Ha := fresh "Hm" in
  apply bind_Ret in H; destruct H as (a & Ha & H).

(** ** Frame properties of check detection and of the post-move step *)

Lemma checkColor_frame fuel c s s' :
  checkColor fuel c s = Ret s' -> s' = s \/ s' = set_isInCheck s (Some c).
Proof.
  unfold checkColor. intros H.
  apply try_catch_Ret in H. destruct H as [H | [_ H]].
  - bind_inv H. bind_inv H. destruct a0; inversion H; auto.
  - inversion H; auto.
Qed.

Lemma checkForCheck_frame fuel s s' :
  checkForCheck fuel s = Ret s' -> exists c, s' = set_isInCheck s c.
Proof.
  unfold checkForCheck. simpl. intros H.
  bind_inv H. bind_inv H. inversion H; subst; clear H.
  apply checkColor_frame in Hm, Hm0.
  destruct Hm as [-> | ->], Hm0 as [-> | ->]; eexists; reflexivity.
Qed.

Lemma checkForCheckmate_frame fuel s s' :
  checkForCheckmate fuel s = Ret s' -> exists m, s' = set_isCheckmate s m.
Proof.
  unfold checkForCheckmate. destruct (isInCheck s); intros H.
  - bind_inv H. inversion H. eauto.
  - inversion H. eauto.
Qed.

(** [handlePostMove] in terms of its parts: the state it returns is the
    advanced state with the two check flags recomputed, and the override
    applied exactly when a check was found. *)
Lemma handlePostMove_inv fuel s s' :
  handlePostMove fuel s = Ret s' ->
  exists c m,
    let s1 := set_isInCheck (advanceTurn s) c in
    checkForCheck fuel (advanceTurn s) = Ret s1 /\
    match c with
    | None => s' = s1
    | Some _ =>
        checkForCheckmate fuel s1 = Ret (set_isCheckmate s1 m) /\
        s' = checkOverride (set_isCheckmate s1 m)
    end.
Proof.
  unfold handlePostMove. intros H. bind_inv H.
  destruct (checkForCheck_frame _ _ _ Hm) as [c ->].
  exists c. destruct c as [c|]; simpl in H.
  - bind_inv H. destruct (checkForCheckmate_frame _ _ _ Hm0) as [m ->].
    simpl in H. inversion H. exists m. auto.
  - inversion H. exists None. auto.
Qed.

Lemma ordinaryMove_inv fuel s pc from to ok s' :
  ordinaryMove fuel s pc from to = Ret (ok, s') ->
  (ok = false /\ s' = s) \/
  (ok = true /\ exists b lm, handlePostMove fuel (set_board (set_lastMove s lm) b) = Ret s').
Proof.
  unfold ordinaryMove. intros H. bind_inv H.
  destruct (negb _).
  - inversion H; auto.
  - bind_inv H. bind_inv H. bind_inv H. bind_inv H. bind_inv H.
    inversion H; subst. right. split; [reflexivity|]. eauto.
Qed.

Lemma set_lastMove_same s : set_lastMove s (lastMove s) = s.
Proof. destruct s; reflexivity. Qed.

Lemma set_isCheckmate_same s : set_isCheckmate s (isCheckmate s) = s.
Proof. destruct s; reflexivity. Qed.

Lemma castle_inv s pc r k t f s1 :
  castle s pc r k t f = Ret s1 -> exists b, s1 = set_board (set_lastMove s (lastMove s)) b.
Proof.
  unfold castle. intros H. do 4 bind_inv H. inversion H.
  rewrite set_lastMove_same. eauto.
Qed.

Lemma movePiece_barred fuel s from to :
  moveBarred s = true -> movePiece fuel s from to = Ret (false, s).
Proof.
  unfold moveBarred, movePiece. intros H.
  destruct (gameType_eqb (gameType s) dice && (remainingMoves s <=? 0)); [reflexivity|].
  destruct (gameType_eqb (gameType s) coinToss && waitingForCoinToss s); [reflexivity|].
  simpl in H. rewrite H. reflexivity.
Qed.

Lemma movePiece_inv fuel s from to ok s' :
  movePiece fuel s from to = Ret (ok, s') ->
  (ok = false /\ s' = s) \/
  (ok = true /\ moveBarred s = false /\
   exists b lm, handlePostMove fuel (set_board (set_lastMove s lm) b) = Ret s').
Proof.
  intros H. destruct (moveBarred s) eqn:G.
  { rewrite movePiece_barred in H by assumption. inversion H; auto. }
  unfold moveBarred in G. unfold movePiece in H.
  apply orb_false_iff in G as [G G3]. apply orb_false_iff in G as [G1 G2].
  rewrite G1, G2, G3 in H.
  bind_inv H. destruct a as [pc|]; [|inversion H; auto].
  destruct (type_eqb (type pc) KING && (col from =? 4) && (col to =? 6)).
  { bind_inv H. destruct a; simpl in H; [|inversion H; auto].
    bind_inv H. bind_inv H. inversion H; subst.
    apply castle_inv in Hm1 as [b ->]. right. repeat split; eauto. }
  destruct (type_eqb (type pc) KING && (col from =? 4) && (col to =? 2)).
  { bind_inv H. destruct a; simpl in H; [|inversion H; auto].
    bind_inv H. bind_inv H. inversion H; subst.
    apply castle_inv in Hm1 as [b ->]. right. repeat split; eauto. }
  apply ordinaryMove_inv in H. destruct H as [H | (-> & b & lm & H)]; [auto|].
  right. repeat split; eauto.
Qed.

Lemma selectPiece_frame fuel s pos s' :
  selectPiece fuel s pos = Ret s' -> exists p v b, s' = set_selection s p v b.
Proof.
  unfold selectPiece. intros H. bind_inv H.
  destruct a as [pc|]; [|inversion H; eauto].
  destruct (negb _); [inversion H; eauto|].
  do 3 bind_inv H. inversion H. eauto.
Qed.

Lemma promotePawn_frame fuel s pos ty s' :
  promotePawn fuel s pos ty = Ret s' ->
  s' = s \/ exists b c m, s' = set_isCheckmate (set_isInCheck (set_board s b) c) m.
Proof.
  unfold promotePawn. intros H. bind_inv H.
  destruct a as [pc|]; [|inversion H; auto].
  destruct (negb (type_eqb _ _)); [inversion H; auto|].
  destruct (negb _); [inversion H; auto|].
  bind_inv H. bind_inv H. right.
  destruct (checkForCheck_frame _ _ _ Hm1) as [c ->].
  destruct (isSome _).
  - destruct (checkForCheckmate_frame _ _ _ H) as [m ->]. eauto.
  - inversion H. exists a, c, (isCheckmate s). destruct s; reflexivity.
Qed.

(** ** Calls that throw half-way *)

Lemma returned_Done {A} (x : completion A) a s :
  returned x = Ret (a, s) -> x = Done a s.
Proof. destruct x; simpl; intros H; inversion H; reflexivity. Qed.

Lemma returned_Raised {A} (x : completion A) e :
  returned x = Throw e -> x = Raised e (stateLeft x).
Proof. destruct x; simpl; intros H; inversion H; reflexivity. Qed.

Lemma returned_bindM_eq {A B} (m : method A) (f : A -> method B) s :
  returned (bindM m f s) =
  let* r := returned (m s) in returned (f r.1 r.2).
Proof. unfold bindM. destruct (m s); reflexivity. Qed.

Lemma checkColor_returns fuel c s : exists s', checkColor fuel c s = Ret s'.
Proof.
  unfold checkColor. destruct (let* _ := _ in _); simpl; eauto.
Qed.

Lemma checkForCheck_returns fuel s : exists s', checkForCheck fuel s = Ret s'.
Proof.
  unfold checkForCheck. simpl.
  destruct (checkColor_returns fuel WHITE (set_isInCheck s None)) as [s1 ->]. simpl.
  destruct (checkColor_returns fuel BLACK s1) as [s2 ->]. simpl. eauto.
Qed.

(** One round of the loop of [checkForCheck], with its [try] and [catch]. *)
Lemma checkColor_tracked fuel c s :
  tryM (do* kingPosition := read (fun this => findKingPosition c (board this)) in
        do* attacked :=
          read (fun this =>
                  isSquareUnderAttack fuel this kingPosition (opposite c) (board this)) in
        if attacked then assign (fun this => set_isInCheck this (Some c)) else retM tt) s
  = match checkColor fuel c s with
    | Ret s' => Done tt s'
    | Throw e => Raised e s
    end.
Proof.
  unfold tryM, bindM, read, checkColor.
  destruct (findKingPosition c (board s)) as [kp|e]; simpl; [|reflexivity].
  destruct (isSquareUnderAttack fuel s kp (opposite c) (board s)) as [[|]|e];
    reflexivity.
Qed.

Lemma checkForCheck_tracked fuel s :
  Tracked.checkForCheck fuel s =
  match checkForCheck fuel s with
  | Ret s' => Done tt s'
  | Throw e => Raised e s
  end.
Proof.
  unfold Tracked.checkForCheck, checkForCheck. simpl.
  unfold bindM at 1. unfold assign at 1.
  unfold bindM at 1. rewrite checkColor_tracked.
  destruct (checkColor_returns fuel WHITE (set_isInCheck s None)) as [s1 ->]. simpl.
  unfold bindM at 1. rewrite checkColor_tracked.
  destruct (checkColor_returns fuel BLACK s1) as [s2 ->]. reflexivity.
Qed.

Lemma checkForCheckmate_tracked fuel s :
  Tracked.checkForCheckmate fuel s =
  match checkForCheckmate fuel s with
  | Ret s' => Done tt s'
  | Throw e => Raised e s
  end.
Proof.
  unfold Tracked.checkForCheckmate, checkForCheckmate, bindM, read, assign.
  destruct (isInCheck s) as [c|]; [|reflexivity].
  destruct (existsM _ _); reflexivity.
Qed.

Lemma handlePostMove_tracked fuel s :
  returned (Tracked.handlePostMove fuel s) =
  let* s' := handlePostMove fuel s in Ret (tt, s').
Proof.
  unfold Tracked.handlePostMove, handlePostMove.
  unfold bindM at 1. unfold assign at 1.
  unfold bindM at 1. rewrite checkForCheck_tracked.
  destruct (checkForCheck_returns fuel (advanceTurn s)) as [s1 ->]. simpl.
  unfold bindM at 1. unfold read at 1.
  destruct (isSome (isInCheck s1)); [|reflexivity].
  unfold bindM at 1. rewrite checkForCheckmate_tracked.
  destruct (checkForCheckmate fuel s1) as [s2|e]; [|reflexivity]. simpl.
  unfold bindM, read. destruct (isSome (isInCheck s2)); reflexivity.
Qed.

(** [handlePostMove] throws only from the scan of [checkForCheckmate], with
    the turn advanced and a check flagged. *)
Lemma handlePostMove_raised fuel s e s' :
  Tracked.handlePostMove fuel s = Raised e s' ->
  exists c, s' = set_isInCheck (advanceTurn s) (Some c).
Proof.
  unfold Tracked.handlePostMove.
  unfold bindM at 1. unfold assign at 1.
  unfold bindM at 1. rewrite checkForCheck_tracked.
  destruct (checkForCheck fuel (advanceTurn s)) as [s1|e1] eqn:E.
  2:{ destruct (checkForCheck_returns fuel (advanceTurn s)) as [s1 E1]. congruence. }
  destruct (checkForCheck_frame _ _ _ E) as [c ->].
  unfold bindM at 1. unfold read at 1.
  destruct c as [c|]; simpl; [|discriminate].
  unfold bindM at 1. rewrite checkForCheckmate_tracked.
  destruct (checkForCheckmate fuel _) as [s2|e2].
  - unfold bindM, read. destruct (isSome (isInCheck s2)); discriminate.
  - intros H. inversion H. eauto.
Qed.

Lemma rewritten_trans b1 b2 b3 : rewritten b1 b2 -> rewritten b2 b3 -> rewritten b1 b3.
Proof. induction 1; intros; [assumption|]. econstructor; eauto. Qed.

Lemma rewritten_one b r c p b1 :
  setPiece b r c p = Ret b1 -> (forall q, p = Some q -> hasMoved q = true) ->
  rewritten b b1.
Proof. intros. econstructor; [eassumption | assumption | constructor]. Qed.

Lemma bindM_Raised {A B} (m : method A) (f : A -> method B) s e s' :
  bindM m f s = Raised e s' ->
  m s = Raised e s' \/ exists a s1, m s = Done a s1 /\ f a s1 = Raised e s'.
Proof.
  unfold bindM. destruct (m s) as [a s1|e1 s1]; intros H; 
    [right; eauto|left; inversion H; reflexivity].
Qed.

Lemma bindM_Done {A B} (m : method A) (f : A -> method B) s b s' :
  bindM m f s = Done b s' ->
  exists a s1, m s = Done a s1 /\ f a s1 = Done b s'.
Proof. unfold bindM. destruct (m s); intros H; [eauto|discriminate]. Qed.

Lemma read_Raised {A} (f : ChessGameState -> outcome A) s e s' :
  read f s = Raised e s' -> s' = s /\ f s = Throw e.
Proof. unfold read. destruct (f s); intros H; inversion H; auto. Qed.

Lemma read_Done {A} (f : ChessGameState -> outcome A) s a s' :
  read f s = Done a s' -> s' = s /\ f s = Ret a.
Proof. unfold read. destruct (f s); intros H; inversion H; auto. Qed.

Lemma write_Raised r c p s e s' :
  write r c p s = Raised e s' -> s' = s /\ setPiece (board s) r c p = Throw e.
Proof. unfold write. destruct (setPiece _ _ _ _); intros H; inversion H; auto. Qed.

Lemma write_Done r c p s a s' :
  write r c p s = Done a s' ->
  exists b, setPiece (board s) r c p = Ret b /\ s' = set_board s b.
Proof. unfold write. destruct (setPiece _ _ _ _); intros H; inversion H; eauto. Qed.

Lemma set_board_same s : set_board s (board s) = s.
Proof. destruct s; reflexivity. Qed.

Lemma set_board_twice s b b' : set_board (set_board s b) b' = set_board s b'.
Proof. destruct s; reflexivity. Qed.

(** The four writes of a castling move, as far as they got. *)
Lemma castle_leaves pc r k t f s :
  exists b, rewritten (board s) b /\
            stateLeft (Tracked.castle pc r k t f s) = set_board s b.
Proof.
  assert (M : forall t c q, Some (mkPiece t c true) = Some q -> hasMoved q = true)
    by (intros ? ? q E; inversion E; reflexivity).
  assert (N : forall q : Piece, None = Some q -> hasMoved q = true) by discriminate.
  unfold Tracked.castle, bindM, write.
  destruct (setPiece (board s) r k _) as [b1|] eqn:E1; simpl.
  2:{ exists (board s). split; [constructor | symmetry; apply set_board_same]. }
  destruct (setPiece b1 r t _) as [b2|] eqn:E2; simpl.
  2:{ exists b1. split; [eapply rewritten_one; eauto | reflexivity]. }
  destruct (setPiece b2 r 4 None) as [b3|] eqn:E3; simpl.
  2:{ exists b2. split; [|apply set_board_twice].
      eapply rewritten_step; [exact E1 | apply M |]. eapply rewritten_one; eauto. }
  destruct (setPiece b3 r f None) as [b4|] eqn:E4; simpl.
  2:{ exists b3. split; [|destruct s; reflexivity].
      eapply rewritten_step; [exact E1 | apply M |].
      eapply rewritten_step; [exact E2 | apply M |]. eapply rewritten_one; eauto. }
  exists b4. split; [|destruct s; reflexivity].
  eapply rewritten_step; [exact E1 | apply M |].
  eapply rewritten_step; [exact E2 | apply M |].
  eapply rewritten_step; [exact E3 | apply N |]. eapply rewritten_one; eauto.
Qed.

Lemma castle_tracked pc r k t f s :
  returned (Tracked.castle pc r k t f s) =
  let* s' := castle s pc r k t f in Ret (tt, s').
Proof.
  unfold Tracked.castle, castle, bindM, write.
  destruct (setPiece (board s) r k _) as [b1|]; simpl; [|reflexivity].
  destruct (setPiece b1 r t _) as [b2|]; simpl; [|reflexivity].
  destruct (setPiece b2 r 4 None) as [b3|]; simpl; [|reflexivity].
  destruct (setPiece b3 r f None) as [b4|]; simpl; [|reflexivity].
  destruct s; reflexivity.
Qed.

Lemma ordinaryMove_tracked fuel pc from to s :
  returned (Tracked.ordinaryMove fuel pc from to s) =
  ordinaryMove fuel s pc from to.
Proof.
  unfold Tracked.ordinaryMove, ordinaryMove.
  unfold bindM at 1. unfold read at 1.
  destruct (getValidMovesForPiece fuel s from) as [valid|]; simpl; [|reflexivity].
  destruct (negb _); [reflexivity|].
  unfold bindM at 1. unfold read at 1.
  destruct (if type_eqb (type pc) PAWN then _ else _) as [ep|]; simpl; [|reflexivity].
  unfold bindM at 1.
  assert (E : (if ep then write (row from) (col to) None else retM tt) s =
              match (if ep then setPiece (board s) (row from) (col to) None
                     else Ret (board s)) with
              | Ret b => Done tt (set_board s b)
              | Throw e => Raised e s
              end).
  { destruct ep; [reflexivity|]. unfold retM. rewrite set_board_same. reflexivity. }
  rewrite E. clear E.
  destruct (if ep then _ else _) as [b1|]; simpl; [|reflexivity].
  unfold bindM at 1. unfold assign at 1.
  unfold bindM at 1. unfold write at 1. simpl.
  destruct (setPiece b1 (row to) (col to) _) as [b2|]; simpl; [|reflexivity].
  unfold bindM at 1. unfold write at 1. simpl.
  destruct (setPiece b2 (row from) (col from) None) as [b3|]; simpl; [|reflexivity].
  match goal with
  | |- returned (bindM _ _ ?x) = let* _ := handlePostMove _ ?y in _ =>
      replace x with y by (destruct s; reflexivity)
  end.
  rewrite returned_bindM_eq, handlePostMove_tracked.
  destruct (handlePostMove fuel _); reflexivity.
Qed.

Lemma set_lastMove_board s lm b :
  set_board (set_lastMove s lm) b = set_lastMove (set_board s b) lm.
Proof. destruct s; reflexivity. Qed.

Lemma ordinaryMove_raised fuel pc from to s e s' :
  Tracked.ordinaryMove fuel pc from to s = Raised e s' ->
  exists b lm,
    rewritten (board s) b /\
    (s' = set_board (set_lastMove s lm) b \/
     exists c, s' = set_isInCheck (advanceTurn (set_board (set_lastMove s lm) b)) (Some c)).
Proof.
  assert (M : forall t c q, Some (mkPiece t c true) = Some q -> hasMoved q = true)
    by (intros ? ? q E; inversion E; reflexivity).
  assert (N : forall q : Piece, None = Some q -> hasMoved q = true) by discriminate.
  assert (Same : forall x, x = set_board (set_lastMove x (lastMove x)) (board x))
    by (intros []; reflexivity).
  unfold Tracked.ordinaryMove. intros H.
  apply bindM_Raised in H as [H | (valid & s1 & H1 & H)].
  { apply read_Raised in H as [-> _]. exists (board s), (lastMove s).
    split; [constructor | left; apply Same]. }
  apply read_Done in H1 as [-> _].
  destruct (negb _); [discriminate|].
  apply bindM_Raised in H as [H | (ep & s1 & H1 & H)].
  { apply read_Raised in H as [-> _]. exists (board s), (lastMove s).
    split; [constructor | left; apply Same]. }
  apply read_Done in H1 as [-> _].
  apply bindM_Raised in H as [H | ([] & s1 & H1 & H)].
  { destruct ep; [|discriminate]. apply write_Raised in H as [-> _].
    exists (board s), (lastMove s). split; [constructor | left; apply Same]. }
  assert (B1 : exists b1, rewritten (board s) b1 /\ s1 = set_board s b1).
  { destruct ep.
    - apply write_Done in H1 as (b1 & E1 & ->). exists b1.
      split; [eapply rewritten_one; eauto | reflexivity].
    - inversion H1; subst. exists (board s1).
      split; [constructor | symmetry; apply set_board_same]. }
  clear H1. destruct B1 as (b1 & R1 & ->).
  apply bindM_Raised in H as [H | ([] & s2 & H2 & H)]; [discriminate|].
  inversion H2; subst s2; clear H2.
  match type of H with
  | context [set_lastMove _ (Some ?x)] => set (lm := x) in *
  end.
  apply bindM_Raised in H as [H | ([] & s3 & H3 & H)].
  { apply write_Raised in H as [-> _]. exists b1, (Some lm).
    split; [exact R1 | left; symmetry; apply set_lastMove_board]. }
  apply write_Done in H3 as (b2 & E2 & ->). simpl in E2.
  apply bindM_Raised in H as [H | ([] & s4 & H4 & H)].
  { apply write_Raised in H as [-> _]. exists b2, (Some lm). split.
    - eapply rewritten_trans; [exact R1 | eapply rewritten_one; eauto].
    - left. destruct s; reflexivity. }
  apply write_Done in H4 as (b3 & E3 & ->). simpl in E3.
  apply bindM_Raised in H as [H | ([] & s5 & _ & H)]; [|discriminate].
  apply handlePostMove_raised in H as [c ->].
  exists b3, (Some lm). split.
  - eapply rewritten_trans; [exact R1|].
    eapply rewritten_step; [exact E2 | apply M |]. eapply rewritten_one; eauto.
  - right. exists c. destruct s; reflexivity.
Qed.

Lemma movePiece_tracked fuel from to s :
  returned (Tracked.movePiece fuel from to s) = movePiece fuel s from to.
Proof.
  unfold Tracked.movePiece, movePiece.
  destruct (_ && _); [reflexivity|].
  destruct (_ && _); [reflexivity|].
  destruct (_ && _); [reflexivity|].
  unfold bindM at 1. unfold read at 1.
  destruct (pieceAt _ _ _) as [[pc|]|]; simpl; [|reflexivity|reflexivity].
  destruct (type_eqb (type pc) KING && (col from =? 4) && (col to =? 6)).
  { unfold bindM at 1. unfold read at 1.
    destruct (isCastlingPossible _ _ _ _) as [[|]|]; simpl; [|reflexivity|reflexivity].
    rewrite returned_bindM_eq, castle_tracked.
    destruct (castle _ _ _ _ _ _) as [s1|]; simpl; [|reflexivity].
    rewrite returned_bindM_eq, handlePostMove_tracked.
    destruct (handlePostMove fuel s1); reflexivity. }
  destruct (type_eqb (type pc) KING && (col from =? 4) && (col to =? 2)).
  { unfold bindM at 1. unfold read at 1.
    destruct (isCastlingPossible _ _ _ _) as [[|]|]; simpl; [|reflexivity|reflexivity].
    rewrite returned_bindM_eq, castle_tracked.
    destruct (castle _ _ _ _ _ _) as [s1|]; simpl; [|reflexivity].
    rewrite returned_bindM_eq, handlePostMove_tracked.
    destruct (handlePostMove fuel s1); reflexivity. }
  apply ordinaryMove_tracked.
Qed.

Lemma castling_raised fuel pc r k t f s e s' :
  (do* _ := Tracked.castle pc r k t f in
   do* _ := Tracked.handlePostMove fuel in retM true) s = Raised e s' ->
  exists b lm,
    rewritten (board s) b /\
    (s' = set_board (set_lastMove s lm) b \/
     exists c, s' = set_isInCheck (advanceTurn (set_board (set_lastMove s lm) b)) (Some c)).
Proof.
  intros H. destruct (castle_leaves pc r k t f s) as (b & R & E).
  exists b, (lastMove s). split; [exact R|].
  rewrite set_lastMove_same.
  apply bindM_Raised in H as [H | ([] & s1 & H1 & H)].
  { rewrite H in E. simpl in E. auto. }
  rewrite H1 in E. simpl in E. subst s1.
  apply bindM_Raised in H as [H | ([] & s2 & _ & H)]; [|discriminate].
  apply handlePostMove_raised in H. auto.
Qed.

Lemma movePiece_raised fuel from to s e s' :
  Tracked.movePiece fuel from to s = Raised e s' ->
  halfDone (OpMovePiece from to) s s'.
Proof.
  assert (Same : forall x, x = set_board (set_lastMove x (lastMove x)) (board x))
    by (intros []; reflexivity).
  unfold Tracked.movePiece, halfDone, moveBarred.
  destruct (_ && _); [discriminate|].
  destruct (_ && _); [discriminate|].
  destruct (_ && _); [discriminate|].
  intros H. split; [reflexivity|].
  apply bindM_Raised in H as [H | (p & s1 & H1 & H)].
  { apply read_Raised in H as [-> _]. exists (board s), (lastMove s).
    split; [constructor | left; apply Same]. }
  apply read_Done in H1 as [-> _].
  destruct p as [pc|]; [|discriminate].
  destruct (type_eqb (type pc) KING && (col from =? 4) && (col to =? 6)).
  { apply bindM_Raised in H as [H | (possible & s1 & H1 & H)].
    { apply read_Raised in H as [-> _]. exists (board s), (lastMove s).
      split; [constructor | left; apply Same]. }
    apply read_Done in H1 as [-> _].
    destruct (negb possible); [discriminate|].
    eapply castling_raised; exact H. }
  destruct (type_eqb (type pc) KING && (col from =? 4) && (col to =? 2)).
  { apply bindM_Raised in H as [H | (possible & s1 & H1 & H)].
    { apply read_Raised in H as [-> _]. exists (board s), (lastMove s).
      split; [constructor | left; apply Same]. }
    apply read_Done in H1 as [-> _].
    destruct (negb possible); [discriminate|].
    eapply castling_raised; exact H. }
  eapply ordinaryMove_raised; exact H.
Qed.

Lemma selectPiece_tracked fuel pos s :
  returned (Tracked.selectPiece fuel pos s) =
  let* s' := selectPiece fuel s pos in Ret (tt, s').
Proof.
  unfold Tracked.selectPiece, selectPiece.
  unfold bindM at 1. unfold read at 1.
  destruct (pieceAt _ _ _) as [[pc|]|]; simpl; [|reflexivity|reflexivity].
  unfold bindM at 1. unfold read at 1.
  destruct (negb _); [reflexivity|].
  unfold bindM at 1. unfold assign at 1.
  unfold bindM at 1. unfold read at 1.
  destruct (getValidMovesForPiece _ _ _) as [legal|]; simpl; [|reflexivity].
  unfold bindM at 1. unfold read at 1.
  destruct (calculateRawMovesByPieceType _ _ _ _ _) as [raw|]; simpl; [|reflexivity].
  unfold bindM at 1. unfold read at 1.
  destruct (getCastlingPartners _ _ _) as [partners|]; reflexivity.
Qed.

Lemma selectPiece_raised fuel pos s e s' :
  Tracked.selectPiece fuel pos s = Raised e s' ->
  halfDone (OpSelectPiece pos) s s'.
Proof.
  unfold Tracked.selectPiece, halfDone. intros H.
  apply bindM_Raised in H as [H | (p & s1 & H1 & H)].
  { apply read_Raised in H as [-> _]. auto. }
  apply read_Done in H1 as [-> _].
  apply bindM_Raised in H as [H | (turn & s1 & H1 & H)]; [discriminate|].
  apply read_Done in H1 as [-> _].
  destruct p as [pc|]; [|discriminate].
  destruct (negb _); [discriminate|].
  apply bindM_Raised in H as [H | ([] & s1 & H1 & H)]; [discriminate|].
  inversion H1; subst s1; clear H1. right.
  apply bindM_Raised in H as [H | (legal & s1 & H1 & H)].
  { apply read_Raised in H as [-> _]. reflexivity. }
  apply read_Done in H1 as [-> _].
  apply bindM_Raised in H as [H | (raw & s1 & H1 & H)].
  { apply read_Raised in H as [-> _]. reflexivity. }
  apply read_Done in H1 as [-> _].
  apply bindM_Raised in H as [H | (partners & s1 & H1 & H)]; [|discriminate].
  apply read_Raised in H as [-> _]. reflexivity.
Qed.

Lemma promotePawn_tracked fuel pos ty s :
  returned (Tracked.promotePawn fuel pos ty s) =
  let* s' := promotePawn fuel s pos ty in Ret (tt, s').
Proof.
  unfold Tracked.promotePawn, promotePawn.
  unfold bindM at 1. unfold read at 1.
  destruct (pieceAt _ _ _) as [[pc|]|]; simpl; [|reflexivity|reflexivity].
  destruct (negb (type_eqb _ _)); [reflexivity|].
  destruct (negb _); [reflexivity|].
  unfold bindM at 1. unfold write at 1.
  destruct (setPiece _ _ _ _) as [b|]; simpl; [|reflexivity].
  unfold bindM at 1. rewrite checkForCheck_tracked.
  destruct (checkForCheck fuel (set_board s b)) as [s1|]; simpl; [|reflexivity].
  unfold bindM at 1. unfold read at 1.
  destruct (isSome (isInCheck s1)); [|reflexivity].
  rewrite checkForCheckmate_tracked.
  destruct (checkForCheckmate fuel s1); reflexivity.
Qed.

Lemma promotePawn_raised fuel pos ty s e s' :
  Tracked.promotePawn fuel pos ty s = Raised e s' ->
  halfDone (OpPromotePawn pos (Some ty)) s s'.
Proof.
  unfold Tracked.promotePawn, halfDone. intros H.
  apply bindM_Raised in H as [H | (p & s1 & H1 & H)].
  { apply read_Raised in H as [-> _]. auto. }
  apply read_Done in H1 as [-> _].
  destruct p as [pc|]; [|discriminate].
  destruct (negb (type_eqb _ _)); [discriminate|].
  destruct (negb _); [discriminate|].
  apply bindM_Raised in H as [H | ([] & s1 & H1 & H)].
  { apply write_Raised in H as [-> _]. auto. }
  apply write_Done in H1 as (b & E & ->).
  apply bindM_Raised in H as [H | ([] & s1 & H1 & H)].
  { rewrite checkForCheck_tracked in H.
    destruct (checkForCheck_returns fuel (set_board s b)) as [s1 E1].
    rewrite E1 in H. discriminate. }
  rewrite checkForCheck_tracked in H1.
  destruct (checkForCheck fuel (set_board s b)) as [s2|] eqn:E1; [|discriminate].
  inversion H1; subst s2; clear H1.
  destruct (checkForCheck_frame _ _ _ E1) as [c ->].
  apply bindM_Raised in H as [H | (flag & s2 & H1 & H)]; [discriminate|].
  apply read_Done in H1 as [-> H1]. inversion H1; subst flag; clear H1.
  destruct c as [c|]; simpl in H; [|discriminate].
  rewrite checkForCheckmate_tracked in H.
  destruct (checkForCheckmate fuel _); [discriminate|].
  inversion H. right. exists b, c. split; [|reflexivity].
  eapply rewritten_one; [exact E|]. intros q Q. inversion Q. reflexivity.
Qed.

(** The two renderings of a public call agree on what it returns and on
    what it throws. *)
Lemma run_tracked fuel op s : run fuel op s = returned (Tracked.run fuel op s).
Proof.
  destruct op; simpl; try reflexivity.
  - rewrite returned_bindM_eq, selectPiece_tracked.
    destruct (selectPiece fuel s pos); reflexivity.
  - rewrite returned_bindM_eq, movePiece_tracked.
    destruct (movePiece fuel s from to) as [[ok s1]|]; reflexivity.
  - rewrite returned_bindM_eq, promotePawn_tracked.
    destruct (promotePawn fuel s pos _); reflexivity.
Qed.

(** A call that returns leaves the state it returns; a call that throws
    leaves one of the states of [halfDone]. *)
Lemma leaves_cases fuel op s :
  (exists r, run fuel op s = Ret (r, leaves fuel op s)) \/
  (exists e, run fuel op s = Throw e /\ halfDone op s (leaves fuel op s)).
Proof.
  rewrite run_tracked. unfold leaves.
  destruct (Tracked.run fuel op s) as [r s'|e s'] eqn:E; simpl; [left; eauto|].
  right. exists e. split; [reflexivity|].
  destruct op; simpl in E; try discriminate.
  - apply bindM_Raised in E as [E | ([] & s1 & _ & E)]; [|discriminate].
    eapply selectPiece_raised; exact E.
  - apply bindM_Raised in E as [E | (ok & s1 & _ & E)]; [|discriminate].
    eapply movePiece_raised; exact E.
  - apply bindM_Raised in E as [E | ([] & s1 & _ & E)]; [|discriminate].
    eapply promotePawn_raised; exact E.
Qed.

Lemma run_leaves fuel op s r s' : run fuel op s = Ret (r, s') -> leaves fuel op s = s'.
Proof.
  rewrite run_tracked. unfold leaves.
  destruct (Tracked.run fuel op s); simpl; intros H; inversion H; reflexivity.
Qed.

Lemma gameType_advanceTurn s : gameType (advanceTurn s) = gameType s.
Proof.
  unfold advanceTurn. destruct (gameType s) eqn:E; simpl; try assumption.
  - destruct (negb _); simpl; assumption.
  - destruct (_ && _); simpl; assumption.
Qed.

Lemma gameType_handlePostMove fuel s s' :
  handlePostMove fuel s = Ret s' -> gameType s' = gameType s.
Proof.
  intros H. apply handlePostMove_inv in H as (c & m & _ & H).
  destruct c; [destruct H as [_ ->]|subst s']; simpl; apply gameType_advanceTurn.
Qed.

Lemma gameType_run fuel op s r s' :
  run fuel op s = Ret (r, s') -> gameType s' = gameType s.
Proof.
  destruct op; simpl; intros H.
  - inversion H; reflexivity.
  - bind_inv H. inversion H; subst.
    apply selectPiece_frame in Hm as (p & v & b & ->). reflexivity.
  - inversion H; reflexivity.
  - bind_inv H. destruct a as [ok s1]. inversion H; subst. simpl.
    apply movePiece_inv in Hm as [[_ ->] | (_ & _ & b & lm & Hm)]; [reflexivity|].
    apply gameType_handlePostMove in Hm. exact Hm.
  - inversion H; subst. unfold rollDice. destruct (_ || _); reflexivity.
  - inversion H; subst. unfold tossCoin. destruct (_ || _); reflexivity.
  - bind_inv H. inversion H; subst.
    apply promotePawn_frame in Hm as [-> | (b & c & m & ->)]; reflexivity.
  - inversion H; reflexivity.
Qed.

Lemma gameType_halfDone op s s' : halfDone op s s' -> gameType s' = gameType s.
Proof.
  destruct op; simpl; try contradiction.
  - intros [-> | ->]; reflexivity.
  - intros (_ & b & lm & _ & [-> | [c ->]]); [reflexivity|].
    unfold set_isInCheck. cbn [gameType]. rewrite gameType_advanceTurn. reflexivity.
  - intros [-> | (b & c & _ & ->)]; reflexivity.
Qed.

Lemma gameType_leaves fuel op s : gameType (leaves fuel op s) = gameType s.
Proof.
  destruct (leaves_cases fuel op s) as [[r H] | (e & _ & H)].
  - exact (gameType_run _ _ _ _ _ H).
  - exact (gameType_halfDone _ _ _ H).
Qed.

Lemma reachable_gameType g s : reachable g s -> gameType s = g.
Proof.
  induction 1 as [|fuel op s _ _ IH].
  - reflexivity.
  - rewrite gameType_leaves. exact IH.
Qed.

Lemma play_reachable g fuel ops : forall s s',
  (5 <= fuel)%nat ->
  reachable g s -> play fuel ops s = Ret s' -> reachable g s'.
Proof.
  induction ops as [|op ops IH]; simpl; intros s s' Hf Hs H.
  - inversion H; subst; exact Hs.
  - bind_inv H. destruct a as [r s1]. simpl in H.
    eapply IH; [exact Hf| |exact H]. rewrite <- (run_leaves _ _ _ _ _ Hm).
    apply reachable_step; assumption.
Qed.

Lemma playOn_reachable g fuel ops : forall s,
  (5 <= fuel)%nat ->
  reachable g s -> reachable g (playOn fuel ops s).
Proof.
  induction ops as [|op ops IH]; simpl; intros s Hf Hs; [exact Hs|].
  apply IH; [exact Hf|]. apply reachable_step; assumption.
Qed.

Lemma gameType_playOn fuel ops : forall s, gameType (playOn fuel ops s) = gameType s.
Proof.
  induction ops as [|op ops IH]; simpl; intros s; [reflexivity|].
  rewrite IH. apply gameType_leaves.
Qed.

(** ** Reset *)

(** C9. For every variant [g] and every state reachable in a game of that
    variant, [resetGame()] followed by [getState()] returns the snapshot
    that [getState()] returns right after [new ChessGameState(g)]. *)
Theorem resetGame_getState_eq_constructor (g : GameType) (s : ChessGameState) :
  reachable g s ->
  getState (resetGame s) = getState (constructor g).
Proof.
  intros H. apply reachable_gameType in H. subst g.
  unfold resetGame, constructor, getState. simpl.
  destruct (gameType s); reflexivity.
Qed.

Lemma resetGame_getState_eq_constructor_witness :
  let s := afterPlay 2 dice [OpRollDice 2; move 6 4 4 4] in
  reachable dice s /\ getState (resetGame s) = getState (constructor dice).
Proof.
  assert (R : reachable dice (afterPlay 2 dice [OpRollDice 2; move 6 4 4 4])).
  { eapply (play_reachable dice 5 [OpRollDice 2; move 6 4 4 4] (constructor dice));
      [lia | apply reachable_new | vm_compute; reflexivity]. }
  split; [exact R | exact (resetGame_getState_eq_constructor dice _ R)].
Defined.

(** ** The check override *)

(** C5. After a successful [movePiece], in every variant: if the post-move
    re-evaluation flags a check, then [waitingForDiceRoll] and
    [waitingForCoinToss] are both false and [currentTurn] is the opposite of
    the colour it held when the override ran, that is, of the turn the
    variant's own progression ([advanceTurn]) had just computed.  (In the
    game of the example below the round of [checkForCheck] for White's
    king has caught the overflow of the castling test, and the round for
    Black's king has found the check, [open_wings_overflow_caught].) *)
Theorem check_override_after_move (fuel : nat) (s s' : ChessGameState)
    (from to : Position) :
  movePiece fuel s from to = Ret (true, s') ->
  isInCheck s' <> None ->
  waitingForDiceRoll s' = false /\
  waitingForCoinToss s' = false /\
  currentTurn s' = opposite (currentTurn (advanceTurn s)).
Proof.
  intros H Hc.
  apply movePiece_inv in H as [[H _] | (_ & _ & b & lm & H)]; [discriminate|].
  apply handlePostMove_inv in H as (c & m & _ & H).
  destruct c as [c|].
  - destruct H as [_ ->]. simpl. repeat split.
    unfold advanceTurn. simpl.
    destruct (gameType s); simpl; try reflexivity.
    + destruct (negb _); reflexivity.
    + destruct (_ && _); reflexivity.
  - subst s'. simpl in Hc. congruence.
Qed.

Lemma check_override_after_move_witness :
  let s := afterPlay 5 classic openWingsGame in
  let s' := afterPlay 5 classic (openWingsGame ++ [move 7 5 3 1]) in
  movePiece 5 s (square 7 5) (square 3 1) = Ret (true, s') /\
  isInCheck s' = Some BLACK /\
  waitingForDiceRoll s' = false /\
  waitingForCoinToss s' = false /\
  currentTurn s' = opposite (currentTurn (advanceTurn s)).
Proof.
  intros s s'.
  assert (H1 : movePiece 5 s (square 7 5) (square 3 1) = Ret (true, s'))
    by (vm_compute; reflexivity).
  assert (H2 : isInCheck s' = Some BLACK) by (vm_compute; reflexivity).
  split; [exact H1|]. split; [exact H2|].
  apply (check_override_after_move 5 s s' (square 7 5) (square 3 1) H1).
  rewrite H2. discriminate.
Defined.


(** ** The exhausted Dice game *)

(** C10, as stated, fails: in a reachable Dice state with no move left, no
    roll awaited and a check flagged, [promotePawn] still changes the game:
    it turns the pawn on a8 into a queen. *)
Lemma promotePawn_changes_exhausted_dice_game :
  reachable dice exhaustedDiceGame /\
  gameType exhaustedDiceGame = dice /\
  remainingMoves exhaustedDiceGame <= 0 /\
  waitingForDiceRoll exhaustedDiceGame = false /\
  isInCheck exhaustedDiceGame = Some BLACK /\
  pieceAt (board exhaustedDiceGame) 0 0 = Ret (Some (mkPiece PAWN WHITE true)) /\
  exists s',
    run 3 (OpPromotePawn (square 0 0) None) exhaustedDiceGame = Ret (RVoid, s') /\
    pieceAt (board s') 0 0 = Ret (Some (mkPiece QUEEN WHITE true)) /\
    getState s' <> getState exhaustedDiceGame.
Proof.
  split.
  { eapply (play_reachable dice 5
              [OpRollDice 3; move 6 0 4 0; move 4 0 3 0; move 3 0 2 0;
               OpRollDice 3; move 2 0 1 1; move 1 1 0 0; move 7 1 5 2;
               OpRollDice 2; move 5 2 3 3; move 3 3 1 2] (constructor dice));
      [lia | apply reachable_new | vm_compute; reflexivity]. }
  do 5 (split; [vm_compute; congruence|]).
  eexists. split; [vm_compute; reflexivity|].
  split; [vm_compute; reflexivity|].
  vm_compute. discriminate.
Qed.

(** A Dice game out of moves in which no roll is awaited stays so under
    every call but [resetGame], whether the call returns or throws. *)
Lemma closed_dice_game_step fuel op s :
  gameType s = dice -> remainingMoves s <= 0 -> waitingForDiceRoll s = false ->
  op <> OpResetGame ->
  gameType (leaves fuel op s) = dice /\
  remainingMoves (leaves fuel op s) = remainingMoves s /\
  waitingForDiceRoll (leaves fuel op s) = false /\
  ((forall pos ty, op <> OpPromotePawn pos ty) ->
   (isInCheck s = None -> forall r, op <> OpTossCoin r) ->
   exists p v b, leaves fuel op s = set_selection s p v b).
Proof.
  intros Hg Hr Hw Hop.
  assert (G : moveBarred s = true).
  { unfold moveBarred. rewrite Hg. simpl. apply Z.leb_le in Hr. rewrite Hr. reflexivity. }
  assert (Hroll : forall v, rollDice s v = (mkDiceRoll 0 0 (currentTurn s), s)).
  { intros v. unfold rollDice. rewrite Hw. rewrite orb_true_r. reflexivity. }
  assert (Hsame : exists p v b, s = set_selection s p v b).
  { exists (selectedPiece s), (validMoves s), (blockedMoves s). destruct s; reflexivity. }
  destruct (leaves_cases fuel op s) as [[r H] | (e & _ & H)];
    revert H; generalize (leaves fuel op s); intros s' H.
  - destruct op as [|pos| |from to|value|toss|pos ty|]; simpl in H.
    + inversion H; subst. auto.
    + bind_inv H. inversion H; subst.
      apply selectPiece_frame in Hm as (p & v & b & ->). simpl. eauto 10.
    + inversion H; subst. unfold unselectPiece. simpl. eauto 10.
    + rewrite movePiece_barred in H by exact G. simpl in H. inversion H; subst. auto.
    + rewrite Hroll in H. inversion H; subst. auto.
    + inversion H; subst. unfold tossCoin.
      destruct (isInCheck s) as [c|] eqn:Ec; [simpl; auto|].
      destruct (negb (waitingForCoinToss s)); simpl; [auto|].
      repeat split; auto. intros _ Ht. exfalso. apply (Ht eq_refl toss). reflexivity.
    + bind_inv H. inversion H; subst.
      apply promotePawn_frame in Hm as [-> | (b & c & m & ->)]; simpl.
      * auto.
      * repeat split; auto. intros Hp. exfalso. eapply Hp. reflexivity.
    + congruence.
  - destruct op; simpl in H; try contradiction.
    + destruct H as [-> | ->]; simpl; eauto 10.
    + destruct H as [H _]. congruence.
    + destruct H as [-> | (b & c & _ & ->)]; simpl; [auto|].
      repeat split; auto. intros Hp. exfalso. eapply Hp. reflexivity.
Qed.

Lemma closed_dice_game_stays fuel ops : forall s,
  gameType s = dice -> remainingMoves s <= 0 -> waitingForDiceRoll s = false ->
  Forall (fun op => op <> OpResetGame) ops ->
  gameType (playOn fuel ops s) = dice /\
  remainingMoves (playOn fuel ops s) = remainingMoves s /\
  waitingForDiceRoll (playOn fuel ops s) = false.
Proof.
  induction ops as [|op ops IH]; intros s Hg Hr Hw Hops; simpl; [auto|].
  inversion Hops as [|? ? Hop Hrest]; subst.
  destruct (closed_dice_game_step fuel op s Hg Hr Hw Hop) as (H1 & H2 & H3 & _).
  rewrite <- H2. apply IH; [exact H1 | lia | exact H3 | exact Hrest].
Qed.

(** C10, amended. In a Dice state with [remainingMoves <= 0], no roll
    awaited and a check flagged, [movePiece] returns false for every pair of
    positions and [rollDice] and [tossCoin] return their sentinel values,
    each leaving the state as it is.  Of the other calls, only [promotePawn]
    and [resetGame] reach beyond the selection fields, whether they return
    or throw, and [promotePawn] leaves the variant, [remainingMoves] and
    [waitingForDiceRoll] alone.  So the game stays closed to moves and rolls
    until [resetGame]: after any sequence of other calls [movePiece] still
    returns false and [rollDice] its sentinel. *)
Theorem exhausted_dice_game_is_stuck (s : ChessGameState) :
  gameType s = dice ->
  remainingMoves s <= 0 ->
  waitingForDiceRoll s = false ->
  isInCheck s <> None ->
  (forall fuel from to, movePiece fuel s from to = Ret (false, s)) /\
  (forall v, rollDice s v = (mkDiceRoll 0 0 (currentTurn s), s)) /\
  (forall r, tossCoin s r = (mkCoinToss (currentTurn s), s)) /\
  (forall fuel op,
      op <> OpResetGame ->
      gameType (leaves fuel op s) = dice /\
      remainingMoves (leaves fuel op s) = remainingMoves s /\
      waitingForDiceRoll (leaves fuel op s) = false /\
      ((forall pos ty, op <> OpPromotePawn pos ty) ->
       exists p v b, leaves fuel op s = set_selection s p v b)) /\
  (forall fuel ops,
      Forall (fun op => op <> OpResetGame) ops ->
      let s' := playOn fuel ops s in
      gameType s' = dice /\
      remainingMoves s' = remainingMoves s /\
      waitingForDiceRoll s' = false /\
      (forall fuel' from to, movePiece fuel' s' from to = Ret (false, s')) /\
      (forall v, rollDice s' v = (mkDiceRoll 0 0 (currentTurn s'), s'))).
Proof.
  intros Hg Hr Hw Hc.
  assert (Closed : forall x, gameType x = dice -> remainingMoves x <= 0 ->
                             waitingForDiceRoll x = false ->
                             (forall fuel from to, movePiece fuel x from to = Ret (false, x)) /\
                             (forall v, rollDice x v = (mkDiceRoll 0 0 (currentTurn x), x))).
  { intros x Xg Xr Xw. split.
    - intros. apply movePiece_barred. unfold moveBarred. rewrite Xg. simpl.
      apply Z.leb_le in Xr. rewrite Xr. reflexivity.
    - intros v. unfold rollDice. rewrite Xw. rewrite orb_true_r. reflexivity. }
  destruct (Closed s Hg Hr Hw) as [Hmove Hroll].
  split; [exact Hmove|]. split; [exact Hroll|].
  split.
  { intros r. unfold tossCoin. destruct (isInCheck s); [reflexivity|congruence]. }
  split.
  { intros fuel op Hop.
    destruct (closed_dice_game_step fuel op s Hg Hr Hw Hop) as (H1 & H2 & H3 & H4).
    repeat split; try assumption.
    intros Hp. apply H4; [exact Hp|]. intros E. congruence. }
  intros fuel ops Hops.
  destruct (closed_dice_game_stays fuel ops s Hg Hr Hw Hops) as (H1 & H2 & H3).
  cbv zeta. split; [exact H1|]. split; [exact H2|]. split; [exact H3|].
  apply Closed; [exact H1 | lia | exact H3].
Qed.

Lemma exhausted_dice_game_is_stuck_witness :
  (forall fuel from to,
      movePiece fuel exhaustedDiceGame from to = Ret (false, exhaustedDiceGame)) /\
  (forall v, rollDice exhaustedDiceGame v
             = (mkDiceRoll 0 0 (currentTurn exhaustedDiceGame), exhaustedDiceGame)) /\
  (forall r, tossCoin exhaustedDiceGame r
             = (mkCoinToss (currentTurn exhaustedDiceGame), exhaustedDiceGame)) /\
  (forall fuel op,
      op <> OpResetGame ->
      gameType (leaves fuel op exhaustedDiceGame) = dice /\
      remainingMoves (leaves fuel op exhaustedDiceGame) = remainingMoves exhaustedDiceGame /\
      waitingForDiceRoll (leaves fuel op exhaustedDiceGame) = false /\
      ((forall pos ty, op <> OpPromotePawn pos ty) ->
       exists p v b, leaves fuel op exhaustedDiceGame = set_selection exhaustedDiceGame p v b)) /\
  (forall fuel ops,
      Forall (fun op => op <> OpResetGame) ops ->
      let s' := playOn fuel ops exhaustedDiceGame in
      gameType s' = dice /\
      remainingMoves s' = remainingMoves exhaustedDiceGame /\
      waitingForDiceRoll s' = false /\
      (forall fuel' from to, movePiece fuel' s' from to = Ret (false, s')) /\
      (forall v, rollDice s' v = (mkDiceRoll 0 0 (currentTurn s'), s'))).
Proof.
  apply (exhausted_dice_game_is_stuck exhaustedDiceGame).
  - reflexivity.
  - vm_compute. discriminate.
  - reflexivity.
  - vm_compute. discriminate.
Defined.

(** ** Checkmate flag *)

(** C2, at the failing input. After fool's mate both flags name White; the
    mating side is given the turn again, withdraws the queen, and the state
    that results has [isInCheck] cleared while [isCheckmate] still names
    White: [handlePostMove] calls [checkForCheckmate], the only place that
    clears the flag, under [if (this.isInCheck)] only. *)
Theorem stale_checkmate_after_check_lifted :
  exists s1 s2,
    play 4 foolsMate (constructor classic) = Ret s1 /\
    isInCheck s1 = Some WHITE /\ isCheckmate s1 = Some WHITE /\
    currentTurn s1 = BLACK /\
    run 4 (move 4 7 3 7) s1 = Ret (RBool true, s2) /\
    reachable classic s2 /\
    isInCheck s2 = None /\ isCheckmate s2 = Some WHITE.
Proof.
  exists (afterPlay 4 classic foolsMate),
         (afterPlay 4 classic (foolsMate ++ [move 4 7 3 7])).
  split; [vm_compute; reflexivity|].
  do 4 (split; [vm_compute; reflexivity|]).
  split; [|split; vm_compute; reflexivity].
  eapply (play_reachable classic 5 (foolsMate ++ [move 4 7 3 7]) (constructor classic));
    [lia | apply reachable_new | vm_compute; reflexivity].
Qed.

(** ** Dice variant *)

(** X24. What a completed move does to the Dice counters: [remainingMoves] drops
    by one, and a roll is awaited afterwards exactly when the counter is
    used up, no check was flagged before the move and none is flagged after
    it. *)
Lemma dice_move_counters fuel s from to s' :
  gameType s = dice ->
  movePiece fuel s from to = Ret (true, s') ->
  remainingMoves s' = remainingMoves s - 1 /\
  (waitingForDiceRoll s' = true <->
   remainingMoves s' <= 0 /\ isInCheck s = None /\ isInCheck s' = None).
Proof.
  intros Hg H.
  apply movePiece_inv in H as [[H _] | (_ & G & b & lm & H)]; [discriminate|].
  unfold moveBarred in G. rewrite Hg in G. simpl in G.
  apply orb_false_iff in G as [G Hw]. rewrite orb_false_r in G.
  apply handlePostMove_inv in H as (c & m & _ & H).
  assert (E : forall x, s' = x ->
            remainingMoves x = remainingMoves s - 1 ->
            (waitingForDiceRoll x = true <->
             remainingMoves x <= 0 /\ isInCheck s = None /\ isInCheck x = None) ->
            remainingMoves s' = remainingMoves s - 1 /\
            (waitingForDiceRoll s' = true <->
             remainingMoves s' <= 0 /\ isInCheck s = None /\ isInCheck s' = None))
    by (intros x -> ? ?; auto).
  destruct c as [c|]; [destruct H as [_ H]|]; eapply E; try exact H; clear E H;
    unfold advanceTurn; simpl; rewrite Hg; simpl;
    destruct (remainingMoves s - 1 <=? 0) eqn:L;
    destruct (isInCheck s); simpl; try reflexivity;
    try apply Z.leb_le in L; try apply Z.leb_gt in L;
    rewrite ?Hw; split; intros; try discriminate; try tauto;
    try (destruct H as (? & ? & ?); (discriminate || lia)).
Qed.

(** C4, at the failing input. Dice game: roll 2, e3 and Qh5; roll 2, Qxf7+
    with one move left, then Kxf7 with the last granted move.  The move
    succeeds and brings [remainingMoves] from 1 to 0, no check exists after
    it, and yet [waitingForDiceRoll] is false: [handlePostMove] tests the
    check flag of the position before the move. *)
Theorem no_roll_awaited_after_escaping_check :
  exists s1 s2,
    play 3 [OpRollDice 2; move 6 4 5 4; move 7 3 3 7; OpRollDice 2; move 3 7 1 5]
      (constructor dice) = Ret s1 /\
    remainingMoves s1 = 1 /\ isInCheck s1 = Some BLACK /\
    movePiece 3 s1 (square 0 4) (square 1 5) = Ret (true, s2) /\
    remainingMoves s2 = 0 /\ isInCheck s2 = None /\
    waitingForDiceRoll s2 = false.
Proof.
  exists (afterPlay 3 dice
            [OpRollDice 2; move 6 4 5 4; move 7 3 3 7; OpRollDice 2; move 3 7 1 5]),
         (afterPlay 3 dice
            [OpRollDice 2; move 6 4 5 4; move 7 3 3 7; OpRollDice 2; move 3 7 1 5;
             move 0 4 1 5]).
  do 6 (split; [vm_compute; reflexivity|]). vm_compute; reflexivity.
Qed.

(** ** The last-move record *)

Lemma lastMove_handlePostMove fuel s s' :
  handlePostMove fuel s = Ret s' -> lastMove s' = lastMove s.
Proof.
  intros H. apply handlePostMove_inv in H as (c & m & _ & H).
  assert (E : lastMove (advanceTurn s) = lastMove s).
  { unfold advanceTurn. destruct (gameType s); simpl; try reflexivity.
    - destruct (negb _); reflexivity.
    - destruct (_ && _); reflexivity. }
  destruct c; [destruct H as [_ ->]|subst s']; simpl; exact E.
Qed.

(** A successful move that is not of the castling shape records itself,
    with the piece as it stood before the move. *)
Lemma ordinary_move_records_lastMove fuel s pc from to s' :
  ordinaryMove fuel s pc from to = Ret (true, s') ->
  lastMove s' = Some (mkLastMove from to pc).
Proof.
  unfold ordinaryMove. intros H. bind_inv H.
  destruct (negb _); [inversion H|].
  do 5 bind_inv H. inversion H; subst.
  match goal with
  | P : handlePostMove _ _ = Ret _ |- _ =>
      apply lastMove_handlePostMove in P; rewrite P
  end. simpl.
  destruct from, to, pc; reflexivity.
Qed.

(** C6, at the failing input. After [castlingGame] White castles short
    with [movePiece({7,4}, {7,6})]: the call returns true, king and rook are
    relocated, and [lastMove] is still Black's pawn move a5-a4: the castling
    branches return before the assignment to [this.lastMove]. *)
Theorem castling_leaves_lastMove :
  exists s1 s2,
    play 3 castlingGame (constructor classic) = Ret s1 /\
    movePiece 3 s1 (square 7 4) (square 7 6) = Ret (true, s2) /\
    pieceAt (board s2) 7 6 = Ret (Some (mkPiece KING WHITE true)) /\
    pieceAt (board s2) 7 5 = Ret (Some (mkPiece ROOK WHITE true)) /\
    lastMove s2
    = Some (mkLastMove (square 3 0) (square 4 0) (mkPiece PAWN BLACK true)) /\
    lastMove s2 = lastMove s1.
Proof.
  exists (afterPlay 3 classic castlingGame),
         (afterPlay 3 classic (castlingGame ++ [move 7 4 7 6])).
  do 5 (split; [vm_compute; reflexivity|]). vm_compute; reflexivity.
Qed.

(** ** Arrays *)

Lemma index_Ret {A} (l : list A) (i : Z) (x : A) :
  index l i = Ret x <-> 0 <= i /\ l !! Z.to_nat i = Some x.
Proof.
  unfold index. destruct (i <? 0) eqn:E.
  - apply Z.ltb_lt in E. split; [discriminate | lia].
  - apply Z.ltb_ge in E. destruct (l !! Z.to_nat i).
    + split; [intros H; inversion H; auto | intros [_ H]; inversion H; auto].
    + split; [discriminate | intros [_ H]; discriminate].
Qed.

Lemma index_in_range {A} (l : list A) (i : Z) :
  0 <= i < Z.of_nat (length l) -> exists x, index l i = Ret x.
Proof.
  intros H. destruct (lookup_lt_is_Some_2 l (Z.to_nat i)) as [x Hx]; [lia|].
  exists x. apply index_Ret. split; [lia | exact Hx].
Qed.

Lemma pieceAt_Ret b r c p :
  pieceAt b r c = Ret p <->
  exists l sq, 0 <= r /\ b !! Z.to_nat r = Some l /\
               0 <= c /\ l !! Z.to_nat c = Some sq /\ piece sq = p.
Proof.
  unfold pieceAt. split.
  - intros H. bind_inv H. bind_inv H. inversion H.
    apply index_Ret in Hm, Hm0. exists a, a0. tauto.
  - intros (l & sq & Hr & Hl & Hc & Hs & <-).
    assert (E1 : index b r = Ret l) by (apply index_Ret; auto).
    assert (E2 : index l c = Ret sq) by (apply index_Ret; auto).
    rewrite E1. simpl. rewrite E2. reflexivity.
Qed.

Lemma setPiece_Ret b r c p b' :
  setPiece b r c p = Ret b' <->
  exists l sq, 0 <= r /\ b !! Z.to_nat r = Some l /\
               0 <= c /\ l !! Z.to_nat c = Some sq /\
               b' = <[Z.to_nat r := <[Z.to_nat c := mkSquare p (position sq)]> l]> b.
Proof.
  unfold setPiece. split.
  - intros H. bind_inv H. bind_inv H. inversion H.
    apply index_Ret in Hm, Hm0. exists a, a0. tauto.
  - intros (l & sq & Hr & Hl & Hc & Hs & ->).
    assert (E1 : index b r = Ret l) by (apply index_Ret; auto).
    assert (E2 : index l c = Ret sq) by (apply index_Ret; auto).
    rewrite E1. simpl. rewrite E2. reflexivity.
Qed.

(** The square written to holds the new piece. *)
Lemma pieceAt_setPiece_eq b r c p b' :
  setPiece b r c p = Ret b' -> pieceAt b' r c = Ret p.
Proof.
  intros H. apply setPiece_Ret in H as (l & sq & Hr & Hl & Hc & Hs & ->).
  apply pieceAt_Ret. eexists _, _. split; [exact Hr|]. split.
  { apply list_lookup_insert_eq. eapply lookup_lt_Some; eauto. }
  split; [exact Hc|]. split.
  { apply list_lookup_insert_eq. eapply lookup_lt_Some; eauto. }
  reflexivity.
Qed.

(** Every other square reads as before. *)
Lemma pieceAt_setPiece_ne b r c p b' r' c' :
  setPiece b r c p = Ret b' -> (r', c') <> (r, c) ->
  pieceAt b' r' c' = pieceAt b r' c'.
Proof.
  intros H Hne. apply setPiece_Ret in H as (l & sq & Hr & Hl & Hc & Hs & ->).
  unfold pieceAt, index.
  destruct (r' <? 0) eqn:Er; [reflexivity|]. apply Z.ltb_ge in Er.
  destruct (decide (Z.to_nat r = Z.to_nat r')) as [E|E].
  - assert (r = r') by lia. subst r'. clear E.
    rewrite list_lookup_insert_eq by (eapply lookup_lt_Some; eauto).
    rewrite Hl. simpl.
    destruct (c' <? 0) eqn:Ec; [reflexivity|]. apply Z.ltb_ge in Ec.
    rewrite list_lookup_insert_ne; [reflexivity|].
    intros E. apply Hne. f_equal. lia.
  - rewrite list_lookup_insert_ne by exact E. reflexivity.
Qed.

(** ** Promotion *)

(** C8, as stated, fails: at the end of [promotionGame] a White pawn has
    just reached a8, [currentTurn] is Black, so the pawn is not of the
    current mover's colour; [promotePawn] promotes it all the same. *)
Lemma promotePawn_ignores_currentTurn :
  exists s s',
    play 3 promotionGame (constructor classic) = Ret s /\
    currentTurn s = BLACK /\
    pieceAt (board s) 0 0 = Ret (Some (mkPiece PAWN WHITE true)) /\
    promotePawn 3 s (square 0 0) QUEEN = Ret s' /\
    pieceAt (board s') 0 0 = Ret (Some (mkPiece QUEEN WHITE true)) /\
    getState s' <> getState s.
Proof.
  exists (afterPlay 3 classic promotionGame),
         (afterPlay 3 classic (promotionGame ++ [OpPromotePawn (square 0 0) (Some QUEEN)])).
  do 5 (split; [vm_compute; reflexivity|]). vm_compute. discriminate.
Qed.

(** C8, amended. Where [position] names a square of the board,
    [promotePawn(position, newType)] leaves the state as it is unless the
    square holds a pawn on the far rank of the pawn's own colour (White on
    row 0, Black on row 7), whoever's turn it is.  When it does, the call
    writes a piece of [newType] (Queen when the argument is left out) of the
    pawn's colour with [hasMoved = true] on that square and no other, then
    runs [checkForCheck], and [checkForCheckmate] if a check is flagged. *)
Theorem promotePawn_spec (fuel : nat) (s : ChessGameState) (pos : Position)
    (newType : PieceType) (p : option Piece) :
  pieceAt (board s) (row pos) (col pos) = Ret p ->
  (promotable p pos = false -> promotePawn fuel s pos newType = Ret s) /\
  (promotable p pos = true ->
   exists pc b,
     p = Some pc /\
     setPiece (board s) (row pos) (col pos) (Some (mkPiece newType (color pc) true))
     = Ret b /\
     pieceAt b (row pos) (col pos) = Ret (Some (mkPiece newType (color pc) true)) /\
     (forall r c, (r, c) <> (row pos, col pos) -> pieceAt b r c = pieceAt (board s) r c) /\
     promotePawn fuel s pos newType
     = (let* s1 := checkForCheck fuel (set_board s b) in
        if isSome (isInCheck s1) then checkForCheckmate fuel s1 else Ret s1)) /\
  run fuel (OpPromotePawn pos None) s = run fuel (OpPromotePawn pos (Some QUEEN)) s.
Proof.
  intros Hp. split; [|split; [|reflexivity]].
  - intros Hn. unfold promotePawn. rewrite Hp. simpl.
    destruct p as [pc|]; [|reflexivity]. simpl in Hn.
    destruct (type_eqb (type pc) PAWN); [|reflexivity]. simpl in *.
    rewrite Hn. reflexivity.
  - intros Hy. destruct p as [pc|]; [|discriminate]. simpl in Hy.
    apply andb_true_iff in Hy as [Ht Hl].
    assert (Hs : exists b, setPiece (board s) (row pos) (col pos)
                            (Some (mkPiece newType (color pc) true)) = Ret b).
    { apply pieceAt_Ret in Hp as (l & sq & ? & ? & ? & ? & ?).
      eexists. apply setPiece_Ret. eexists _, _. eauto 10. }
    destruct Hs as [b Hb]. exists pc, b.
    split; [reflexivity|]. split; [exact Hb|].
    split; [eapply pieceAt_setPiece_eq; exact Hb|].
    split; [intros r c Hne; eapply pieceAt_setPiece_ne; eauto|].
    unfold promotePawn. rewrite Hp. simpl. rewrite Ht, Hl. simpl.
    rewrite Hb. reflexivity.
Qed.

Lemma promotePawn_spec_witness :
  let s := afterPlay 3 classic promotionGame in
  pieceAt (board s) 0 0 = Ret (Some (mkPiece PAWN WHITE true)) /\
  promotable (Some (mkPiece PAWN WHITE true)) (square 0 0) = true /\
  exists b,
    pieceAt b 0 0 = Ret (Some (mkPiece KNIGHT WHITE true)) /\
    promotePawn 3 s (square 0 0) KNIGHT
    = (let* s1 := checkForCheck 3 (set_board s b) in
       if isSome (isInCheck s1) then checkForCheckmate 3 s1 else Ret s1).
Proof.
  intros s.
  assert (Hp : pieceAt (board s) (row (square 0 0)) (col (square 0 0))
               = Ret (Some (mkPiece PAWN WHITE true))) by (vm_compute; reflexivity).
  split; [exact Hp|]. split; [reflexivity|].
  destruct (promotePawn_spec 3 s (square 0 0) KNIGHT _ Hp) as (_ & H & _).
  destruct (H eq_refl) as (pc & b & Epc & _ & Hb & _ & Hrun).
  inversion Epc; subst pc. exists b. split; [exact Hb | exact Hrun].
Defined.

(** ** Calls on squares of the board raise no error of their own *)

Lemma post_bind {A B} (Q : A -> Prop) (R : B -> Prop) m (f : A -> outcome B) :
  post Q m -> (forall a, Q a -> post R (f a)) -> post R (bind m f).
Proof. destruct m; simpl; auto. Qed.

Lemma post_weaken {A} (Q R : A -> Prop) m :
  post Q m -> (forall a, Q a -> R a) -> post R m.
Proof. destruct m; simpl; auto. Qed.

Lemma post_Ret_inv {A} (Q : A -> Prop) m a : post Q m -> m = Ret a -> Q a.
Proof. intros H ->. exact H. Qed.

Lemma post_not_Throw {A} (Q : A -> Prop) m e :
  e <> RangeError -> post Q m -> m <> Throw e.
Proof. intros He H ->. destruct e; simpl in H; auto. Qed.

Lemma post_try_catch {A} (Q : A -> Prop) (m h : outcome A) :
  (forall a, m = Ret a -> Q a) -> post Q h -> post Q (try_catch m h).
Proof. destruct m; simpl; auto. Qed.

Lemma post_foldM {A B} (I : B -> Prop) (f : A -> B -> outcome B) l :
  (forall x b, In x l -> I b -> post I (f x b)) ->
  forall b, I b -> post I (foldM f l b).
Proof.
  induction l as [|x l IH]; simpl; intros Hf b Hb; [exact Hb|].
  eapply post_bind; [apply Hf; auto|].
  intros b' Hb'. apply IH; auto.
Qed.

Lemma post_existsM {A} (f : A -> outcome bool) l :
  (forall x, In x l -> noThrow (f x)) -> noThrow (existsM f l).
Proof.
  induction l as [|x l IH]; simpl; intros Hf; [exact I|].
  eapply post_bind; [apply Hf; auto|].
  intros [] _; [exact I|]. apply IH. auto.
Qed.

Lemma post_filterM {A} (Q : A -> Prop) (f : A -> outcome bool) l :
  (forall x, Q x -> noThrow (f x)) -> Forall Q l -> post (Forall Q) (filterM f l).
Proof.
  induction l as [|x l IH]; simpl; intros Hf Hl; [constructor|].
  inversion Hl; subst.
  eapply post_bind; [apply Hf; auto|]. intros b _.
  eapply post_bind; [apply IH; auto|]. intros r Hr.
  destruct b; simpl; auto.
Qed.

Lemma filterM_Ret {A} (f : A -> outcome bool) l : forall r,
  filterM f l = Ret r -> forall x, In x r -> In x l /\ f x = Ret true.
Proof.
  induction l as [|y l IH]; simpl; intros r H x Hx.
  - inversion H; subst. destruct Hx.
  - bind_inv H. bind_inv H. inversion H; subst; clear H.
    destruct a.
    + destruct Hx as [<- | Hx]; [auto|]. destruct (IH _ Hm0 _ Hx); auto.
    + destruct (IH _ Hm0 _ Hx); auto.
Qed.

Lemma existsM_false {A} (f : A -> outcome bool) l :
  existsM f l = Ret false -> forall x, In x l -> f x = Ret false.
Proof.
  induction l as [|y l IH]; simpl; intros H x Hx; [destruct Hx|].
  bind_inv H. destruct a; [discriminate|].
  destruct Hx as [<- | Hx]; auto.
Qed.

Lemma isValidPosition_iff r c :
  isValidPosition r c = true <-> 0 <= r < 8 /\ 0 <= c < 8.
Proof.
  unfold isValidPosition. rewrite !andb_true_iff, !Z.leb_le, !Z.ltb_lt. lia.
Qed.

Lemma wfBoard_row b r :
  wfBoard b -> 0 <= r < 8 -> exists l, b !! Z.to_nat r = Some l /\ length l = 8%nat.
Proof.
  intros [Hl Hr] H.
  destruct (lookup_lt_is_Some_2 b (Z.to_nat r)) as [l E]; [lia|].
  exists l. split; [exact E|].
  rewrite Forall_forall in Hr. apply Hr.
  eapply list_elem_of_lookup_2. exact E.
Qed.

Lemma pieceAt_total b r c :
  wfBoard b -> isValidPosition r c = true -> exists p, pieceAt b r c = Ret p.
Proof.
  intros Hb H. apply isValidPosition_iff in H as [Hr Hc].
  destruct (wfBoard_row b r Hb Hr) as (l & El & Ll).
  destruct (lookup_lt_is_Some_2 l (Z.to_nat c)) as [sq E]; [lia|].
  exists (piece sq). apply pieceAt_Ret. exists l, sq. repeat split; auto; lia.
Qed.

Lemma pieceAt_noThrow b r c :
  wfBoard b -> isValidPosition r c = true -> noThrow (pieceAt b r c).
Proof.
  intros Hb H. destruct (pieceAt_total b r c Hb H) as [p ->]. exact I.
Qed.

Lemma setPiece_wf b r c p b' :
  wfBoard b -> setPiece b r c p = Ret b' -> wfBoard b'.
Proof.
  intros [Hl Hr] H. apply setPiece_Ret in H as (l & sq & ? & El & ? & ? & ->).
  split; [rewrite length_insert; exact Hl|].
  apply Forall_insert; [exact Hr|].
  rewrite length_insert. rewrite Forall_forall in Hr. apply Hr.
  eapply list_elem_of_lookup_2. exact El.
Qed.

Lemma setPiece_post b r c p :
  wfBoard b -> isValidPosition r c = true -> post wfBoard (setPiece b r c p).
Proof.
  intros Hb H. apply isValidPosition_iff in H as [Hr Hc].
  destruct (wfBoard_row b r Hb Hr) as (l & El & Ll).
  destruct (lookup_lt_is_Some_2 l (Z.to_nat c)) as [sq E]; [lia|].
  assert (S : setPiece b r c p
              = Ret (<[Z.to_nat r := <[Z.to_nat c := mkSquare p (position sq)]> l]> b)).
  { apply setPiece_Ret. exists l, sq. repeat split; auto; lia. }
  rewrite S. simpl. eapply setPiece_wf; eauto.
Qed.

Lemma cloneBoard_id b : cloneBoard b = b.
Proof.
  unfold cloneBoard. rewrite <- (map_id b) at 2. apply map_ext. intros r.
  rewrite <- (map_id r) at 2. apply map_ext. intros [[[]|] ?]; reflexivity.
Qed.

Lemma createInitialBoard_wf : wfBoard createInitialBoard.
Proof. unfold wfBoard. vm_compute. split; [reflexivity | repeat constructor]. Qed.

Lemma allSquares_inRange : Forall inRange allSquares.
Proof. repeat constructor. Qed.

Lemma pushValid_ok r c acc :
  isValidPosition r c = true -> movesOK acc -> movesOK (pushValid (mkPosition r c) acc).
Proof.
  intros V H. unfold movesOK, pushValid. simpl.
  apply Forall_app. split; [exact H|]. repeat constructor. exact V.
Qed.

Lemma pushBlocked_ok p acc : movesOK acc -> movesOK (pushBlocked p acc).
Proof. intros H. exact H. Qed.

Lemma isEnPassantPossible_noThrow s from to :
  wfBoard (board s) -> inRange from -> noThrow (isEnPassantPossible s from to).
Proof.
  intros Hb Hf. unfold isEnPassantPossible.
  eapply post_bind; [apply pieceAt_noThrow; eassumption|].
  intros [pc|] _; [|exact I].
  destruct (negb (type_eqb _ _)); [exact I|].
  destruct (negb (_ =? _)); [exact I|].
  destruct (lastMove s); [|exact I].
  destruct (color_eqb _ _); exact I.
Qed.

Lemma pawnCapture_post s pos pc d b off acc :
  wfBoard (board s) -> wfBoard b -> inRange pos -> movesOK acc ->
  post movesOK (pawnCapture s pos pc d b off acc).
Proof.
  intros Hs Hb Hp Ha. unfold pawnCapture.
  destruct (isValidPosition _ _) eqn:V; [|exact Ha].
  eapply post_bind; [apply pieceAt_noThrow; eassumption|].
  intros [t|] _.
  - destruct (negb _); simpl; [apply pushValid_ok | apply pushBlocked_ok]; assumption.
  - eapply post_bind; [apply isEnPassantPossible_noThrow; assumption|].
    intros [] _; simpl; [apply pushValid_ok|]; assumption.
Qed.

Lemma calculatePawnMovesRaw_post s pos acc b :
  wfBoard (board s) -> wfBoard b -> inRange pos -> movesOK acc ->
  post movesOK (calculatePawnMovesRaw s pos acc b).
Proof.
  intros Hs Hb Hp Ha. unfold calculatePawnMovesRaw.
  eapply post_bind; [apply pieceAt_noThrow; eassumption|].
  intros [pc|] _; [|exact Ha].
  eapply post_bind with (Q := movesOK).
  - destruct (isValidPosition _ _) eqn:V; [|exact Ha].
    eapply post_bind; [apply pieceAt_noThrow; eassumption|].
    intros [t|] _; [exact Ha|].
    destruct (_ && _) eqn:V2.
    + apply andb_true_iff in V2 as [_ V2].
      eapply post_bind; [apply pieceAt_noThrow; eassumption|].
      intros [t|] _; simpl; repeat apply pushValid_ok; assumption.
    + simpl. apply pushValid_ok; assumption.
  - intros acc1 H1. apply post_foldM; [|exact H1].
    intros off a _ Ha'. apply pawnCapture_post; assumption.
Qed.

Lemma walkLine_post n pc b dr dc : forall r c acc,
  wfBoard b -> movesOK acc -> post movesOK (walkLine n pc b dr dc r c acc).
Proof.
  induction n as [|n IH]; intros r c acc Hb Ha; simpl;
    destruct (isValidPosition r c) eqn:V; try exact Ha; [exact I|].
  eapply post_bind; [apply pieceAt_noThrow; eassumption|].
  intros [t|] _.
  - destruct (negb _); simpl; [apply pushValid_ok | apply pushBlocked_ok]; assumption.
  - apply IH; [assumption|]. apply pushValid_ok; assumption.
Qed.

Lemma calculateLineMovementsRaw_post pos dirs acc b :
  wfBoard b -> inRange pos -> movesOK acc ->
  post movesOK (calculateLineMovementsRaw pos dirs acc b).
Proof.
  intros Hb Hp Ha. unfold calculateLineMovementsRaw.
  eapply post_bind; [apply pieceAt_noThrow; eassumption|].
  intros [pc|] _; [|exact Ha].
  apply post_foldM; [|exact Ha].
  intros d a _ Ha'. apply walkLine_post; assumption.
Qed.

Lemma stepMove_post pos pc b m acc :
  wfBoard b -> movesOK acc -> post movesOK (stepMove pos pc b m acc).
Proof.
  intros Hb Ha. unfold stepMove.
  destruct (isValidPosition _ _) eqn:V; [|exact Ha].
  eapply post_bind; [apply pieceAt_noThrow; eassumption|].
  intros [t|] _; simpl; [|apply pushValid_ok; assumption].
  destruct (negb _); simpl; [apply pushValid_ok | apply pushBlocked_ok]; assumption.
Qed.

Lemma calculateKnightMovesRaw_post pos acc b :
  wfBoard b -> inRange pos -> movesOK acc ->
  post movesOK (calculateKnightMovesRaw pos acc b).
Proof.
  intros Hb Hp Ha. unfold calculateKnightMovesRaw.
  eapply post_bind; [apply pieceAt_noThrow; eassumption|].
  intros [pc|] _; [|exact Ha].
  apply post_foldM; [|exact Ha].
  intros d a _ Ha'. apply stepMove_post; assumption.
Qed.

Lemma calculateKingMovesRaw_post castle pos acc b :
  castleNoThrow castle -> wfBoard b -> inRange pos -> movesOK acc ->
  post movesOK (calculateKingMovesRaw castle pos acc b).
Proof.
  intros Hc Hb Hp Ha. unfold calculateKingMovesRaw.
  eapply post_bind; [apply pieceAt_noThrow; eassumption|].
  intros [pc|] _; [|exact Ha].
  eapply post_bind with (Q := movesOK).
  { apply post_foldM; [|exact Ha]. intros d a _ Ha'. apply stepMove_post; assumption. }
  intros acc1 H1. destruct (_ && _); [|exact H1].
  assert (R : forall c, 0 <= c < 8 ->
              isValidPosition (if color_eqb (color pc) WHITE then 7 else 0) c = true).
  { intros c Hc'. apply isValidPosition_iff. destruct (color_eqb _ _); lia. }
  eapply post_bind; [apply Hc; unfold inRange; simpl; apply R; lia|]. intros k _.
  eapply post_bind; [apply Hc; unfold inRange; simpl; apply R; lia|]. intros q _.
  simpl. destruct k, q; repeat apply pushValid_ok; try assumption; apply R; lia.
Qed.

Lemma calculateRawMovesByPieceTypeWith_post castle s pos ty b :
  castleNoThrow castle -> wfBoard (board s) -> wfBoard b -> inRange pos ->
  post (Forall inRange) (calculateRawMovesByPieceTypeWith castle s pos ty b).
Proof.
  intros Hc Hs Hb Hp. unfold calculateRawMovesByPieceTypeWith.
  assert (H0 : movesOK ([], [])) by constructor.
  eapply post_bind with (Q := movesOK); [|intros acc Ha; exact Ha].
  destruct ty.
  - apply calculatePawnMovesRaw_post; assumption.
  - apply calculateLineMovementsRaw_post; assumption.
  - apply calculateKnightMovesRaw_post; assumption.
  - apply calculateLineMovementsRaw_post; assumption.
  - unfold calculateQueenMovesRaw.
    eapply post_bind; [apply calculateLineMovementsRaw_post; eassumption|].
    intros acc1 H1. apply calculateLineMovementsRaw_post; assumption.
  - apply calculateKingMovesRaw_post; assumption.
Qed.

Lemma attacksFrom_noThrow castle s target byColor b sq :
  castleNoThrow castle -> wfBoard (board s) -> wfBoard b -> inRange sq ->
  noThrow (attacksFrom castle s target byColor b sq).
Proof.
  intros Hc Hs Hb Hq. unfold attacksFrom.
  eapply post_bind; [apply pieceAt_noThrow; eassumption|].
  intros [pc|] _; [|exact I].
  destruct (color_eqb _ _); [|exact I].
  eapply post_bind; [apply calculateRawMovesByPieceTypeWith_post; eassumption|].
  intros ms _. exact I.
Qed.

Lemma isSquareUnderAttackWith_noThrow castle s target byColor b :
  castleNoThrow castle -> wfBoard (board s) -> wfBoard b ->
  noThrow (isSquareUnderAttackWith castle s target byColor b).
Proof.
  intros Hc Hs Hb. unfold isSquareUnderAttackWith.
  apply post_existsM. intros sq Hin.
  apply attacksFrom_noThrow; try assumption.
  pose proof allSquares_inRange as A. rewrite Forall_forall in A.
  apply A. apply list_elem_of_In. exact Hin.
Qed.

Lemma isCastlingPossibleBody_noThrow castle s kingPos rookPos :
  castleNoThrow castle -> wfBoard (board s) -> inRange kingPos -> inRange rookPos ->
  noThrow (isCastlingPossibleBody castle s kingPos rookPos).
Proof.
  intros Hc Hs Hk Hr. unfold isCastlingPossibleBody.
  eapply post_bind; [apply pieceAt_noThrow; eassumption|]. intros king _.
  eapply post_bind; [apply pieceAt_noThrow; eassumption|]. intros rook _.
  destruct king as [k|]; [|exact I]. destruct rook as [r|]; [|exact I].
  destruct (_ || _); [exact I|].
  destruct (flaggedInCheck _ _); [exact I|].
  eapply post_bind with (Q := fun _ => True).
  { apply post_existsM. intros c Hin.
    apply list_elem_of_In, elem_of_seqZ in Hin.
    eapply post_bind; [|intros; exact I].
    apply pieceAt_noThrow; [assumption|].
    apply isValidPosition_iff in Hk, Hr. apply isValidPosition_iff. lia. }
  intros [] _; [exact I|].
  destruct (col rookPos =? 7).
  { eapply post_bind; [|intros; exact I]. apply post_existsM. intros c _.
    apply isSquareUnderAttackWith_noThrow; assumption. }
  destruct (col rookPos =? 0); [|exact I].
  eapply post_bind; [|intros; exact I]. apply post_existsM. intros c _.
  apply isSquareUnderAttackWith_noThrow; assumption.
Qed.

Lemma isCastlingPossible_noThrow fuel s :
  wfBoard (board s) -> castleNoThrow (isCastlingPossible fuel s).
Proof.
  intros Hs. induction fuel as [|n IH]; intros k r Hk Hr; simpl; [exact I|].
  apply isCastlingPossibleBody_noThrow; assumption.
Qed.

Lemma simulateMove_post s pos mv :
  wfBoard (board s) -> inRange pos -> inRange mv -> post wfBoard (simulateMove s pos mv).
Proof.
  intros Hs Hp Hm. unfold simulateMove. rewrite cloneBoard_id.
  eapply post_bind; [apply pieceAt_noThrow; eassumption|]. intros p _.
  eapply post_bind; [apply setPiece_post; eassumption|]. intros t1 H1.
  apply setPiece_post; assumption.
Qed.

Lemma keepsKingSafe_noThrow fuel s pos pc mv :
  wfBoard (board s) -> inRange pos -> inRange mv ->
  noThrow (keepsKingSafe fuel s pos pc mv).
Proof.
  intros Hs Hp Hm. unfold keepsKingSafe.
  eapply post_bind; [apply simulateMove_post; eassumption|]. intros tb _.
  apply post_try_catch; [intros; exact I | exact I].
Qed.

Lemma calculateRawMovesByPieceType_post fuel s pos ty b :
  wfBoard (board s) -> wfBoard b -> inRange pos ->
  post (Forall inRange) (calculateRawMovesByPieceType fuel s pos ty b).
Proof.
  intros Hs Hb Hp. apply calculateRawMovesByPieceTypeWith_post; try assumption.
  apply isCastlingPossible_noThrow. assumption.
Qed.

Lemma getValidMovesForPiece_post fuel s pos :
  wfBoard (board s) -> inRange pos ->
  post (Forall inRange) (getValidMovesForPiece fuel s pos).
Proof.
  intros Hs Hp. unfold getValidMovesForPiece.
  eapply post_bind; [apply pieceAt_noThrow; eassumption|].
  intros [pc|] _; [|constructor].
  eapply post_bind; [apply calculateRawMovesByPieceType_post; eassumption|].
  intros raw Hraw. apply post_filterM; [|exact Hraw].
  intros mv Hmv. apply keepsKingSafe_noThrow; assumption.
Qed.

Lemma getCastlingPartners_noThrow fuel s pos :
  wfBoard (board s) -> inRange pos -> noThrow (getCastlingPartners fuel s pos).
Proof.
  intros Hs Hp. unfold getCastlingPartners.
  eapply post_bind; [apply pieceAt_noThrow; eassumption|].
  intros [pc|] _; [|exact I].
  destruct (hasMoved pc); [exact I|].
  assert (R : forall c, 0 <= c < 8 ->
              inRange (mkPosition (if color_eqb (color pc) WHITE then 7 else 0) c)).
  { intros c Hc'. apply isValidPosition_iff. simpl. destruct (color_eqb _ _); lia. }
  destruct (_ && _).
  { eapply post_bind; [apply isCastlingPossible_noThrow; try apply R; try assumption; lia|].
    intros k _.
    eapply post_bind; [apply isCastlingPossible_noThrow; try apply R; try assumption; lia|].
    intros q _. exact I. }
  destruct (_ && _); [|exact I].
  eapply post_bind; [apply isCastlingPossible_noThrow; try apply R; try assumption; lia|].
  intros k _. exact I.
Qed.

Lemma checkColor_post fuel c s :
  post (fun s' => board s' = board s) (checkColor fuel c s).
Proof.
  unfold checkColor. apply post_try_catch; [|reflexivity].
  intros s' H. bind_inv H. bind_inv H. inversion H. destruct a0; reflexivity.
Qed.

Lemma checkForCheck_post fuel s :
  post (fun s' => board s' = board s) (checkForCheck fuel s).
Proof.
  unfold checkForCheck. apply post_foldM; [|reflexivity].
  intros c s1 _ H1. eapply post_weaken; [apply checkColor_post|].
  intros s2 H2. simpl in H2. congruence.
Qed.

Lemma canMoveFrom_noThrow fuel s c sq :
  wfBoard (board s) -> inRange sq -> noThrow (canMoveFrom fuel s c sq).
Proof.
  intros Hs Hq. unfold canMoveFrom.
  eapply post_bind; [apply pieceAt_noThrow; eassumption|].
  intros [pc|] _; [|exact I].
  destruct (color_eqb _ _); [|exact I].
  eapply post_bind; [apply getValidMovesForPiece_post; eassumption|].
  intros ms _. exact I.
Qed.

Lemma checkForCheckmate_post fuel s :
  wfBoard (board s) -> post (fun s' => board s' = board s) (checkForCheckmate fuel s).
Proof.
  intros Hs. unfold checkForCheckmate. destruct (isInCheck s) as [c|]; [|reflexivity].
  eapply post_bind with (Q := fun _ => True); [|intros; reflexivity].
  apply post_existsM. intros sq Hin. apply canMoveFrom_noThrow; [assumption|].
  pose proof allSquares_inRange as A. rewrite Forall_forall in A.
  apply A. apply list_elem_of_In. exact Hin.
Qed.

Lemma board_advanceTurn s : board (advanceTurn s) = board s.
Proof.
  unfold advanceTurn. destruct (gameType s); simpl; try reflexivity.
  - destruct (negb _); reflexivity.
  - destruct (_ && _); reflexivity.
Qed.

Lemma handlePostMove_post fuel s :
  wfBoard (board s) -> post (fun s' => board s' = board s) (handlePostMove fuel s).
Proof.
  intros Hs. unfold handlePostMove.
  eapply post_bind; [apply checkForCheck_post|].
  intros s1 H1. cbv beta in H1. rewrite board_advanceTurn in H1.
  destruct (isSome (isInCheck s1)); [|exact H1].
  eapply post_bind; [apply checkForCheckmate_post; rewrite H1; exact Hs|].
  intros s2 H2. simpl in H2.
  destruct (isSome _); simpl; congruence.
Qed.

Lemma selectPiece_post fuel s pos :
  wfBoard (board s) -> inRange pos ->
  post (fun s' => board s' = board s) (selectPiece fuel s pos).
Proof.
  intros Hs Hp. unfold selectPiece.
  eapply post_bind; [apply pieceAt_noThrow; eassumption|].
  intros [pc|] _; [|reflexivity].
  destruct (negb _); [reflexivity|].
  eapply post_bind; [apply getValidMovesForPiece_post; assumption|]. intros legal _.
  eapply post_bind; [apply calculateRawMovesByPieceType_post; assumption|]. intros raw _.
  eapply post_bind; [apply getCastlingPartners_noThrow; assumption|]. intros cp _.
  reflexivity.
Qed.

Lemma castle_post s pc r k t f :
  wfBoard (board s) ->
  isValidPosition r k = true -> isValidPosition r t = true ->
  isValidPosition r 4 = true -> isValidPosition r f = true ->
  post (fun s1 => wfBoard (board s1)) (castle s pc r k t f).
Proof.
  intros Hs V1 V2 V3 V4. unfold castle.
  eapply post_bind; [apply setPiece_post; eassumption|]. intros b1 H1.
  eapply post_bind; [apply setPiece_post; eassumption|]. intros b2 H2.
  eapply post_bind; [apply setPiece_post; eassumption|]. intros b3 H3.
  eapply post_bind; [apply setPiece_post; eassumption|]. intros b4 H4.
  exact H4.
Qed.

Lemma existsb_samePosition_inRange (l : list Position) (to : Position) :
  Forall inRange l -> existsb (fun mv => samePosition mv to) l = true -> inRange to.
Proof.
  intros Hl H. apply existsb_exists in H as (mv & Hin & E).
  rewrite Forall_forall in Hl. apply list_elem_of_In, Hl in Hin.
  unfold samePosition in E. apply andb_true_iff in E as [E1 E2].
  apply Z.eqb_eq in E1, E2. unfold inRange in *. rewrite <- E1, <- E2. exact Hin.
Qed.

Lemma handlePostMove_wf fuel s :
  wfBoard (board s) -> post (fun s' => wfBoard (board s')) (handlePostMove fuel s).
Proof.
  intros Hs. eapply post_weaken; [apply handlePostMove_post; exact Hs|].
  intros s' E. simpl in E. rewrite E. exact Hs.
Qed.

Lemma ordinaryMove_post fuel s pc from to :
  wfBoard (board s) -> inRange from ->
  post (fun r => wfBoard (board r.2)) (ordinaryMove fuel s pc from to).
Proof.
  intros Hs Hf. unfold ordinaryMove.
  eapply post_bind; [apply getValidMovesForPiece_post; eassumption|].
  intros valid Hv. destruct (existsb _ valid) eqn:E; simpl; [|exact Hs].
  pose proof (existsb_samePosition_inRange _ _ Hv E) as Ht.
  assert (Hft : isValidPosition (row from) (col to) = true).
  { apply isValidPosition_iff in Hf, Ht. apply isValidPosition_iff. lia. }
  eapply post_bind with (Q := fun _ => True).
  { destruct (type_eqb _ _); [|exact I].
    apply isEnPassantPossible_noThrow; assumption. }
  intros ep _.
  eapply post_bind with (Q := wfBoard).
  { destruct ep; [|exact Hs]. apply setPiece_post; assumption. }
  intros b1 H1.
  eapply post_bind; [apply setPiece_post; eassumption|]. intros b2 H2.
  eapply post_bind; [apply setPiece_post; eassumption|]. intros b3 H3.
  eapply post_bind; [apply handlePostMove_wf; exact H3|]. intros s' H'. exact H'.
Qed.

Lemma movePiece_post fuel s from to :
  wfBoard (board s) -> inRange from ->
  post (fun r => wfBoard (board r.2)) (movePiece fuel s from to).
Proof.
  intros Hs Hf. unfold movePiece.
  destruct (_ && _); [exact Hs|].
  destruct (_ && _); [exact Hs|].
  destruct (_ && _); [exact Hs|].
  eapply post_bind; [apply pieceAt_noThrow; eassumption|].
  intros [pc|] _; [|exact Hs].
  assert (R : forall c, 0 <= c < 8 ->
              isValidPosition (if color_eqb (color pc) WHITE then 7 else 0) c = true).
  { intros c Hc'. apply isValidPosition_iff. destruct (color_eqb _ _); lia. }
  destruct (_ && _).
  { eapply post_bind;
      [apply isCastlingPossible_noThrow; try assumption;
       unfold inRange; simpl; apply R; lia|].
    intros [] _; simpl; [|exact Hs].
    eapply post_bind; [apply castle_post; try assumption; apply R; lia|].
    intros s1 H1.
    eapply post_bind; [apply handlePostMove_wf; exact H1|]. intros s2 H2. exact H2. }
  destruct (_ && _).
  { eapply post_bind;
      [apply isCastlingPossible_noThrow; try assumption;
       unfold inRange; simpl; apply R; lia|].
    intros [] _; simpl; [|exact Hs].
    eapply post_bind; [apply castle_post; try assumption; apply R; lia|].
    intros s1 H1.
    eapply post_bind; [apply handlePostMove_wf; exact H1|]. intros s2 H2. exact H2. }
  apply ordinaryMove_post; assumption.
Qed.

Lemma promotePawn_post fuel s pos ty :
  wfBoard (board s) -> inRange pos ->
  post (fun s' => wfBoard (board s')) (promotePawn fuel s pos ty).
Proof.
  intros Hs Hp. unfold promotePawn.
  eapply post_bind; [apply pieceAt_noThrow; eassumption|].
  intros [pc|] _; [|exact Hs].
  destruct (negb (type_eqb _ _)); [exact Hs|].
  destruct (negb _); [exact Hs|].
  eapply post_bind; [apply setPiece_post; eassumption|]. intros b Hb.
  eapply post_bind; [apply checkForCheck_post|]. intros s1 H1. simpl in H1.
  assert (W1 : wfBoard (board s1)) by (rewrite H1; exact Hb).
  destruct (isSome _); [|exact W1].
  eapply post_weaken; [apply checkForCheckmate_post; exact W1|].
  intros s2 H2. simpl in H2. rewrite H2. exact W1.
Qed.

Lemma run_post fuel op s :
  wfBoard (board s) -> opInRange op ->
  post (fun r => wfBoard (board r.2)) (run fuel op s).
Proof.
  intros Hs Hop. destruct op; simpl in *.
  - exact Hs.
  - eapply post_bind; [apply selectPiece_post; eassumption|].
    intros s' E. simpl in *. rewrite E. exact Hs.
  - exact Hs.
  - eapply post_bind; [apply movePiece_post; eassumption|]. intros r H. exact H.
  - unfold rollDice. destruct (_ || _); exact Hs.
  - unfold tossCoin. destruct (_ || _); exact Hs.
  - eapply post_bind; [apply promotePawn_post; eassumption|]. intros s' H. exact H.
  - apply createInitialBoard_wf.
Qed.

Lemma pieceAt_out_of_range b r c :
  wfBoard b -> isValidPosition r c = false -> pieceAt b r c = Throw TypeError.
Proof.
  intros Hb V. unfold pieceAt, index.
  destruct (r <? 0) eqn:Er; [reflexivity|]. apply Z.ltb_ge in Er.
  destruct (decide (r < 8)) as [Hr|Hr].
  - destruct (wfBoard_row b r Hb (conj Er Hr)) as (l & -> & Ll). simpl.
    destruct (c <? 0) eqn:Ec; [reflexivity|]. apply Z.ltb_ge in Ec.
    rewrite lookup_ge_None_2; [reflexivity|].
    destruct (decide (c < 8)) as [Hc|Hc]; [|lia].
    exfalso. assert (isValidPosition r c = true) by (apply isValidPosition_iff; lia).
    congruence.
  - destruct Hb as [Hl _]. rewrite lookup_ge_None_2 by lia. reflexivity.
Qed.

Lemma run_wf fuel op s r s' :
  wfBoard (board s) -> run fuel op s = Ret (r, s') -> wfBoard (board s').
Proof.
  intros Hs H.
  assert (K : opInRange op -> wfBoard (board s')).
  { intros Hop. pose proof (run_post fuel op s Hs Hop) as P.
    rewrite H in P. exact P. }
  destruct op; try (apply K; exact I); simpl in H.
  - bind_inv H. inversion H; subst.
    apply selectPiece_frame in Hm as (p & v & b & ->). exact Hs.
  - destruct (isValidPosition (row from) (col from)) eqn:V; [apply K; exact V|].
    bind_inv H. destruct a as [ok s1]. inversion H; subst. simpl.
    unfold movePiece in Hm.
    rewrite (pieceAt_out_of_range _ _ _ Hs V) in Hm. simpl in Hm.
    repeat (destruct (_ && _) in Hm; [inversion Hm; subst; exact Hs|]).
    discriminate.
  - destruct (isValidPosition (row pos) (col pos)) eqn:V; [apply K; exact V|].
    bind_inv H. unfold promotePawn in Hm.
    rewrite (pieceAt_out_of_range _ _ _ Hs V) in Hm. discriminate.
Qed.

Lemma rewritten_wf b b' : rewritten b b' -> wfBoard b -> wfBoard b'.
Proof. induction 1; intros Hb; [exact Hb|]. eauto using setPiece_wf. Qed.

(** What a call that throws leaves of the board: the writes made so far. *)
Lemma halfDone_rewritten op s s' : halfDone op s s' -> rewritten (board s) (board s').
Proof.
  destruct op; simpl; try contradiction.
  - intros [-> | ->]; constructor.
  - intros (_ & b & lm & R & [-> | [c ->]]); [exact R|].
    unfold set_isInCheck. cbn [board]. rewrite board_advanceTurn. exact R.
  - intros [-> | (b & c & R & ->)]; [constructor | exact R].
Qed.

Lemma leaves_wf fuel op s : wfBoard (board s) -> wfBoard (board (leaves fuel op s)).
Proof.
  intros Hs. destruct (leaves_cases fuel op s) as [[r H] | (e & _ & H)].
  - exact (run_wf _ _ _ _ _ Hs H).
  - exact (rewritten_wf _ _ (halfDone_rewritten _ _ _ H) Hs).
Qed.

Lemma reachable_wf g s : reachable g s -> wfBoard (board s).
Proof.
  induction 1 as [|fuel op s _ _ IH].
  - apply createInitialBoard_wf.
  - apply leaves_wf. exact IH.
Qed.

(** ** The depth of the stack does not matter *)

(** Inside the recursion of the castling test nothing is caught, so a
    deeper stack can only turn an overflow into an answer. *)

Lemma refines_refl {A} (a : outcome A) : refines a a.
Proof. right. reflexivity. Qed.

Lemma refines_trans {A} (a b c : outcome A) : refines a b -> refines b c -> refines a c.
Proof. intros [-> | ->] H; [left; reflexivity | exact H]. Qed.

Lemma refines_Ret {A} (a b : outcome A) x : refines a b -> a = Ret x -> b = Ret x.
Proof. intros [-> | ->] H; [discriminate | exact H]. Qed.

Lemma refines_antisym {A} (a b : outcome A) : refines a b -> refines b a -> a = b.
Proof. intros [-> | ->] [-> | E]; congruence. Qed.

Lemma refines_bind {A B} (m1 m2 : outcome A) (f1 f2 : A -> outcome B) :
  refines m1 m2 -> (forall a, refines (f1 a) (f2 a)) ->
  refines (bind m1 f1) (bind m2 f2).
Proof.
  intros [-> | ->] H; [left; reflexivity|].
  destruct m2; simpl; [apply H | apply refines_refl].
Qed.

Lemma refines_existsM {A} (f1 f2 : A -> outcome bool) l :
  (forall x, refines (f1 x) (f2 x)) -> refines (existsM f1 l) (existsM f2 l).
Proof.
  intros H. induction l as [|x l IH]; simpl; [apply refines_refl|].
  apply refines_bind; [apply H|]. intros []; [apply refines_refl | exact IH].
Qed.

Lemma refines_foldM {A B} (f1 f2 : A -> B -> outcome B) l :
  (forall x b, refines (f1 x b) (f2 x b)) ->
  forall b, refines (foldM f1 l b) (foldM f2 l b).
Proof.
  intros H. induction l as [|x l IH]; simpl; intros b; [apply refines_refl|].
  apply refines_bind; [apply H | apply IH].
Qed.

Create HintDb mono.

(** Descends through the structure the two sides share; the calls that
    differ are closed by the lemmas of the [mono] database. *)
Ltac mono :=
  repeat
    match goal with
    | |- refines ?a ?b => constr_eq a b; apply refines_refl
    | |- refines (bind _ _) (bind _ _) => apply refines_bind; [|intros ?]
    | |- refines (existsM _ _) (existsM _ _) => apply refines_existsM; intros ?
    | |- refines (foldM _ _ _) (foldM _ _ _) => apply refines_foldM; intros ? ?
    | |- refines (match ?x with _ => _ end) _ => destruct x
    | |- refines _ _ => solve [auto with mono nocore]
    end.

Section CastlingMono.
Variables castle1 castle2 : Position -> Position -> outcome bool.
Variable this : ChessGameState.
Hypothesis castle_refines : onNested (fun k r => refines (castle1 k r) (castle2 k r)).

Lemma kingSide_refines pc :
  refines (castle1 (mkPosition (if color_eqb (color pc) WHITE then 7 else 0) 4)
                   (mkPosition (if color_eqb (color pc) WHITE then 7 else 0) 7))
          (castle2 (mkPosition (if color_eqb (color pc) WHITE then 7 else 0) 4)
                   (mkPosition (if color_eqb (color pc) WHITE then 7 else 0) 7)).
Proof. apply (castle_refines (color pc) 7). left. reflexivity. Qed.

Lemma queenSide_refines pc :
  refines (castle1 (mkPosition (if color_eqb (color pc) WHITE then 7 else 0) 4)
                   (mkPosition (if color_eqb (color pc) WHITE then 7 else 0) 0))
          (castle2 (mkPosition (if color_eqb (color pc) WHITE then 7 else 0) 4)
                   (mkPosition (if color_eqb (color pc) WHITE then 7 else 0) 0)).
Proof. apply (castle_refines (color pc) 0). right. reflexivity. Qed.
Hint Resolve kingSide_refines queenSide_refines : mono.

Lemma calculateKingMovesRaw_mono pos acc b :
  refines (calculateKingMovesRaw castle1 pos acc b)
          (calculateKingMovesRaw castle2 pos acc b).
Proof. unfold calculateKingMovesRaw. mono. Qed.
Hint Resolve calculateKingMovesRaw_mono : mono.

Lemma calculateRawMovesByPieceTypeWith_mono pos ty b :
  refines (calculateRawMovesByPieceTypeWith castle1 this pos ty b)
          (calculateRawMovesByPieceTypeWith castle2 this pos ty b).
Proof. unfold calculateRawMovesByPieceTypeWith. mono. Qed.
Hint Resolve calculateRawMovesByPieceTypeWith_mono : mono.

Lemma attacksFrom_mono target byColor b sq :
  refines (attacksFrom castle1 this target byColor b sq)
          (attacksFrom castle2 this target byColor b sq).
Proof. unfold attacksFrom. mono. Qed.
Hint Resolve attacksFrom_mono : mono.

Lemma isSquareUnderAttackWith_mono target byColor b :
  refines (isSquareUnderAttackWith castle1 this target byColor b)
          (isSquareUnderAttackWith castle2 this target byColor b).
Proof. unfold isSquareUnderAttackWith. mono. Qed.
Hint Resolve isSquareUnderAttackWith_mono : mono.

Lemma isCastlingPossibleBody_mono kingPos rookPos :
  refines (isCastlingPossibleBody castle1 this kingPos rookPos)
          (isCastlingPossibleBody castle2 this kingPos rookPos).
Proof. unfold isCastlingPossibleBody. mono. Qed.
End CastlingMono.

Lemma isCastlingPossible_step n s : forall k r,
  refines (isCastlingPossible n s k r) (isCastlingPossible (S n) s k r).
Proof.
  induction n as [|n IH]; intros k r; [left; reflexivity|].
  change (refines (isCastlingPossibleBody (isCastlingPossible n s) s k r)
                  (isCastlingPossibleBody (isCastlingPossible (S n) s) s k r)).
  apply isCastlingPossibleBody_mono. intros c rc _. apply IH.
Qed.

Lemma isCastlingPossible_mono n m s k r :
  (n <= m)%nat -> refines (isCastlingPossible n s k r) (isCastlingPossible m s k r).
Proof.
  induction 1 as [|m _ IH]; [apply refines_refl|].
  eapply refines_trans; [exact IH | apply isCastlingPossible_step].
Qed.

Lemma isSquareUnderAttack_mono n m s target byColor b :
  (n <= m)%nat ->
  refines (isSquareUnderAttack n s target byColor b)
          (isSquareUnderAttack m s target byColor b).
Proof.
  intros H. apply isSquareUnderAttackWith_mono.
  intros c rc _. apply isCastlingPossible_mono. exact H.
Qed.

(** An answer of the attack test obtained on some stack is its answer on
    any deeper one. *)
Lemma isSquareUnderAttack_more_fuel n m s target byColor b x :
  (n <= m)%nat ->
  isSquareUnderAttack n s target byColor b = Ret x ->
  isSquareUnderAttack m s target byColor b = Ret x.
Proof. intros H. apply refines_Ret. apply isSquareUnderAttack_mono. exact H. Qed.

(** The methods of the recursion ask the nested test about the four pairs
    of [onNested] only. *)
Section CastlingAgree.
Variables castle1 castle2 : Position -> Position -> outcome bool.
Variable this : ChessGameState.
Hypothesis castle_agree : onNested (fun k r => castle1 k r = castle2 k r).

Lemma calculateRawMovesByPieceTypeWith_agree pos ty b :
  calculateRawMovesByPieceTypeWith castle1 this pos ty b
  = calculateRawMovesByPieceTypeWith castle2 this pos ty b.
Proof.
  apply refines_antisym; apply calculateRawMovesByPieceTypeWith_mono;
    intros c rc Hrc; right; [|symmetry]; apply castle_agree; exact Hrc.
Qed.

Lemma isSquareUnderAttackWith_agree target byColor b :
  isSquareUnderAttackWith castle1 this target byColor b
  = isSquareUnderAttackWith castle2 this target byColor b.
Proof.
  apply refines_antisym; apply isSquareUnderAttackWith_mono;
    intros c rc Hrc; right; [|symmetry]; apply castle_agree; exact Hrc.
Qed.

Lemma isCastlingPossibleBody_agree kingPos rookPos :
  isCastlingPossibleBody castle1 this kingPos rookPos
  = isCastlingPossibleBody castle2 this kingPos rookPos.
Proof.
  apply refines_antisym; apply isCastlingPossibleBody_mono;
    intros c rc Hrc; right; [|symmetry]; apply castle_agree; exact Hrc.
Qed.
End CastlingAgree.

(** Four tests can be asked; a stack one frame deeper either answers one
    more of them or changes nothing, from then on. *)

Lemma onNested_four (P : Position -> Position -> Prop) :
  onNested P <->
  P (mkPosition 7 4) (mkPosition 7 7) /\ P (mkPosition 7 4) (mkPosition 7 0) /\
  P (mkPosition 0 4) (mkPosition 0 7) /\ P (mkPosition 0 4) (mkPosition 0 0).
Proof.
  split.
  - intros H. repeat split;
      [apply (H WHITE 7) | apply (H WHITE 0) | apply (H BLACK 7) | apply (H BLACK 0)];
      auto.
  - intros (H1 & H2 & H3 & H4) [] rc [-> | ->]; assumption.
Qed.

Lemma answered_grows {A} (a b : outcome A) :
  refines a b -> a = b \/ (answered a = 0 /\ answered b = 1)%nat.
Proof.
  intros [-> | ->]; [|left; reflexivity].
  destruct b as [x|[]]; simpl; auto.
Qed.

Lemma answered_bound {A} (a : outcome A) : (answered a <= 1)%nat.
Proof. destruct a as [x|[]]; simpl; lia. Qed.

Lemma answers_bound castle : (answers castle <= 4)%nat.
Proof.
  unfold answers.
  pose proof (answered_bound (castle (mkPosition 7 4) (mkPosition 7 7))).
  pose proof (answered_bound (castle (mkPosition 7 4) (mkPosition 7 0))).
  pose proof (answered_bound (castle (mkPosition 0 4) (mkPosition 0 7))).
  pose proof (answered_bound (castle (mkPosition 0 4) (mkPosition 0 0))).
  lia.
Qed.

Lemma answers_grow castle1 castle2 :
  onNested (fun k r => refines (castle1 k r) (castle2 k r)) ->
  onNested (fun k r => castle1 k r = castle2 k r) \/
  (answers castle1 < answers castle2)%nat.
Proof.
  intros H. apply onNested_four in H as (H1 & H2 & H3 & H4).
  apply answered_grows in H1, H2, H3, H4.
  pose proof (answered_bound (castle1 (mkPosition 7 4) (mkPosition 7 7))).
  pose proof (answered_bound (castle1 (mkPosition 7 4) (mkPosition 7 0))).
  pose proof (answered_bound (castle1 (mkPosition 0 4) (mkPosition 0 7))).
  pose proof (answered_bound (castle1 (mkPosition 0 4) (mkPosition 0 0))).
  unfold answers.
  destruct H1 as [E1|L1].
  2:{ right. destruct H2 as [->|?], H3 as [->|?], H4 as [->|?]; lia. }
  destruct H2 as [E2|L2].
  2:{ right. rewrite E1. destruct H3 as [->|?], H4 as [->|?]; lia. }
  destruct H3 as [E3|L3].
  2:{ right. rewrite E1, E2. destruct H4 as [->|?]; lia. }
  destruct H4 as [E4|L4].
  2:{ right. rewrite E1, E2, E3. lia. }
  left. apply onNested_four. auto.
Qed.

Section Settling.
Variable s : ChessGameState.

Lemma agree_next n :
  onNested (fun k r => isCastlingPossible n s k r = isCastlingPossible (S n) s k r) ->
  forall k r, isCastlingPossible (S n) s k r = isCastlingPossible (S (S n)) s k r.
Proof.
  intros H k r.
  change (isCastlingPossibleBody (isCastlingPossible n s) s k r
          = isCastlingPossibleBody (isCastlingPossible (S n) s) s k r).
  apply isCastlingPossibleBody_agree. exact H.
Qed.

Lemma settling n :
  onNested (fun k r => isCastlingPossible n s k r = isCastlingPossible (S n) s k r) \/
  (n < answers (isCastlingPossible (S n) s))%nat.
Proof.
  induction n as [|n [E|L]].
  - destruct (answers_grow (isCastlingPossible 0 s) (isCastlingPossible 1 s)) as [E|L].
    + intros c rc _. apply isCastlingPossible_step.
    + left. exact E.
    + right. lia.
  - left. intros c rc _. apply agree_next. exact E.
  - destruct (answers_grow (isCastlingPossible (S n) s) (isCastlingPossible (S (S n)) s))
      as [E|L'].
    + intros c rc _. apply isCastlingPossible_step.
    + left. exact E.
    + right. lia.
Qed.

Lemma settled_at_4 :
  onNested (fun k r => isCastlingPossible 4 s k r = isCastlingPossible 5 s k r).
Proof.
  destruct (settling 4) as [E|L]; [exact E|].
  pose proof (answers_bound (isCastlingPossible 5 s)). lia.
Qed.

Lemma settled_from_4 n :
  (4 <= n)%nat ->
  onNested (fun k r => isCastlingPossible 4 s k r = isCastlingPossible n s k r).
Proof.
  induction 1 as [|m Hm IH]; [intros c rc _; reflexivity|].
  intros c rc Hrc. rewrite (settled_at_4 c rc Hrc).
  change (isCastlingPossibleBody (isCastlingPossible 4 s) s
            (mkPosition (homeRow c) 4) (mkPosition (homeRow c) rc)
          = isCastlingPossibleBody (isCastlingPossible m s) s
              (mkPosition (homeRow c) 4) (mkPosition (homeRow c) rc)).
  apply isCastlingPossibleBody_agree. exact IH.
Qed.

(** From five frames on the castling test gives one outcome. *)
Lemma isCastlingPossible_settled n m k r :
  (5 <= n)%nat -> (5 <= m)%nat ->
  isCastlingPossible n s k r = isCastlingPossible m s k r.
Proof.
  assert (K : forall j, (5 <= j)%nat ->
                        isCastlingPossible j s k r = isCastlingPossible 5 s k r).
  { intros [|j] Hj; [lia|].
    change (isCastlingPossibleBody (isCastlingPossible j s) s k r
            = isCastlingPossibleBody (isCastlingPossible 4 s) s k r).
    apply isCastlingPossibleBody_agree.
    intros c rc Hrc. symmetry. apply settled_from_4; [lia | exact Hrc]. }
  intros Hn Hm. rewrite (K n Hn), (K m Hm). reflexivity.
Qed.

Lemma nested_settled n m :
  (5 <= n)%nat -> (5 <= m)%nat ->
  onNested (fun k r => isCastlingPossible n s k r = isCastlingPossible m s k r).
Proof. intros Hn Hm c rc _. apply isCastlingPossible_settled; assumption. Qed.
End Settling.

Create HintDb settle.

(** The same descent, for two sides that are to be equal. *)
Ltac settle :=
  repeat
    match goal with
    | |- ?a = ?b => constr_eq a b; reflexivity
    | |- bind _ _ = bind _ _ => apply bind_both; [|intros ?]
    | |- try_catch _ _ = try_catch _ _ => apply try_catch_cong
    | |- existsM _ _ = existsM _ _ => apply existsM_ext; intros ?
    | |- foldM _ _ _ = foldM _ _ _ => apply foldM_ext; intros ? ?
    | |- filterM _ _ = filterM _ _ => apply filterM_ext; intros ?
    | |- (match ?x with _ => _ end) = _ => destruct x
    | |- _ = _ => solve [auto with settle nocore]
    end.

Section FuelSettled.
Variables n m : nat.
Hypothesis enough_n : (5 <= n)%nat.
Hypothesis enough_m : (5 <= m)%nat.

Lemma isCastlingPossible_settled' s k r :
  isCastlingPossible n s k r = isCastlingPossible m s k r.
Proof. apply isCastlingPossible_settled; assumption. Qed.
Hint Resolve isCastlingPossible_settled' : settle.

Lemma calculateRawMovesByPieceType_settled s pos ty b :
  calculateRawMovesByPieceType n s pos ty b = calculateRawMovesByPieceType m s pos ty b.
Proof. apply calculateRawMovesByPieceTypeWith_agree. apply nested_settled; assumption. Qed.
Hint Resolve calculateRawMovesByPieceType_settled : settle.

Lemma isSquareUnderAttack_settled s target byColor b :
  isSquareUnderAttack n s target byColor b = isSquareUnderAttack m s target byColor b.
Proof. apply isSquareUnderAttackWith_agree. apply nested_settled; assumption. Qed.
Hint Resolve isSquareUnderAttack_settled : settle.

Lemma keepsKingSafe_settled s pos pc mv :
  keepsKingSafe n s pos pc mv = keepsKingSafe m s pos pc mv.
Proof. unfold keepsKingSafe. settle. Qed.
Hint Resolve keepsKingSafe_settled : settle.

Lemma getValidMovesForPiece_settled s pos :
  getValidMovesForPiece n s pos = getValidMovesForPiece m s pos.
Proof. unfold getValidMovesForPiece. settle. Qed.
Hint Resolve getValidMovesForPiece_settled : settle.

Lemma getCastlingPartners_settled s pos :
  getCastlingPartners n s pos = getCastlingPartners m s pos.
Proof. unfold getCastlingPartners. settle. Qed.
Hint Resolve getCastlingPartners_settled : settle.

Lemma checkColor_settled c s : checkColor n c s = checkColor m c s.
Proof. unfold checkColor. settle. Qed.
Hint Resolve checkColor_settled : settle.

Lemma checkForCheck_settled s : checkForCheck n s = checkForCheck m s.
Proof. unfold checkForCheck. settle. Qed.
Hint Resolve checkForCheck_settled : settle.

Lemma canMoveFrom_settled s c sq : canMoveFrom n s c sq = canMoveFrom m s c sq.
Proof. unfold canMoveFrom. settle. Qed.
Hint Resolve canMoveFrom_settled : settle.

Lemma checkForCheckmate_settled s : checkForCheckmate n s = checkForCheckmate m s.
Proof. unfold checkForCheckmate. settle. Qed.
Hint Resolve checkForCheckmate_settled : settle.

Lemma handlePostMove_settled s : handlePostMove n s = handlePostMove m s.
Proof. unfold handlePostMove. settle. Qed.
Hint Resolve handlePostMove_settled : settle.

Lemma selectPiece_settled s pos : selectPiece n s pos = selectPiece m s pos.
Proof. unfold selectPiece. settle. Qed.
Hint Resolve selectPiece_settled : settle.

Lemma ordinaryMove_settled s pc from to :
  ordinaryMove n s pc from to = ordinaryMove m s pc from to.
Proof. unfold ordinaryMove. settle. Qed.
Hint Resolve ordinaryMove_settled : settle.

Lemma movePiece_settled s from to : movePiece n s from to = movePiece m s from to.
Proof. unfold movePiece. settle. Qed.
Hint Resolve movePiece_settled : settle.

Lemma promotePawn_settled s pos ty : promotePawn n s pos ty = promotePawn m s pos ty.
Proof. unfold promotePawn. settle. Qed.
Hint Resolve promotePawn_settled : settle.

Lemma run_settled op s : run n op s = run m op s.
Proof. unfold run. settle. Qed.

Lemma play_settled ops : forall s, play n ops s = play m ops s.
Proof.
  induction ops as [|op ops IH]; intros s; [reflexivity|].
  change (bind (run n op s) (fun r => play n ops r.2)
          = bind (run m op s) (fun r => play m ops r.2)).
  apply bind_both; [apply run_settled | intros; apply IH].
Qed.

(** The same for the state a call leaves when it throws. *)

Lemma tracked_checkForCheck_settled s :
  Tracked.checkForCheck n s = Tracked.checkForCheck m s.
Proof. rewrite !checkForCheck_tracked, checkForCheck_settled. reflexivity. Qed.

Lemma tracked_checkForCheckmate_settled s :
  Tracked.checkForCheckmate n s = Tracked.checkForCheckmate m s.
Proof. rewrite !checkForCheckmate_tracked, checkForCheckmate_settled. reflexivity. Qed.

Lemma tracked_handlePostMove_settled s :
  Tracked.handlePostMove n s = Tracked.handlePostMove m s.
Proof.
  unfold Tracked.handlePostMove.
  apply bindM_ext. intros _ s1. 
  apply bindM_both; [apply tracked_checkForCheck_settled|]. intros _ s2.
  apply bindM_ext. intros flag s3. destruct (isSome flag); [|reflexivity].
  apply bindM_both; [apply tracked_checkForCheckmate_settled | reflexivity].
Qed.

Lemma tracked_selectPiece_settled pos s :
  Tracked.selectPiece n pos s = Tracked.selectPiece m pos s.
Proof.
  unfold Tracked.selectPiece.
  apply bindM_ext. intros [pc|] s1; [|reflexivity].
  apply bindM_ext. intros turn s2. destruct (negb _); [reflexivity|].
  apply bindM_ext. intros _ s3.
  apply bindM_both; [apply read_ext; intros; apply getValidMovesForPiece_settled|].
  intros legal s4.
  apply bindM_both;
    [apply read_ext; intros; apply calculateRawMovesByPieceType_settled|].
  intros raw s5.
  apply bindM_both; [apply read_ext; intros; apply getCastlingPartners_settled|].
  reflexivity.
Qed.

Lemma tracked_ordinaryMove_settled pc from to s :
  Tracked.ordinaryMove n pc from to s = Tracked.ordinaryMove m pc from to s.
Proof.
  unfold Tracked.ordinaryMove.
  apply bindM_both; [apply read_ext; intros; apply getValidMovesForPiece_settled|].
  intros valid s1. destruct (negb _); [reflexivity|].
  apply bindM_ext. intros ep s2.
  apply bindM_ext. intros _ s3.
  apply bindM_ext. intros _ s4.
  apply bindM_ext. intros _ s5.
  apply bindM_ext. intros _ s6.
  apply bindM_both; [apply tracked_handlePostMove_settled | reflexivity].
Qed.

Lemma tracked_movePiece_settled from to s :
  Tracked.movePiece n from to s = Tracked.movePiece m from to s.
Proof.
  unfold Tracked.movePiece.
  destruct (_ && _); [reflexivity|].
  destruct (_ && _); [reflexivity|].
  destruct (_ && _); [reflexivity|].
  apply bindM_ext. intros [pc|] s1; [|reflexivity]. cbv zeta.
  destruct (_ && _).
  { apply bindM_both; [apply read_ext; intros; apply isCastlingPossible_settled'|].
    intros possible s2. destruct (negb possible); [reflexivity|].
    apply bindM_ext. intros _ s3.
    apply bindM_both; [apply tracked_handlePostMove_settled | reflexivity]. }
  destruct (_ && _).
  { apply bindM_both; [apply read_ext; intros; apply isCastlingPossible_settled'|].
    intros possible s2. destruct (negb possible); [reflexivity|].
    apply bindM_ext. intros _ s3.
    apply bindM_both; [apply tracked_handlePostMove_settled | reflexivity]. }
  apply tracked_ordinaryMove_settled.
Qed.

Lemma tracked_promotePawn_settled pos ty s :
  Tracked.promotePawn n pos ty s = Tracked.promotePawn m pos ty s.
Proof.
  unfold Tracked.promotePawn.
  apply bindM_ext. intros [pc|] s1; [|reflexivity].
  destruct (negb (type_eqb _ _)); [reflexivity|]. cbv zeta.
  destruct (negb _); [reflexivity|].
  apply bindM_ext. intros _ s2.
  apply bindM_both; [apply tracked_checkForCheck_settled|]. intros _ s3.
  apply bindM_ext. intros flag s4. destruct (isSome flag); [|reflexivity].
  apply tracked_checkForCheckmate_settled.
Qed.
End FuelSettled.

(** From five frames on, the depth of the stack changes neither what a
    call returns or throws nor the state it leaves. *)
Lemma call_fuel_stable n m op s :
  (5 <= n)%nat -> (5 <= m)%nat -> Tracked.run n op s = Tracked.run m op s.
Proof.
  intros Hn Hm. destruct op; cbn [Tracked.run].
  - reflexivity.
  - apply bindM_both; [apply tracked_selectPiece_settled; assumption | reflexivity].
  - reflexivity.
  - apply bindM_both; [apply tracked_movePiece_settled; assumption | reflexivity].
  - reflexivity.
  - reflexivity.
  - apply bindM_both; [apply tracked_promotePawn_settled; assumption | reflexivity].
  - reflexivity.
Qed.

Lemma leaves_settled n m op s :
  (5 <= n)%nat -> (5 <= m)%nat -> leaves n op s = leaves m op s.
Proof. intros Hn Hm. unfold leaves. rewrite (call_fuel_stable n m); auto. Qed.

Lemma playOn_settled n m ops :
  (5 <= n)%nat -> (5 <= m)%nat -> forall s, playOn n ops s = playOn m ops s.
Proof.
  intros Hn Hm. induction ops as [|op ops IH]; intros s; simpl; [reflexivity|].
  rewrite (leaves_settled n m) by assumption. apply IH.
Qed.

(** ** A castling test that does not end *)

(** With both king sides open, the test for White asks whether e1 is
    attacked, which asks for the raw moves of the Black king, which asks
    the test for Black, which asks for the raw moves of the White king. *)
Lemma whiteTest_needs_blackTest castle :
  castle (mkPosition 0 4) (mkPosition 0 7) = Throw RangeError ->
  isCastlingPossibleBody castle openKingsides (mkPosition 7 4) (mkPosition 7 7)
  = Throw RangeError.
Proof. intros H. vm_compute. rewrite H. reflexivity. Qed.

Lemma blackTest_needs_whiteTest castle :
  castle (mkPosition 7 4) (mkPosition 7 7) = Throw RangeError ->
  isCastlingPossibleBody castle openKingsides (mkPosition 0 4) (mkPosition 0 7)
  = Throw RangeError.
Proof. intros H. vm_compute. rewrite H. reflexivity. Qed.

Lemma castling_tests_never_end fuel :
  isCastlingPossible fuel openKingsides (mkPosition 7 4) (mkPosition 7 7) = Throw RangeError /\
  isCastlingPossible fuel openKingsides (mkPosition 0 4) (mkPosition 0 7) = Throw RangeError.
Proof.
  induction fuel as [|n [IHw IHb]]; [split; reflexivity|]. split.
  - change (isCastlingPossibleBody (isCastlingPossible n openKingsides) openKingsides
              (mkPosition 7 4) (mkPosition 7 7) = Throw RangeError).
    apply whiteTest_needs_blackTest. exact IHb.
  - change (isCastlingPossibleBody (isCastlingPossible n openKingsides) openKingsides
              (mkPosition 0 4) (mkPosition 0 7) = Throw RangeError).
    apply blackTest_needs_whiteTest. exact IHw.
Qed.

(** However deep the stack, White's attempt to castle short in that
    position exhausts it: the nesting of the castling tests is unbounded,
    and [movePiece] asks the test outside any [try]. *)
Lemma castling_attempt_never_returns fuel :
  movePiece fuel openKingsides (square 7 4) (square 7 6) = Throw RangeError.
Proof.
  unfold movePiece.
  assert (B1 : gameType_eqb (gameType openKingsides) dice
               && (remainingMoves openKingsides <=? 0) = false) by reflexivity.
  assert (B2 : gameType_eqb (gameType openKingsides) coinToss
               && waitingForCoinToss openKingsides = false) by reflexivity.
  assert (B3 : gameType_eqb (gameType openKingsides) dice
               && waitingForDiceRoll openKingsides = false) by reflexivity.
  assert (E : pieceAt (board openKingsides) (row (square 7 4)) (col (square 7 4))
              = Ret (Some (mkPiece KING WHITE false))) by (vm_compute; reflexivity).
  rewrite B1, B2, B3, E.
  change (bind (isCastlingPossible fuel openKingsides (mkPosition 7 4) (mkPosition 7 7))
            (fun possible =>
               if negb possible then Ret (false, openKingsides)
               else
                 let* this1 := castle openKingsides (mkPiece KING WHITE false) 7 6 5 7 in
                 let* this2 := handlePostMove fuel this1 in
                 Ret (true, this2)) = Throw RangeError).
  rewrite (proj1 (castling_tests_never_end fuel)). reflexivity.
Qed.

Lemma openKingsides_reachable : reachable classic openKingsides.
Proof.
  eapply (play_reachable classic 5 openKingsidesGame (constructor classic));
    [lia | apply reachable_new | vm_compute; reflexivity].
Qed.

(** X26. The overflow of the castling test is swallowed where the engine
    catches it and raised where it does not.  In [openKingsidesGame] the
    sixth move is accepted and flags no check, both rounds of
    [checkForCheck] having caught the error.  In the position reached the
    legality filter drops every candidate of the knight on f3: the knight
    has no legal move, [movePiece] refuses to move it and [selectPiece]
    lists nothing for it.  Selecting the king raises the error from the raw
    moves, which are computed outside the [try], after [selectedPiece] was
    assigned. *)
Theorem overflow_swallowed_or_raised (n : nat) :
  (5 <= n)%nat ->
  play n openKingsidesGame (constructor classic) = Ret openKingsides /\
  isInCheck openKingsides = None /\
  getValidMovesForPiece n openKingsides (square 5 5) = Ret [] /\
  movePiece n openKingsides (square 5 5) (square 3 4) = Ret (false, openKingsides) /\
  (exists s', selectPiece n openKingsides (square 5 5) = Ret s' /\
              selectedPiece s' = Some (square 5 5) /\ validMoves s' = []) /\
  Tracked.selectPiece n (square 7 4) openKingsides
  = Raised RangeError (set_selection openKingsides (Some (square 7 4)) [] []).
Proof.
  intros Hn.
  assert (H5 : (5 <= 5)%nat) by lia.
  split; [rewrite (play_settled n 5 Hn H5); vm_compute; reflexivity|].
  split; [reflexivity|].
  split; [rewrite (getValidMovesForPiece_settled n 5 Hn H5); vm_compute; reflexivity|].
  split; [rewrite (movePiece_settled n 5 Hn H5); vm_compute; reflexivity|].
  split.
  - rewrite (selectPiece_settled n 5 Hn H5).
    destruct (selectPiece 5 openKingsides (square 5 5)) as [s'|] eqn:E;
      [|vm_compute in E; discriminate E].
    exists s'. split; [reflexivity|].
    assert (E' : Ret s' = selectPiece 5 openKingsides (square 5 5))
      by (symmetry; exact E).
    vm_compute in E'. inversion E'. split; reflexivity.
  - rewrite (tracked_selectPiece_settled n 5 Hn H5). vm_compute. reflexivity.
Qed.

Lemma overflow_swallowed_or_raised_witness :
  play 6 openKingsidesGame (constructor classic) = Ret openKingsides /\
  movePiece 6 openKingsides (square 5 5) (square 3 4) = Ret (false, openKingsides).
Proof.
  destruct (overflow_swallowed_or_raised 6) as (H1 & _ & _ & H2 & _); [lia|].
  split; [exact H1 | exact H2].
Defined.

(** In the last move of [openWingsGame] followed by 5. Bb5+, the test of
    White's king overflows the stack, however deep it is, and the test of
    Black's king answers. *)
Lemma open_wings_overflow_caught n :
  let s' := afterPlay 5 classic (openWingsGame ++ [move 7 5 3 1]) in
  let x := set_isInCheck s' None in
  isSquareUnderAttack n x (square 7 4) BLACK (board x) = Throw RangeError /\
  isSquareUnderAttack n x (square 0 4) WHITE (board x) = Ret true.
Proof.
  intros s' x.
  assert (W : isSquareUnderAttack 5 x (square 7 4) BLACK (board x) = Throw RangeError)
    by (vm_compute; reflexivity).
  assert (B : isSquareUnderAttack 0 x (square 0 4) WHITE (board x) = Ret true)
    by (vm_compute; reflexivity).
  split.
  - destruct (Nat.le_ge_cases n 5) as [L|L].
    + destruct (isSquareUnderAttack_mono n 5 x (square 7 4) BLACK (board x) L)
        as [E|E]; [exact E | rewrite E; exact W].
    + rewrite (isSquareUnderAttack_settled n 5 L (Nat.le_refl 5)). exact W.
  - apply (isSquareUnderAttack_more_fuel 0 n); [lia | exact B].
Qed.

(** ** The sliding loop ends within eight iterations *)

Lemma pieceAt_finishes b r c : pieceAt b r c <> Throw RangeError.
Proof.
  unfold pieceAt, index.
  destruct (r <? 0); [discriminate|].
  destruct (b !! Z.to_nat r) as [l|]; [|discriminate]. simpl.
  destruct (c <? 0); [discriminate|].
  destruct (l !! Z.to_nat c); discriminate.
Qed.

Lemma walkLine_enough n pc b dr dc :
  In (dr, dc) (rookDirections ++ bishopDirections) ->
  forall r c acc,
    (isValidPosition r c = true -> raySquares dr dc r c <= Z.of_nat n) ->
    walkLine n pc b dr dc r c acc <> Throw RangeError.
Proof.
  intros Hd. induction n as [|n IH]; intros r c acc Hn; simpl;
    destruct (isValidPosition r c) eqn:V; try discriminate.
  - exfalso. specialize (Hn eq_refl). apply isValidPosition_iff in V.
    unfold raySquares in Hn. simpl in Hd.
    repeat (destruct Hd as [Hd | Hd]; [inversion Hd; subst; simpl in Hn; lia|]).
    destruct Hd.
  - pose proof (pieceAt_finishes b r c) as F.
    destruct (pieceAt b r c) as [[t|]|e]; simpl; try congruence.
    + destruct (negb _); discriminate.
    + apply IH. intros V'. specialize (Hn eq_refl).
      apply isValidPosition_iff in V, V'. unfold raySquares in *. simpl in Hd.
      repeat (destruct Hd as [Hd | Hd]; [inversion Hd; subst; simpl in *; lia|]).
      destruct Hd.
Qed.

(** The bound of eight iterations in [calculateLineMovementsRaw] is never
    reached: the loop of the source ends by itself. *)
Lemma walkLine_terminates pc b dr dc r c acc :
  In (dr, dc) (rookDirections ++ bishopDirections) ->
  walkLine 8 pc b dr dc r c acc <> Throw RangeError.
Proof.
  intros Hd. apply walkLine_enough; [exact Hd|].
  intros V. apply isValidPosition_iff in V. unfold raySquares. simpl in Hd.
  repeat (destruct Hd as [Hd | Hd]; [inversion Hd; subst; simpl; lia|]).
  destruct Hd.
Qed.

(** ** Castling *)

Lemma type_eqb_eq a b : type_eqb a b = true <-> a = b.
Proof. destruct a, b; simpl; split; congruence. Qed.

Lemma color_eqb_eq a b : color_eqb a b = true <-> a = b.
Proof. destruct a, b; simpl; split; congruence. Qed.

(** What a positive answer of the castling test rests on. *)
Lemma isCastlingPossibleBody_true castle s kingPos rookPos :
  isCastlingPossibleBody castle s kingPos rookPos = Ret true ->
  exists king rook,
    pieceAt (board s) (row kingPos) (col kingPos) = Ret (Some king) /\
    type king = KING /\ hasMoved king = false /\
    pieceAt (board s) (row rookPos) (col rookPos) = Ret (Some rook) /\
    type rook = ROOK /\ hasMoved rook = false /\
    flaggedInCheck (isInCheck s) (color king) = false /\
    (forall c, Z.min (col kingPos) (col rookPos) < c < Z.max (col kingPos) (col rookPos) ->
               pieceAt (board s) (row kingPos) c = Ret None) /\
    (forall c, (col rookPos = 7 /\ In c [4; 5; 6]) \/ (col rookPos = 0 /\ In c [2; 3; 4]) ->
               isSquareUnderAttackWith castle s (mkPosition (row kingPos) c)
                 (opposite (color king)) (board s) = Ret false).
Proof.
  unfold isCastlingPossibleBody. intros H.
  bind_inv H. bind_inv H. destruct a as [k|]; [|discriminate].
  destruct a0 as [r|]; [|discriminate].
  destruct (negb (type_eqb (type k) KING)) eqn:E1; [discriminate|].
  destruct (hasMoved k) eqn:E2; [discriminate|].
  destruct (negb (type_eqb (type r) ROOK)) eqn:E3; [discriminate|].
  destruct (hasMoved r) eqn:E4; [discriminate|]. cbn [orb] in H.
  destruct (flaggedInCheck _ _) eqn:E5; [discriminate|].
  bind_inv H. destruct a; [discriminate|].
  exists k, r. apply negb_false_iff, type_eqb_eq in E1, E3.
  do 7 (split; [assumption|]). split.
  - intros c Hc. pose proof (existsM_false _ _ Hm1 c) as P. simpl in P.
    assert (Hin : In c (seqZ (Z.min (col kingPos) (col rookPos) + 1)
                          (Z.max (col kingPos) (col rookPos)
                           - Z.min (col kingPos) (col rookPos) - 1))).
    { apply list_elem_of_In, elem_of_seqZ. lia. }
    specialize (P Hin). bind_inv P. inversion P. destruct a; [discriminate|assumption].
  - intros c [[Hc Hin] | [Hc Hin]].
    + rewrite Hc in H. change (7 =? 7) with true in H. cbv iota zeta in H.
      bind_inv H. destruct a; [discriminate|].
      exact (existsM_false _ _ Hm2 c Hin).
    + rewrite Hc in H. change (0 =? 7) with false in H.
      change (0 =? 0) with true in H. cbv iota zeta in H.
      bind_inv H. destruct a; [discriminate|].
      exact (existsM_false _ _ Hm2 c Hin).
Qed.

Lemma isCastlingPossible_true fuel s kingPos rookPos :
  isCastlingPossible fuel s kingPos rookPos = Ret true ->
  exists king rook,
    pieceAt (board s) (row kingPos) (col kingPos) = Ret (Some king) /\
    type king = KING /\ hasMoved king = false /\
    pieceAt (board s) (row rookPos) (col rookPos) = Ret (Some rook) /\
    type rook = ROOK /\ hasMoved rook = false /\
    flaggedInCheck (isInCheck s) (color king) = false /\
    (forall c, Z.min (col kingPos) (col rookPos) < c < Z.max (col kingPos) (col rookPos) ->
               pieceAt (board s) (row kingPos) c = Ret None) /\
    (forall c, (col rookPos = 7 /\ In c [4; 5; 6]) \/ (col rookPos = 0 /\ In c [2; 3; 4]) ->
               isSquareUnderAttack fuel s (mkPosition (row kingPos) c)
                 (opposite (color king)) (board s) = Ret false).
Proof.
  destruct fuel as [|n]; [discriminate|]. simpl. intros H.
  apply isCastlingPossibleBody_true in H
    as (king & rook & H1 & H2 & H3 & H4 & H5 & H6 & H7 & H8 & H9).
  exists king, rook. do 8 (split; [assumption|]).
  intros c Hc. apply (isSquareUnderAttack_more_fuel n (S n)); [lia|].
  apply H9. exact Hc.
Qed.

(** X25. What a castling move rests on.  When [movePiece] relocates king and
    rook (a king is moved from column 4 to column 6 or 2 and the call
    succeeds: the state returned is the castled board after
    [handlePostMove]), then on the home row of the mover's colour the king
    on column 4 and the rook on column 7 (resp. 0) have both
    [hasMoved = false], every square strictly between them is empty, the
    king's colour is not flagged in check, and [isSquareUnderAttack] answers
    false for each square the king crosses, from column 4 through its
    destination: none of them is among the raw moves of an opposing
    piece. *)
Lemma castling_only_when_allowed (fuel : nat) (s s' : ChessGameState)
    (from to : Position) (k : Piece) :
  pieceAt (board s) (row from) (col from) = Ret (Some k) ->
  type k = KING ->
  col from = 4 ->
  col to = 6 \/ col to = 2 ->
  movePiece fuel s from to = Ret (true, s') ->
  let r := homeRow (color k) in
  let rookCol := if col to =? 6 then 7 else 0 in
  let rookTo := if col to =? 6 then 5 else 3 in
  (exists s1, castle s k r (col to) rookTo rookCol = Ret s1 /\
              handlePostMove fuel s1 = Ret s') /\
  exists king rook,
    pieceAt (board s) r 4 = Ret (Some king) /\
    type king = KING /\ hasMoved king = false /\
    pieceAt (board s) r rookCol = Ret (Some rook) /\
    type rook = ROOK /\ hasMoved rook = false /\
    flaggedInCheck (isInCheck s) (color king) = false /\
    (forall c, Z.min 4 rookCol < c < Z.max 4 rookCol ->
               pieceAt (board s) r c = Ret None) /\
    (forall c, Z.min 4 (col to) <= c <= Z.max 4 (col to) ->
               isSquareUnderAttack fuel s (mkPosition r c) (opposite (color king))
                 (board s) = Ret false).
Proof.
  intros Hp Hk Hf Ht H r rookCol rookTo.
  assert (C : isCastlingPossible fuel s (mkPosition r 4) (mkPosition r rookCol) = Ret true
              /\ exists s1, castle s k r (col to) rookTo rookCol = Ret s1 /\
                            handlePostMove fuel s1 = Ret s').
  { unfold movePiece in H.
    repeat (destruct (_ && _) in H; [discriminate|]).
    rewrite Hp in H. simpl in H. rewrite Hk, Hf in H. simpl in H.
    subst rookCol rookTo.
    destruct Ht as [Ht | Ht]; rewrite Ht in H |- *; simpl in H |- *.
    - bind_inv H. destruct a; [|discriminate]. simpl in H.
      bind_inv H. bind_inv H. inversion H; subst. eauto.
    - bind_inv H. destruct a; [|discriminate]. simpl in H.
      bind_inv H. bind_inv H. inversion H; subst. eauto. }
  destruct C as [C R]. split; [exact R|].
  apply isCastlingPossible_true in C
    as (king & rook & H1 & H2 & H3 & H4 & H5 & H6 & H7 & H8 & H9).
  simpl in *. exists king, rook. do 8 (split; [assumption|]).
  intros c Hc. apply H9. subst rookCol.
  destruct Ht as [Ht | Ht]; rewrite Ht in *; simpl in *.
  - left. split; [reflexivity|].
    assert (c = 4 \/ c = 5 \/ c = 6) as [-> | [-> | ->]] by lia; auto.
  - right. split; [reflexivity|].
    assert (c = 2 \/ c = 3 \/ c = 4) as [-> | [-> | ->]] by lia; auto.
Qed.

(** C7, at the failing input. At the end of [pawnOnE2Game] the Black pawn
    on e2 attacks f1, and White castles short across f1: [movePiece({7,4},
    {7,6})] returns true and the king lands on g1.  What
    [isSquareUnderAttack] takes for an attack is a raw move, and a pawn's
    diagonal is a raw move only onto an occupied square (or en passant), so
    the test answers false for the empty square f1. *)
Theorem castling_through_pawn_attack :
  exists s s',
    play 3 pawnOnE2Game (constructor classic) = Ret s /\
    currentTurn s = WHITE /\
    pieceAt (board s) 6 4 = Ret (Some (mkPiece PAWN BLACK true)) /\
    pieceAt (board s) 7 5 = Ret None /\
    isSquareUnderAttack 3 s (square 7 5) BLACK (board s) = Ret false /\
    movePiece 3 s (square 7 4) (square 7 6) = Ret (true, s') /\
    pieceAt (board s') 7 6 = Ret (Some (mkPiece KING WHITE true)) /\
    pieceAt (board s') 7 5 = Ret (Some (mkPiece ROOK WHITE true)).
Proof.
  exists (afterPlay 3 classic pawnOnE2Game),
         (afterPlay 3 classic (pawnOnE2Game ++ [move 7 4 7 6])).
  do 7 (split; [vm_compute; reflexivity|]). vm_compute; reflexivity.
Qed.

Lemma castling_only_when_allowed_witness :
  let s := afterPlay 3 classic castlingGame in
  let s' := afterPlay 3 classic (castlingGame ++ [move 7 4 7 6]) in
  movePiece 3 s (square 7 4) (square 7 6) = Ret (true, s') /\
  exists king rook,
    pieceAt (board s) 7 4 = Ret (Some king) /\ hasMoved king = false /\
    pieceAt (board s) 7 7 = Ret (Some rook) /\ hasMoved rook = false /\
    (forall c, 4 < c < 7 -> pieceAt (board s) 7 c = Ret None) /\
    (forall c, 4 <= c <= 6 ->
               isSquareUnderAttack 3 s (mkPosition 7 c) (opposite (color king)) (board s)
               = Ret false).
Proof.
  intros s s'.
  assert (Hm : movePiece 3 s (square 7 4) (square 7 6) = Ret (true, s'))
    by (vm_compute; reflexivity).
  split; [exact Hm|].
  assert (Hp : pieceAt (board s) (row (square 7 4)) (col (square 7 4))
               = Ret (Some (mkPiece KING WHITE false))) by (vm_compute; reflexivity).
  destruct (castling_only_when_allowed 3 s s' (square 7 4) (square 7 6)
              (mkPiece KING WHITE false) Hp eq_refl eq_refl (or_introl eq_refl) Hm)
    as (_ & king & rook & H1 & _ & H3 & H4 & _ & H6 & _ & H8 & H9).
  exists king, rook.
  exact (conj H1 (conj H3 (conj H4 (conj H6 (conj H8 H9))))).
Defined.

(** What [checkForCheckmate] establishes when it sets the flag: the colour
    is the one flagged in check, and no piece of that colour has a legal
    move. *)
Lemma checkForCheckmate_sets fuel s s' c :
  checkForCheckmate fuel s = Ret s' ->
  isCheckmate s' = Some c ->
  isInCheck s' = Some c /\
  forall sq pc, In sq allSquares ->
                pieceAt (board s) (row sq) (col sq) = Ret (Some pc) ->
                color pc = c ->
                getValidMovesForPiece fuel s sq = Ret [].
Proof.
  unfold checkForCheckmate. destruct (isInCheck s) as [cc|] eqn:E; intros H Hc.
  - bind_inv H. inversion H; subst; clear H.
    destruct a; simpl in Hc; [discriminate|]. inversion Hc; subst cc.
    split; [exact E|].
    intros sq pc Hin Hp Hcol.
    pose proof (existsM_false _ _ Hm sq Hin) as F.
    unfold canMoveFrom in F. rewrite Hp in F. simpl in F.
    rewrite (proj2 (color_eqb_eq _ _) Hcol) in F.
    bind_inv F. inversion F. destruct a; [exact Hm0|discriminate].
  - inversion H; subst. discriminate.
Qed.

(** ** The legality filter *)

Lemma ensures_bind {A B} (Q : A -> Prop) (R : B -> Prop) m (f : A -> outcome B) :
  ensures Q m -> (forall a, Q a -> ensures R (f a)) -> ensures R (bind m f).
Proof.
  intros Hm Hf b H. bind_inv H. eapply Hf; [apply Hm; exact Hm0 | exact H].
Qed.

Lemma ensures_Ret {A} (Q : A -> Prop) a : Q a -> ensures Q (Ret a).
Proof. intros H b E. inversion E; subst. exact H. Qed.

Lemma ensures_foldM {A B} (I : B -> Prop) (f : A -> B -> outcome B) l :
  (forall x b, In x l -> I b -> ensures I (f x b)) ->
  forall b, I b -> ensures I (foldM f l b).
Proof.
  induction l as [|x l IH]; simpl; intros Hf b Hb.
  - apply ensures_Ret. exact Hb.
  - eapply ensures_bind; [apply Hf; auto|].
    intros b' Hb'. apply IH; auto.
Qed.






(** A candidate whose test throws, the overflow of the stack included, is
    dropped: the callback of the filter returns false for it. *)
Lemma keepsKingSafe_drops fuel s pos pc mv tb e :
  simulateMove s pos mv = Ret tb ->
  (let* kingPos := ownKingSquare pc mv tb in
   let* wouldBeInCheck :=
     isSquareUnderAttack fuel s kingPos (opposite (color pc)) tb in
   Ret (negb wouldBeInCheck)) = Throw e ->
  keepsKingSafe fuel s pos pc mv = Ret false.
Proof. intros Hs Ht. unfold keepsKingSafe. rewrite Hs. cbn [bind]. rewrite Ht. reflexivity. Qed.



(** On the live board the same move can look different: an en-passant
    capture also clears the captured pawn's square, which the scratch board
    of the filter does not.  At the end of [enPassantPinGame] the filter
    returns the capture exd6, and once [movePiece] has applied it the
    mover's own king stands in check from the rook on b5. *)
Lemma en_passant_victim_stays_in_simulation :
  exists s s',
    play 3 enPassantPinGame (constructor classic) = Ret s /\
    currentTurn s = WHITE /\ isInCheck s = None /\
    getValidMovesForPiece 3 s (square 3 4) = Ret [square 2 4; square 2 3] /\
    movePiece 3 s (square 3 4) (square 2 3) = Ret (true, s') /\
    pieceAt (board s') 3 3 = Ret None /\
    isInCheck s' = Some WHITE.
Proof.
  exists (afterPlay 3 classic enPassantPinGame),
         (afterPlay 3 classic (enPassantPinGame ++ [move 3 4 2 3])).
  do 6 (split; [vm_compute; reflexivity|]). vm_compute; reflexivity.
Qed.



(** * Further properties of the engine *)

(** ** Turn and phase *)

Lemma handlePostMove_shape fuel s s' :
  handlePostMove fuel s = Ret s' ->
  exists m, s' = afterDetection (isInCheck s') m (advanceTurn s).
Proof.
  intros H. apply handlePostMove_inv in H as (c & m & _ & H).
  destruct c as [c|].
  - destruct H as [_ ->]. exists m. reflexivity.
  - subst s'. exists (isCheckmate (advanceTurn s)).
    generalize (advanceTurn s). intros []. reflexivity.
Qed.

Lemma movePiece_shape fuel s from to s' :
  movePiece fuel s from to = Ret (true, s') ->
  moveBarred s = false /\
  exists b lm m,
    s' = afterDetection (isInCheck s') m (advanceTurn (set_board (set_lastMove s lm) b)).
Proof.
  intros H. apply movePiece_inv in H as [[H _] | (_ & G & b & lm & H)]; [discriminate|].
  split; [exact G|]. apply handlePostMove_shape in H as [m H]. eauto.
Qed.

(** X1. A roll that is awaited, with no check flagged, and draws a value in
    1..6 gives the turn to White with [value] moves when the value is at
    most 3 and to Black with [value - 3] moves otherwise: between one and
    three moves.  It records the roll, leaves the board alone and, in a Dice
    game, opens the game to moves. *)
Theorem rollDice_grants (s : ChessGameState) (value : Z) :
  waitingForDiceRoll s = true ->
  isInCheck s = None ->
  1 <= value <= 6 ->
  let roll := (rollDice s value).1 in
  let s' := (rollDice s value).2 in
  player roll = (if value <=? 3 then WHITE else BLACK) /\
  moves roll = (if value <=? 3 then value else value - 3) /\
  1 <= moves roll <= 3 /\
  currentTurn s' = player roll /\
  remainingMoves s' = moves roll /\
  waitingForDiceRoll s' = false /\
  lastDiceRoll s' = Some roll /\
  board s' = board s /\
  (gameType s = dice -> moveBarred s' = false).
Proof.
  intros Hw Hc Hv. unfold rollDice. rewrite Hw, Hc. simpl.
  destruct (value <=? 3) eqn:E;
    [apply Z.leb_le in E | apply Z.leb_gt in E];
    repeat split; try reflexivity; try lia;
    intros Hg; unfold moveBarred; simpl; rewrite Hg; simpl;
    rewrite !orb_false_r; apply Z.leb_gt; lia.
Qed.

Lemma rollDice_grants_witness :
  let roll := (rollDice (constructor dice) 5).1 in
  let s' := (rollDice (constructor dice) 5).2 in
  player roll = BLACK /\ moves roll = 2 /\ remainingMoves s' = 2 /\
  moveBarred s' = false.
Proof.
  destruct (rollDice_grants (constructor dice) 5 eq_refl eq_refl)
    as (H1 & H2 & _ & _ & H5 & _ & _ & _ & H9); [lia|].
  exact (conj H1 (conj H2 (conj H5 (H9 eq_refl)))).
Defined.

(** X2. A draw is used up: whatever the state and the values drawn, a roll
    that follows a roll, and a toss that follows a toss, returns the
    sentinel and leaves the state as the first draw left it. *)
Theorem repeated_draw_changes_nothing (s : ChessGameState) (v w : Z)
    (a b : PlayerColor) :
  (let s1 := (rollDice s v).2 in
   rollDice s1 w = (mkDiceRoll 0 0 (currentTurn s1), s1)) /\
  (let s1 := (tossCoin s a).2 in
   tossCoin s1 b = (mkCoinToss (currentTurn s1), s1)).
Proof.
  split.
  - unfold rollDice. destruct (isSome (isInCheck s)) eqn:E1; simpl.
    + rewrite E1. reflexivity.
    + destruct (waitingForDiceRoll s) eqn:E2; simpl.
      * rewrite E1. reflexivity.
      * rewrite E1, E2. reflexivity.
  - unfold tossCoin. destruct (isSome (isInCheck s)) eqn:E1; simpl.
    + rewrite E1. reflexivity.
    + destruct (waitingForCoinToss s) eqn:E2; simpl.
      * rewrite E1. reflexivity.
      * rewrite E1, E2. reflexivity.
Qed.

(** What a completed move does to [remainingMoves]: one less in a Dice game,
    nothing otherwise; a Dice move is accepted only with a move left. *)
Lemma remainingMoves_movePiece fuel s from to s' :
  movePiece fuel s from to = Ret (true, s') ->
  (gameType s = dice -> 0 < remainingMoves s /\
                        remainingMoves s' = remainingMoves s - 1) /\
  (gameType s <> dice -> remainingMoves s' = remainingMoves s).
Proof.
  intros H. apply movePiece_shape in H as (G & b & lm & m & H).
  rewrite H. clear H. unfold moveBarred in G.
  unfold afterDetection, advanceTurn. simpl.
  destruct (gameType s) eqn:Hg; simpl in *.
  - split; [discriminate|]. intros _. destruct (isInCheck s'); reflexivity.
  - split; [discriminate|]. intros _.
    destruct (negb _), (isInCheck s'); reflexivity.
  - split; [|congruence]. intros _.
    apply orb_false_iff in G as [G _]. rewrite orb_false_r in G.
    apply Z.leb_gt in G. split; [exact G|].
    destruct (_ && _), (isInCheck s'); reflexivity.
Qed.

Lemma countersOK_movePiece fuel s from to ok s' :
  movePiece fuel s from to = Ret (ok, s') -> countersOK s -> countersOK s'.
Proof.
  intros H I. destruct ok.
  2:{ apply movePiece_inv in H as [[_ ->] | (H & _)]; [exact I | discriminate]. }
  destruct I as (Hb & H1 & H2).
  apply movePiece_shape in H as (G & b & lm & m & H).
  rewrite H. generalize (isInCheck s'). clear H. intros c.
  unfold moveBarred in G. unfold countersOK, afterDetection, advanceTurn.
  destruct s as [b0 t0 sp vm bm ic cm l0 [ | | ] rm wc wd ld lc]; simpl in *.
  - destruct (H1 ltac:(discriminate)) as [-> ->].
    rewrite (H2 ltac:(discriminate)).
    destruct c; simpl; repeat split; intros; try lia; auto.
  - destruct (H1 ltac:(discriminate)) as [-> ->].
    destruct (negb _), c; simpl; repeat split; intros; try lia; auto; congruence.
  - rewrite (H2 ltac:(discriminate)).
    rewrite orb_false_r in G. apply orb_false_iff in G as [G _].
    apply Z.leb_gt in G.
    destruct (_ && _), c; simpl; repeat split; intros; try lia; auto; congruence.
Qed.

Lemma countersOK_run fuel op s r s' :
  fairOp op ->
  run fuel op s = Ret (r, s') -> countersOK s -> countersOK s'.
Proof.
  intros Hf H I. destruct op; simpl in H.
  - inversion H; subst. auto.
  - bind_inv H. inversion H; subst.
    apply selectPiece_frame in Hm as (p & v & b & ->). exact I.
  - inversion H; subst. exact I.
  - bind_inv H. destruct a as [ok s1]. inversion H; subst.
    eapply countersOK_movePiece; eauto.
  - inversion H; subst. simpl in Hf. unfold rollDice.
    destruct (isSome (isInCheck s)) eqn:E1; simpl; [exact I|].
    destruct (waitingForDiceRoll s) eqn:E2; simpl; [|exact I].
    destruct I as (Hb & H1 & H2). unfold countersOK. simpl.
    destruct (gameType s) eqn:Eg.
    + destruct (H1 ltac:(discriminate)) as [_ ?]. congruence.
    + destruct (H1 ltac:(discriminate)) as [_ ?]. congruence.
    + split; [|split; [congruence | exact H2]].
      destruct (value0 <=? 3) eqn:L; [apply Z.leb_le in L | apply Z.leb_gt in L]; lia.
  - inversion H; subst. unfold tossCoin.
    destruct (_ || _); simpl; [exact I|].
    destruct I as (Hb & H1 & H2). unfold countersOK. simpl. auto.
  - bind_inv H. inversion H; subst.
    apply promotePawn_frame in Hm as [-> | (b & c & m & ->)]; exact I.
  - inversion H; subst. unfold countersOK. simpl. split; [lia|].
    destruct (gameType s); simpl; repeat split; congruence.
Qed.

Lemma countersOK_halfDone op s s' : halfDone op s s' -> countersOK s -> countersOK s'.
Proof.
  destruct op; simpl; try contradiction.
  - intros [-> | ->] I; exact I.
  - intros (G & b & lm & _ & [-> | [c ->]]) I; [exact I|].
    destruct I as (Hb & H1 & H2).
    unfold moveBarred in G. unfold countersOK, advanceTurn.
    destruct s as [b0 t0 sp vm bm ic cm l0 [ | | ] rm wc wd ld lc]; simpl in *.
    + destruct (H1 ltac:(discriminate)) as [-> ->].
      rewrite (H2 ltac:(discriminate)). repeat split; intros; try lia; auto.
    + destruct (H1 ltac:(discriminate)) as [-> ->].
      destruct (negb _); simpl; repeat split; intros; try lia; auto; congruence.
    + rewrite (H2 ltac:(discriminate)).
      rewrite orb_false_r in G. apply orb_false_iff in G as [G _].
      apply Z.leb_gt in G.
      destruct (_ && _); simpl; repeat split; intros; try lia; auto; congruence.
  - intros [-> | (b & c & _ & ->)] I; exact I.
Qed.

Lemma countersOK_leaves fuel op s :
  fairOp op -> countersOK s -> countersOK (leaves fuel op s).
Proof.
  intros Hf I. destruct (leaves_cases fuel op s) as [[r H] | (e & _ & H)].
  - exact (countersOK_run _ _ _ _ _ Hf H I).
  - exact (countersOK_halfDone _ _ _ H I).
Qed.

Lemma countersOK_playOn fuel ops : forall s,
  Forall fairOp ops -> countersOK s -> countersOK (playOn fuel ops s).
Proof.
  induction ops as [|op ops IH]; intros s Hf I; simpl; [exact I|].
  inversion Hf; subst. apply IH; [assumption|]. apply countersOK_leaves; assumption.
Qed.

(** X3. Along any sequence of calls whose rolls draw values in 1..6,
    whether the calls return or throw, the move counter stays between 0 and
    3.  In a Classic or CoinToss game it keeps the value 1 and no roll is
    ever awaited; in a Classic or Dice game no toss is ever awaited,
    whatever is called. *)
Theorem remainingMoves_bounds (g : GameType) (fuel : nat) (ops : list Op) :
  Forall fairOp ops ->
  let s := playOn fuel ops (constructor g) in
  0 <= remainingMoves s <= 3 /\
  (g <> dice -> remainingMoves s = 1 /\ waitingForDiceRoll s = false) /\
  (g <> coinToss -> waitingForCoinToss s = false).
Proof.
  intros Hf s.
  assert (Hg : gameType s = g).
  { unfold s. rewrite gameType_playOn. reflexivity. }
  assert (I : countersOK s).
  { apply countersOK_playOn; [exact Hf|]. unfold countersOK. simpl.
    split; [lia|]. destruct g; simpl; repeat split; congruence. }
  destruct I as (Hb & H1 & H2). rewrite Hg in H1, H2. auto.
Qed.

Lemma remainingMoves_bounds_witness :
  let s := playOn 2 [OpRollDice 5; move 1 4 3 4; move 1 3 3 3; OpRollDice 2]
             (constructor dice) in
  0 <= remainingMoves s <= 3 /\
  (dice <> dice -> remainingMoves s = 1 /\ waitingForDiceRoll s = false) /\
  (dice <> coinToss -> waitingForCoinToss s = false).
Proof.
  apply (remainingMoves_bounds dice 2 [OpRollDice 5; move 1 4 3 4; move 1 3 3 3; OpRollDice 2]).
  repeat (apply List.Forall_cons; [simpl; first [lia | exact I]|]).
  apply List.Forall_nil.
Defined.

(** X4. Whose turn it is after a completed move.  Classic: the mover again
    when a check is flagged after the move, the other player otherwise.
    CoinToss: the turn changes exactly when a check was flagged before the
    move or is flagged after it, but not both, and a toss is awaited exactly
    when there is no check before and none after.  Dice: the turn changes
    exactly when a check is flagged after the move. *)
Theorem turn_after_move (fuel : nat) (s s' : ChessGameState) (from to : Position) :
  movePiece fuel s from to = Ret (true, s') ->
  (gameType s = classic ->
   currentTurn s' = if isSome (isInCheck s') then currentTurn s
                    else opposite (currentTurn s)) /\
  (gameType s = coinToss ->
   currentTurn s' = (if xorb (isSome (isInCheck s)) (isSome (isInCheck s'))
                     then opposite (currentTurn s) else currentTurn s) /\
   waitingForCoinToss s' = negb (isSome (isInCheck s)) && negb (isSome (isInCheck s'))) /\
  (gameType s = dice ->
   currentTurn s' = if isSome (isInCheck s') then opposite (currentTurn s)
                    else currentTurn s).
Proof.
  intros H. apply movePiece_shape in H as (G & b & lm & m & H).
  remember (isInCheck s') as c eqn:Ec. clear Ec. subst s'.
  unfold moveBarred in G. unfold afterDetection, advanceTurn.
  destruct s as [b0 t0 sp vm bm ic cm l0 g rm wc wd ld lc]; simpl in *.
  split; [|split]; intros ->; simpl in *.
  - destruct c, t0; reflexivity.
  - destruct wc; [discriminate G|]. destruct ic, c, t0; simpl; auto.
  - destruct (rm - 1 <=? 0), ic, c, t0; reflexivity.
Qed.

Lemma turn_after_move_witness :
  let s := afterPlay 4 classic [move 6 5 5 5; move 1 4 3 4; move 6 6 4 6] in
  let s' := afterPlay 4 classic foolsMate in
  movePiece 4 s (square 0 3) (square 4 7) = Ret (true, s') /\
  isInCheck s' = Some WHITE /\ currentTurn s = BLACK /\ currentTurn s' = BLACK.
Proof.
  intros s s'.
  assert (H : movePiece 4 s (square 0 3) (square 4 7) = Ret (true, s'))
    by (vm_compute; reflexivity).
  split; [exact H|]. split; [vm_compute; reflexivity|].
  split; [vm_compute; reflexivity|].
  destruct (turn_after_move 4 s s' (square 0 3) (square 4 7) H) as (H1 & _).
  exact (H1 eq_refl).
Defined.

Lemma dice_move_counters_witness :
  let s := afterPlay 2 dice [OpRollDice 1] in
  let s' := afterPlay 2 dice [OpRollDice 1; move 6 4 4 4] in
  movePiece 2 s (square 6 4) (square 4 4) = Ret (true, s') /\
  remainingMoves s' = remainingMoves s - 1 /\
  (waitingForDiceRoll s' = true <->
   remainingMoves s' <= 0 /\ isInCheck s = None /\ isInCheck s' = None).
Proof.
  intros s s'.
  assert (H : movePiece 2 s (square 6 4) (square 4 4) = Ret (true, s'))
    by (vm_compute; reflexivity).
  split; [exact H|].
  exact (dice_move_counters 2 s (square 6 4) (square 4 4) s' eq_refl H).
Defined.


(** ** What the raw generators offer *)

Lemma ensures_self {A} (m : outcome A) : ensures (fun a => m = Ret a) m.
Proof. intros a H. exact H. Qed.

Lemma ensures_bind_Ret {A B} (R : B -> Prop) (m : outcome A) a (f : A -> outcome B) :
  m = Ret a -> ensures R (f a) -> ensures R (bind m f).
Proof. intros -> H. exact H. Qed.

Lemma color_neqb a b : negb (color_eqb a b) = true -> a <> b.
Proof. destruct a, b; simpl; congruence. Qed.

Lemma pushValid_sound b pos me r c acc t :
  isValidPosition r c = true ->
  (r, c) <> (row pos, col pos) ->
  pieceAt b r c = Ret t ->
  (forall q, t = Some q -> color q <> me) ->
  soundMoves b pos me acc ->
  soundMoves b pos me (pushValid (mkPosition r c) acc).
Proof.
  intros V Hne Ht Hq Ha. unfold soundMoves, pushValid. simpl.
  apply Forall_app. split; [exact Ha|].
  constructor; [|constructor].
  split; [exact V|]. split; [exact Hne|]. exists t. auto.
Qed.

Lemma stepMove_sound pos pc b d acc :
  d <> (0, 0) -> soundMoves b pos (color pc) acc ->
  ensures (soundMoves b pos (color pc)) (stepMove pos pc b d acc).
Proof.
  intros Hd Ha. unfold stepMove.
  assert (Hne : (row pos + d.1, col pos + d.2) <> (row pos, col pos)).
  { intros E. inversion E. apply Hd. destruct d as [d1 d2]. simpl in *. f_equal; lia. }
  destruct (isValidPosition _ _) eqn:V; [|apply ensures_Ret; exact Ha].
  eapply ensures_bind; [apply ensures_self|]. intros [t|] Ht; cbv beta iota.
  - destruct (negb _) eqn:E; apply ensures_Ret; [|exact Ha].
    apply pushValid_sound with (t := Some t);
      [exact V | exact Hne | exact Ht | | exact Ha].
    intros q Hq. inversion Hq; subst. apply color_neqb. exact E.
  - apply ensures_Ret.
    apply pushValid_sound with (t := None);
      [exact V | exact Hne | exact Ht | discriminate | exact Ha].
Qed.

Lemma walkLine_sound pos pc b dr dc :
  (dr, dc) <> (0, 0) ->
  forall n k r c acc,
    1 <= k -> r = row pos + k * dr -> c = col pos + k * dc ->
    soundMoves b pos (color pc) acc ->
    ensures (soundMoves b pos (color pc)) (walkLine n pc b dr dc r c acc).
Proof.
  intros Hd. induction n as [|n IH]; intros k r c acc Hk Hr Hc Ha; simpl.
  - destruct (isValidPosition r c); [intros a H; discriminate|].
    apply ensures_Ret. exact Ha.
  - destruct (isValidPosition r c) eqn:V; [|apply ensures_Ret; exact Ha].
    assert (Hne : (r, c) <> (row pos, col pos)).
    { intros E. inversion E. apply Hd.
      assert (dr = 0) by nia. assert (dc = 0) by nia. congruence. }
    eapply ensures_bind; [apply ensures_self|]. intros [t|] Ht; cbv beta iota.
    + destruct (negb _) eqn:E; apply ensures_Ret; [|exact Ha].
      apply pushValid_sound with (t := Some t);
        [exact V | exact Hne | exact Ht | | exact Ha].
      intros q Hq. inversion Hq; subst. apply color_neqb. exact E.
    + apply (IH (k + 1)); [lia | lia | lia |].
      apply pushValid_sound with (t := None);
        [exact V | exact Hne | exact Ht | discriminate | exact Ha].
Qed.

Lemma calculateLineMovementsRaw_sound pos dirs acc b pc :
  Forall (fun d => d <> (0, 0)) dirs ->
  pieceAt b (row pos) (col pos) = Ret (Some pc) ->
  soundMoves b pos (color pc) acc ->
  ensures (soundMoves b pos (color pc)) (calculateLineMovementsRaw pos dirs acc b).
Proof.
  intros Hd Hp Ha. unfold calculateLineMovementsRaw.
  apply (ensures_bind_Ret _ _ _ _ Hp). cbv beta iota.
  apply ensures_foldM; [|exact Ha]. intros [dr dc] a Hin Ha'. simpl.
  rewrite Forall_forall in Hd.
  apply (walkLine_sound pos pc b dr dc (Hd _ (proj2 (list_elem_of_In _ _) Hin)) 8 1);
    [lia | lia | lia | exact Ha'].
Qed.

Lemma rookDirections_nonzero : Forall (fun d : Z * Z => d <> (0, 0)) rookDirections.
Proof. repeat constructor; discriminate. Qed.

Lemma bishopDirections_nonzero : Forall (fun d : Z * Z => d <> (0, 0)) bishopDirections.
Proof. repeat constructor; discriminate. Qed.

Lemma calculatePawnMovesRaw_sound this pos acc b pc :
  pieceAt b (row pos) (col pos) = Ret (Some pc) ->
  soundMoves b pos (color pc) acc ->
  ensures (soundMoves b pos (color pc)) (calculatePawnMovesRaw this pos acc b).
Proof.
  intros Hp Ha. unfold calculatePawnMovesRaw.
  apply (ensures_bind_Ret _ _ _ _ Hp). cbv beta iota.
  set (direction := if color_eqb (color pc) WHITE then -1 else 1).
  assert (Hdir : direction = -1 \/ direction = 1)
    by (unfold direction; destruct (color_eqb _ _); auto).
  assert (N1 : forall c, (row pos + direction, c) <> (row pos, col pos)).
  { intros c E. inversion E. lia. }
  assert (N2 : forall c, (row pos + 2 * direction, c) <> (row pos, col pos)).
  { intros c E. inversion E. lia. }
  eapply ensures_bind with (Q := soundMoves b pos (color pc)).
  { destruct (isValidPosition (row pos + direction) (col pos)) eqn:V1;
      [|apply ensures_Ret; exact Ha].
    eapply ensures_bind; [apply ensures_self|]. intros [t1|] H1; cbv beta iota.
    { apply ensures_Ret. exact Ha. }
    assert (A1 : soundMoves b pos (color pc)
                   (pushValid (mkPosition (row pos + direction) (col pos)) acc)).
    { apply pushValid_sound with (t := None);
        [exact V1 | apply N1 | exact H1 | discriminate | exact Ha]. }
    destruct (row pos =? _); simpl; [|apply ensures_Ret; exact A1].
    destruct (isValidPosition (row pos + 2 * direction) (col pos)) eqn:V2;
      [|apply ensures_Ret; exact A1].
    eapply ensures_bind; [apply ensures_self|]. intros [t2|] H2; cbv beta iota;
      apply ensures_Ret; [exact A1|].
    apply pushValid_sound with (t := None);
      [exact V2 | apply N2 | exact H2 | discriminate | exact A1]. }
  intros acc1 A1. apply ensures_foldM; [|exact A1].
  intros off a _ Ha'. unfold pawnCapture.
  destruct (isValidPosition _ _) eqn:V; [|apply ensures_Ret; exact Ha'].
  eapply ensures_bind; [apply ensures_self|]. intros [t|] Ht; cbv beta iota.
  - destruct (negb _) eqn:E; apply ensures_Ret; [|exact Ha'].
    apply pushValid_sound with (t := Some t);
      [exact V | apply N1 | exact Ht | | exact Ha'].
    intros q Hq. inversion Hq; subst. apply color_neqb. exact E.
  - eapply ensures_bind with (Q := fun _ => True); [intros ? _; exact I|].
    intros [|] _; apply ensures_Ret; [|exact Ha'].
    apply pushValid_sound with (t := None);
      [exact V | apply N1 | exact Ht | discriminate | exact Ha'].
Qed.

Lemma calculateKnightMovesRaw_sound pos acc b pc :
  pieceAt b (row pos) (col pos) = Ret (Some pc) ->
  soundMoves b pos (color pc) acc ->
  ensures (soundMoves b pos (color pc)) (calculateKnightMovesRaw pos acc b).
Proof.
  intros Hp Ha. unfold calculateKnightMovesRaw.
  apply (ensures_bind_Ret _ _ _ _ Hp). cbv beta iota.
  apply ensures_foldM; [|exact Ha]. intros d a Hin Ha'.
  apply stepMove_sound; [|exact Ha'].
  simpl in Hin. intuition (subst; discriminate).
Qed.

Lemma calculateKingMovesRaw_sound castle pos acc b pc :
  castleClear castle b ->
  pieceAt b (row pos) (col pos) = Ret (Some pc) ->
  soundMoves b pos (color pc) acc ->
  ensures (soundMoves b pos (color pc)) (calculateKingMovesRaw castle pos acc b).
Proof.
  intros Hc Hp Ha. unfold calculateKingMovesRaw.
  apply (ensures_bind_Ret _ _ _ _ Hp). cbv beta iota.
  eapply ensures_bind with (Q := soundMoves b pos (color pc)).
  { apply ensures_foldM; [|exact Ha]. intros d a Hin Ha'.
    apply stepMove_sound; [|exact Ha'].
    simpl in Hin. intuition (subst; discriminate). }
  intros acc1 H1. destruct (negb (hasMoved pc)); simpl; [|apply ensures_Ret; exact H1].
  destruct (col pos =? 4) eqn:E; [|apply ensures_Ret; exact H1].
  apply Z.eqb_eq in E.
  set (r := if color_eqb (color pc) WHITE then 7 else 0).
  assert (Hr : r = 7 \/ r = 0) by (unfold r; destruct (color_eqb _ _); auto).
  assert (N : forall c, c <> 4 -> (r, c) <> (row pos, col pos)).
  { intros c Hc' Heq. inversion Heq. lia. }
  assert (V : forall c, 0 <= c < 8 -> isValidPosition r c = true).
  { intros c Hc'. apply isValidPosition_iff. lia. }
  destruct (Hc r) as [Hk Hq].
  eapply ensures_bind; [apply ensures_self|]. intros ks Eks.
  eapply ensures_bind; [apply ensures_self|]. intros qs Eqs.
  apply ensures_Ret.
  assert (A2 : soundMoves b pos (color pc)
                 (if ks then pushValid (mkPosition r 6) acc1 else acc1)).
  { destruct ks; [|exact H1].
    apply pushValid_sound with (t := None);
      [apply V; lia | apply N; lia | apply Hk; exact Eks | discriminate | exact H1]. }
  destruct qs; [|exact A2].
  apply pushValid_sound with (t := None);
    [apply V; lia | apply N; lia | apply Hq; exact Eqs | discriminate | exact A2].
Qed.

Lemma calculateRawMovesByPieceTypeWith_sound castle this pos ty b pc :
  castleClear castle b ->
  pieceAt b (row pos) (col pos) = Ret (Some pc) ->
  ensures (Forall (goodMove b pos (color pc)))
          (calculateRawMovesByPieceTypeWith castle this pos ty b).
Proof.
  intros Hc Hp. unfold calculateRawMovesByPieceTypeWith.
  assert (A0 : soundMoves b pos (color pc) ([], [])) by constructor.
  eapply ensures_bind with (Q := soundMoves b pos (color pc));
    [|intros acc Ha; apply ensures_Ret; exact Ha].
  destruct ty.
  - apply calculatePawnMovesRaw_sound; assumption.
  - apply calculateLineMovementsRaw_sound; auto using rookDirections_nonzero.
  - apply calculateKnightMovesRaw_sound; assumption.
  - apply calculateLineMovementsRaw_sound; auto using bishopDirections_nonzero.
  - unfold calculateQueenMovesRaw.
    eapply ensures_bind with (Q := soundMoves b pos (color pc)).
    + apply calculateLineMovementsRaw_sound; auto using rookDirections_nonzero.
    + intros acc1 A1.
      apply calculateLineMovementsRaw_sound; auto using bishopDirections_nonzero.
  - apply calculateKingMovesRaw_sound; assumption.
Qed.

Lemma isCastlingPossible_clear fuel s : castleClear (isCastlingPossible fuel s) (board s).
Proof.
  intros r. split; intros H;
    apply isCastlingPossible_true in H
      as (king & rook & _ & _ & _ & _ & _ & _ & _ & H & _);
    simpl in H; apply H; lia.
Qed.

(** The raw moves of a piece, computed on the live board. *)
Lemma calculateRawMovesByPieceType_sound fuel s pos ty pc ms :
  pieceAt (board s) (row pos) (col pos) = Ret (Some pc) ->
  calculateRawMovesByPieceType fuel s pos ty (board s) = Ret ms ->
  Forall (goodMove (board s) pos (color pc)) ms.
Proof.
  intros Hp H.
  exact (calculateRawMovesByPieceTypeWith_sound _ s pos ty (board s) pc
           (isCastlingPossible_clear fuel s) Hp ms H).
Qed.

Lemma getValidMovesForPiece_sound fuel s pos pc ms :
  pieceAt (board s) (row pos) (col pos) = Ret (Some pc) ->
  getValidMovesForPiece fuel s pos = Ret ms ->
  Forall (goodMove (board s) pos (color pc)) ms.
Proof.
  intros Hp H. unfold getValidMovesForPiece in H. rewrite Hp in H. simpl in H.
  bind_inv H. apply (calculateRawMovesByPieceType_sound _ _ _ _ _ _ Hp) in Hm.
  rewrite Forall_forall in Hm |- *. intros mv Hin.
  apply Hm. apply list_elem_of_In.
  apply list_elem_of_In in Hin.
  exact (proj1 (filterM_Ret _ _ _ H mv Hin)).
Qed.

(** X5. Every destination [getValidMovesForPiece] returns for the piece on
    [pos] is a square of the board, is not [pos] itself, and is empty or
    holds a piece of the other colour: no legal move leaves the board,
    stays in place or lands on a piece of the mover's own side. *)
Theorem legal_destinations_sound (fuel : nat) (s : ChessGameState)
    (pos mv : Position) (pc : Piece) (ms : ValidMoves) :
  pieceAt (board s) (row pos) (col pos) = Ret (Some pc) ->
  getValidMovesForPiece fuel s pos = Ret ms ->
  In mv ms ->
  isValidPosition (row mv) (col mv) = true /\
  (row mv, col mv) <> (row pos, col pos) /\
  (pieceAt (board s) (row mv) (col mv) = Ret None \/
   exists q, pieceAt (board s) (row mv) (col mv) = Ret (Some q) /\
             color q <> color pc).
Proof.
  intros Hp H Hin.
  pose proof (getValidMovesForPiece_sound _ _ _ _ _ Hp H) as F.
  rewrite Forall_forall in F.
  destruct (F mv (proj2 (list_elem_of_In _ _) Hin)) as (V & Hne & t & Ht & Hq).
  split; [exact V|]. split; [exact Hne|].
  destruct t as [q|]; [right | left; exact Ht].
  exists q. split; [exact Ht|]. apply Hq. reflexivity.
Qed.

Lemma legal_destinations_sound_witness :
  let s := afterPlay 3 classic [move 6 4 4 4; move 1 3 3 3] in
  isValidPosition 3 3 = true /\
  (3, 3) <> (4, 4) /\
  (pieceAt (board s) 3 3 = Ret None \/
   exists q, pieceAt (board s) 3 3 = Ret (Some q) /\ color q <> WHITE).
Proof.
  intros s.
  apply (legal_destinations_sound 3 s (square 4 4) (square 3 3)
           (mkPiece PAWN WHITE true) [square 3 4; square 3 3]).
  - vm_compute. reflexivity.
  - vm_compute. reflexivity.
  - simpl. auto.
Defined.


(** ** What the calls write on the board *)

Lemma board_handlePostMove fuel s s' :
  handlePostMove fuel s = Ret s' -> board s' = board s.
Proof.
  intros H. apply handlePostMove_shape in H as [m H]. rewrite H.
  unfold afterDetection. destruct (isInCheck s'); simpl; apply board_advanceTurn.
Qed.

(** The three ways a call of [movePiece] succeeds. *)
Lemma movePiece_cases fuel s from to s' :
  movePiece fuel s from to = Ret (true, s') ->
  exists pc,
    pieceAt (board s) (row from) (col from) = Ret (Some pc) /\
    if castlingShape pc from to then
      let r := homeRow (color pc) in
      let kingTo := if col to =? 6 then 6 else 2 in
      let rookTo := if col to =? 6 then 5 else 3 in
      let rookCol := if col to =? 6 then 7 else 0 in
      isCastlingPossible fuel s (mkPosition r 4) (mkPosition r rookCol) = Ret true /\
      exists s1, castle s pc r kingTo rookTo rookCol = Ret s1 /\
                 handlePostMove fuel s1 = Ret s'
    else ordinaryMove fuel s pc from to = Ret (true, s').
Proof.
  intros H. unfold movePiece in H.
  repeat (destruct (_ && _) in H; [discriminate|]).
  bind_inv H. destruct a as [pc|]; [|discriminate].
  exists pc. split; [exact Hm|].
  unfold castlingShape, homeRow.
  destruct (type_eqb (type pc) KING && (col from =? 4)); cbn [andb orb] in H |- *;
    [|exact H].
  destruct (col to =? 6); cbn [andb orb] in H |- *.
  { bind_inv H. destruct a; [|discriminate]. cbn [negb] in H.
    bind_inv H. bind_inv H. inversion H; subst. eauto. }
  destruct (col to =? 2); cbn [andb orb] in H |- *; [|exact H].
  bind_inv H. destruct a; [|discriminate]. cbn [negb] in H.
  bind_inv H. bind_inv H. inversion H; subst. eauto.
Qed.

(** The steps of a successful move outside the castling branches. *)
Lemma ordinaryMove_steps fuel s pc from to s' :
  ordinaryMove fuel s pc from to = Ret (true, s') ->
  exists valid ep b1 b2 b3,
    getValidMovesForPiece fuel s from = Ret valid /\
    existsb (fun mv => samePosition mv to) valid = true /\
    (if type_eqb (type pc) PAWN then isEnPassantPossible s from to else Ret false)
    = Ret ep /\
    (if ep then setPiece (board s) (row from) (col to) None else Ret (board s))
    = Ret b1 /\
    setPiece b1 (row to) (col to) (Some (mkPiece (type pc) (color pc) true)) = Ret b2 /\
    setPiece b2 (row from) (col from) None = Ret b3 /\
    board s' = b3.
Proof.
  unfold ordinaryMove. intros H. bind_inv H.
  destruct (existsb _ a) eqn:E; [|discriminate]. cbn [negb] in H.
  do 5 bind_inv H. inversion H; subst.
  exists a, a0, a1, a2, a3. do 6 (split; [assumption|]).
  match goal with
  | P : handlePostMove _ _ = Ret _ |- _ => apply board_handlePostMove in P; exact P
  end.
Qed.

Lemma movePiece_rewritten fuel s from to ok s' :
  movePiece fuel s from to = Ret (ok, s') -> rewritten (board s) (board s').
Proof.
  intros H. destruct ok.
  2:{ apply movePiece_inv in H as [[_ ->] | (H & _)]; [constructor|discriminate]. }
  apply movePiece_cases in H as (pc & _ & H).
  assert (M : forall t c q, Some (mkPiece t c true) = Some q -> hasMoved q = true)
    by (intros t c q E; inversion E; reflexivity).
  assert (N : forall q : Piece, None = Some q -> hasMoved q = true) by discriminate.
  destruct (castlingShape pc from to).
  - destruct H as (_ & s1 & Hc & Hp). apply board_handlePostMove in Hp. rewrite Hp.
    unfold castle in Hc. do 4 bind_inv Hc. inversion Hc; subst. simpl.
    eapply rewritten_step; [eassumption | apply M |].
    eapply rewritten_step; [eassumption | apply M |].
    eapply rewritten_step; [eassumption | apply N |].
    eapply rewritten_one; [eassumption | apply N].
  - apply ordinaryMove_steps in H as (valid & ep & b1 & b2 & b3 & _ & _ & _ & H1 & H2 & H3 & ->).
    apply rewritten_trans with b1.
    + destruct ep; [eapply rewritten_one; [eassumption | apply N]|].
      inversion H1. constructor.
    + eapply rewritten_step; [eassumption | apply M |].
      eapply rewritten_one; [eassumption | apply N].
Qed.

Lemma promotePawn_rewritten fuel s pos ty s' :
  promotePawn fuel s pos ty = Ret s' -> rewritten (board s) (board s').
Proof.
  unfold promotePawn. intros H. bind_inv H.
  destruct a as [pc|]; [|inversion H; constructor].
  destruct (negb (type_eqb _ _)); [inversion H; constructor|].
  destruct (negb _); [inversion H; constructor|].
  bind_inv H. bind_inv H.
  match goal with
  | P : checkForCheck _ _ = Ret _ |- _ => apply checkForCheck_frame in P as [c ->]
  end.
  match goal with
  | P : setPiece _ _ _ _ = Ret ?b |- _ =>
      assert (E : board s' = b);
        [|rewrite E; eapply rewritten_one; [exact P|];
          intros q Hq; inversion Hq; reflexivity]
  end.
  destruct (isSome _); [|inversion H; reflexivity].
  apply checkForCheckmate_frame in H as [m ->]. reflexivity.
Qed.

Lemma run_rewritten fuel op s r s' :
  run fuel op s = Ret (r, s') ->
  rewritten (board s) (board s') \/ board s' = createInitialBoard.
Proof.
  intros H. destruct op; simpl in H.
  - inversion H; subst. left. constructor.
  - bind_inv H. inversion H; subst.
    apply selectPiece_frame in Hm as (p & v & b & ->). left. constructor.
  - inversion H; subst. left. constructor.
  - bind_inv H. destruct a as [ok s1]. inversion H; subst.
    left. eapply movePiece_rewritten; eauto.
  - inversion H; subst. left. unfold rollDice. destruct (_ || _); constructor.
  - inversion H; subst. left. unfold tossCoin. destruct (_ || _); constructor.
  - bind_inv H. inversion H; subst. left. eapply promotePawn_rewritten; eauto.
  - inversion H; subst. right. reflexivity.
Qed.

Lemma setPiece_labelled b r c p b' :
  squaresLabelled b -> setPiece b r c p = Ret b' -> squaresLabelled b'.
Proof.
  intros L H. apply setPiece_Ret in H as (l & sq & Hr & El & Hc & Es & ->).
  intros r' c' l' sq' Hl' Hs'.
  destruct (decide (r' = Z.to_nat r)) as [->|Nr].
  - rewrite list_lookup_insert_eq in Hl' by (eapply lookup_lt_Some; eauto).
    inversion Hl'; subst l'; clear Hl'.
    destruct (decide (c' = Z.to_nat c)) as [->|Nc].
    + rewrite list_lookup_insert_eq in Hs' by (eapply lookup_lt_Some; eauto).
      inversion Hs'; subst sq'. simpl. eapply L; eauto.
    + rewrite list_lookup_insert_ne in Hs' by auto. eapply L; eauto.
  - rewrite list_lookup_insert_ne in Hl' by auto. eapply L; eauto.
Qed.

Lemma rewritten_labelled b b' :
  rewritten b b' -> squaresLabelled b -> squaresLabelled b'.
Proof. induction 1; intros; eauto using setPiece_labelled. Qed.

Lemma setPiece_unmoved b r c p b' :
  (forall q, p = Some q -> hasMoved q = true) ->
  unmovedAtHome b -> setPiece b r c p = Ret b' -> unmovedAtHome b'.
Proof.
  intros Hp U H r' c' q Hq Hm.
  destruct (decide ((r', c') = (r, c))) as [E|E].
  - inversion E; subst.
    rewrite (pieceAt_setPiece_eq _ _ _ _ _ H) in Hq. inversion Hq; subst.
    rewrite (Hp q eq_refl) in Hm. discriminate.
  - rewrite (pieceAt_setPiece_ne _ _ _ _ _ _ _ H E) in Hq. apply U; assumption.
Qed.

Lemma rewritten_unmoved b b' :
  rewritten b b' -> unmovedAtHome b -> unmovedAtHome b'.
Proof. induction 1; intros; eauto using setPiece_unmoved. Qed.

Lemma createInitialBoard_labelled : squaresLabelled createInitialBoard.
Proof.
  intros r c l sq Hr Hc.
  let b := eval vm_compute in createInitialBoard in
  change createInitialBoard with b in Hr.
  do 8 (destruct r as [|r];
        [simpl in Hr; inversion Hr; subst l; clear Hr;
         do 8 (destruct c as [|c]; [simpl in Hc; inversion Hc; reflexivity|]);
         simpl in Hc; discriminate|]).
  simpl in Hr. discriminate.
Qed.

(** The board a call leaves, returning or not: the board it found with
    some squares rewritten, or the initial one. *)
Lemma leaves_rewritten fuel op s :
  rewritten (board s) (board (leaves fuel op s)) \/
  board (leaves fuel op s) = createInitialBoard.
Proof.
  destruct (leaves_cases fuel op s) as [[r H] | (e & _ & H)].
  - exact (run_rewritten _ _ _ _ _ H).
  - left. exact (halfDone_rewritten _ _ _ H).
Qed.

Lemma reachable_labelled g s : reachable g s -> squaresLabelled (board s).
Proof.
  induction 1 as [|fuel op s _ _ IH].
  - apply createInitialBoard_labelled.
  - destruct (leaves_rewritten fuel op s) as [R | ->].
    + eapply rewritten_labelled; eauto.
    + apply createInitialBoard_labelled.
Qed.

Lemma createInitialBoard_unmoved : unmovedAtHome createInitialBoard.
Proof. intros r c p H _. exact H. Qed.

Lemma reachable_unmoved g s : reachable g s -> unmovedAtHome (board s).
Proof.
  induction 1 as [|fuel op s _ _ IH].
  - apply createInitialBoard_unmoved.
  - destruct (leaves_rewritten fuel op s) as [R | E].
    + eapply rewritten_unmoved; eauto.
    + rewrite E. apply createInitialBoard_unmoved.
Qed.

(** X6. The board of every reachable state is eight rows of eight squares,
    and the square at row [r], column [c] carries [{row: r, col: c}] in its
    [position] field: no call reshapes the board or relabels a square. *)
Theorem board_shape_kept (g : GameType) (s : ChessGameState) :
  reachable g s ->
  length (board s) = 8%nat /\
  Forall (fun l => length l = 8%nat) (board s) /\
  forall r c, isValidPosition r c = true ->
    exists l sq, index (board s) r = Ret l /\ index l c = Ret sq /\
                 position sq = mkPosition r c.
Proof.
  intros R. pose proof (reachable_wf _ _ R) as W.
  pose proof (reachable_labelled _ _ R) as L.
  split; [exact (proj1 W)|]. split; [exact (proj2 W)|].
  intros r c V. apply isValidPosition_iff in V as [Hr Hc].
  destruct (wfBoard_row _ r W Hr) as (l & El & Ll).
  destruct (lookup_lt_is_Some_2 l (Z.to_nat c)) as [sq Es]; [lia|].
  exists l, sq. split; [apply index_Ret; split; [lia | exact El]|].
  split; [apply index_Ret; split; [lia | exact Es]|].
  rewrite (L _ _ _ _ El Es). f_equal; lia.
Qed.

Lemma board_shape_kept_witness :
  let s := afterPlay 3 classic promotionGame in
  length (board s) = 8%nat /\
  Forall (fun l => length l = 8%nat) (board s) /\
  forall r c, isValidPosition r c = true ->
    exists l sq, index (board s) r = Ret l /\ index l c = Ret sq /\
                 position sq = mkPosition r c.
Proof.
  apply (board_shape_kept classic).
  eapply (play_reachable classic 5 promotionGame (constructor classic));
    [lia | apply reachable_new | vm_compute; reflexivity].
Defined.

(** Where the initial board has its pieces. *)
Lemma initial_pieces r c p :
  pieceAt createInitialBoard r c = Ret (Some p) ->
  (type p = KING -> c = 4 /\ r = homeRow (color p)) /\
  (type p = ROOK -> (c = 0 \/ c = 7) /\ r = homeRow (color p)) /\
  (type p = PAWN -> r = if color_eqb (color p) WHITE then 6 else 1).
Proof.
  intros H.
  destruct (isValidPosition r c) eqn:V.
  2:{ rewrite (pieceAt_out_of_range _ _ _ createInitialBoard_wf V) in H. discriminate. }
  apply isValidPosition_iff in V as [Hr Hc].
  assert (Er : r = 0 \/ r = 1 \/ r = 2 \/ r = 3 \/ r = 4 \/ r = 5 \/ r = 6 \/ r = 7) by lia.
  assert (Ec : c = 0 \/ c = 1 \/ c = 2 \/ c = 3 \/ c = 4 \/ c = 5 \/ c = 6 \/ c = 7) by lia.
  clear Hr Hc.
  repeat (destruct Er as [Er | Er]; [subst r|]); try subst r;
    repeat (destruct Ec as [Ec | Ec]; [subst c|]); try subst c;
    vm_compute in H; inversion H; subst p; vm_compute;
    (split; [|split]); intros; try discriminate; auto.
Qed.

(** X7. In every reachable state a piece whose [hasMoved] is false stands
    on the square where the initial board has that very piece: every
    assignment to a square sets [hasMoved] or clears the square.  So an
    unmoved king stands on column 4 of its colour's home row, an unmoved
    rook on column 0 or 7 of it, an unmoved pawn on its colour's pawn row. *)
Theorem unmoved_pieces_stand_at_home (g : GameType) (s : ChessGameState)
    (r c : Z) (p : Piece) :
  reachable g s ->
  pieceAt (board s) r c = Ret (Some p) ->
  hasMoved p = false ->
  pieceAt createInitialBoard r c = Ret (Some p) /\
  (type p = KING -> c = 4 /\ r = homeRow (color p)) /\
  (type p = ROOK -> (c = 0 \/ c = 7) /\ r = homeRow (color p)) /\
  (type p = PAWN -> r = if color_eqb (color p) WHITE then 6 else 1).
Proof.
  intros R H Hm. pose proof (reachable_unmoved _ _ R _ _ _ H Hm) as I.
  split; [exact I | exact (initial_pieces _ _ _ I)].
Qed.

Lemma unmoved_pieces_stand_at_home_witness :
  let s := afterPlay 3 classic castlingGame in
  pieceAt createInitialBoard 7 7 = Ret (Some (mkPiece ROOK WHITE false)) /\
  (ROOK = KING -> 7 = 4 /\ 7 = homeRow WHITE) /\
  (ROOK = ROOK -> (7 = 0 \/ 7 = 7) /\ 7 = homeRow WHITE) /\
  (ROOK = PAWN -> 7 = if color_eqb WHITE WHITE then 6 else 1).
Proof.
  intros s.
  apply (unmoved_pieces_stand_at_home classic s 7 7 (mkPiece ROOK WHITE false)).
  - eapply (play_reachable classic 5 castlingGame (constructor classic));
      [lia | apply reachable_new | vm_compute; reflexivity].
  - vm_compute. reflexivity.
  - reflexivity.
Defined.

Lemma samePosition_true a b :
  samePosition a b = true -> row a = row b /\ col a = col b.
Proof.
  unfold samePosition. intros H. apply andb_true_iff in H as [H1 H2].
  apply Z.eqb_eq in H1, H2. auto.
Qed.

(** X8. What a successful move outside the castling branches does to the
    board.  The destination is not the origin and held no piece of the
    mover's colour; afterwards it holds the moved piece, same type and
    colour, with [hasMoved] set (a pawn reaching the last row stays a
    pawn), and the origin is empty.  When the move is a pawn's en-passant
    capture the square beside the origin, in the destination's column, is
    emptied; every other square keeps its content. *)
Theorem ordinary_move_effect (fuel : nat) (s s' : ChessGameState)
    (from to : Position) (pc : Piece) :
  pieceAt (board s) (row from) (col from) = Ret (Some pc) ->
  castlingShape pc from to = false ->
  movePiece fuel s from to = Ret (true, s') ->
  (row to, col to) <> (row from, col from) /\
  (forall q, pieceAt (board s) (row to) (col to) = Ret (Some q) ->
             color q <> color pc) /\
  pieceAt (board s') (row to) (col to)
  = Ret (Some (mkPiece (type pc) (color pc) true)) /\
  pieceAt (board s') (row from) (col from) = Ret None /\
  exists ep,
    (if type_eqb (type pc) PAWN then isEnPassantPossible s from to else Ret false)
    = Ret ep /\
    forall r c,
      (r, c) <> (row from, col from) -> (r, c) <> (row to, col to) ->
      pieceAt (board s') r c
      = if ep && (r =? row from) && (c =? col to) then Ret None
        else pieceAt (board s) r c.
Proof.
  intros Hp Hshape H.
  apply movePiece_cases in H as (pc' & Hp' & H).
  rewrite Hp in Hp'. inversion Hp'; subst pc'; clear Hp'.
  rewrite Hshape in H.
  apply ordinaryMove_steps in H
    as (valid & ep & b1 & b2 & b3 & Hv & Hex & Hep & H1 & H2 & H3 & Hb).
  apply existsb_exists in Hex as (mv & Hin & Hsame).
  apply samePosition_true in Hsame as [Er Ec].
  pose proof (getValidMovesForPiece_sound _ _ _ _ _ Hp Hv) as F.
  rewrite Forall_forall in F.
  destruct (F mv (proj2 (list_elem_of_In _ _) Hin)) as (_ & Hne & t & Ht & Hq).
  rewrite Er, Ec in Hne, Ht. rewrite Hb. clear F Hin Er Ec mv.
  split; [exact Hne|]. split.
  { intros q Hq'. rewrite Hq' in Ht. inversion Ht; subst t. apply Hq. reflexivity. }
  split.
  { rewrite (pieceAt_setPiece_ne _ _ _ _ _ _ _ H3 Hne).
    eapply pieceAt_setPiece_eq. exact H2. }
  split; [eapply pieceAt_setPiece_eq; exact H3|].
  exists ep. split; [exact Hep|]. intros r c Nf Nt.
  rewrite (pieceAt_setPiece_ne _ _ _ _ _ _ _ H3 Nf).
  rewrite (pieceAt_setPiece_ne _ _ _ _ _ _ _ H2 Nt).
  destruct ep; simpl.
  - destruct (r =? row from) eqn:E1; simpl.
    + destruct (c =? col to) eqn:E2.
      * apply Z.eqb_eq in E1, E2. subst r c.
        eapply pieceAt_setPiece_eq. exact H1.
      * apply Z.eqb_neq in E2.
        apply (pieceAt_setPiece_ne _ _ _ _ _ _ _ H1). intros E. inversion E. lia.
    + apply Z.eqb_neq in E1.
      apply (pieceAt_setPiece_ne _ _ _ _ _ _ _ H1). intros E. inversion E. lia.
  - inversion H1. reflexivity.
Qed.

Lemma ordinary_move_effect_witness :
  let s0 := afterPlay 3 classic enPassantPinGame in
  exists s',
    movePiece 3 s0 (square 3 4) (square 2 3) = Ret (true, s') /\
    pieceAt (board s') 2 3 = Ret (Some (mkPiece PAWN WHITE true)) /\
    pieceAt (board s') 3 4 = Ret None /\
    pieceAt (board s') 3 3 = Ret None /\
    pieceAt (board s') 3 1 = pieceAt (board s0) 3 1.
Proof.
  intros s0.
  destruct (movePiece 3 s0 (square 3 4) (square 2 3)) as [[[|] s'] |] eqn:Hm;
    try (vm_compute in Hm; discriminate Hm).
  exists s'. split; [reflexivity|].
  destruct (ordinary_move_effect 3 s0 s' (square 3 4) (square 2 3)
              (mkPiece PAWN WHITE true))
    as (_ & _ & H3 & H4 & ep & Hep & H5);
    [vm_compute; reflexivity | reflexivity | exact Hm |].
  assert (E : ep = true) by (vm_compute in Hep; inversion Hep; reflexivity).
  subst ep.
  split; [exact H3|]. split; [exact H4|]. split.
  - exact (H5 3 3 ltac:(discriminate) ltac:(discriminate)).
  - exact (H5 3 1 ltac:(discriminate) ltac:(discriminate)).
Defined.

(** X9. What a castling move does to the board: on the home row [r] of the
    mover's colour the king's destination column (6 or 2) holds the moved
    piece and column 5 (resp. 3) a rook of its colour, both with [hasMoved]
    set, columns 4 and 7 (resp. 0) are empty, and every other square keeps
    its content.  The row of [to] plays no part. *)
Theorem castling_effect (fuel : nat) (s s' : ChessGameState)
    (from to : Position) (k : Piece) :
  pieceAt (board s) (row from) (col from) = Ret (Some k) ->
  castlingShape k from to = true ->
  movePiece fuel s from to = Ret (true, s') ->
  let r := homeRow (color k) in
  let kingTo := if col to =? 6 then 6 else 2 in
  let rookTo := if col to =? 6 then 5 else 3 in
  let rookCol := if col to =? 6 then 7 else 0 in
  pieceAt (board s') r kingTo = Ret (Some (mkPiece (type k) (color k) true)) /\
  pieceAt (board s') r rookTo = Ret (Some (mkPiece ROOK (color k) true)) /\
  pieceAt (board s') r 4 = Ret None /\
  pieceAt (board s') r rookCol = Ret None /\
  forall r' c',
    r' <> r \/ (c' <> kingTo /\ c' <> rookTo /\ c' <> 4 /\ c' <> rookCol) ->
    pieceAt (board s') r' c' = pieceAt (board s) r' c'.
Proof.
  intros Hp Hshape H.
  apply movePiece_cases in H as (pc' & Hp' & H).
  rewrite Hp in Hp'. inversion Hp'; subst pc'; clear Hp'.
  rewrite Hshape in H. cbv zeta in H. destruct H as (_ & s1 & Hc & Hh).
  apply board_handlePostMove in Hh. intros r kingTo rookTo rookCol. rewrite Hh.
  unfold castle in Hc. do 4 bind_inv Hc. inversion Hc; subst s1; clear Hc. simpl.
  fold r in Hm, Hm0, Hm1, Hm2.
  assert (D : forall c1 c2 : Z, c1 <> c2 -> (r, c1) <> (r, c2))
    by (intros c1 c2 N E; inversion E; contradiction).
  assert (C : (kingTo = 6 /\ rookTo = 5 /\ rookCol = 7) \/
              (kingTo = 2 /\ rookTo = 3 /\ rookCol = 0))
    by (unfold kingTo, rookTo, rookCol; destruct (col to =? 6); auto).
  fold kingTo in Hm. fold rookTo in Hm0. fold rookCol in Hm2.
  clearbody kingTo rookTo rookCol r.
  split; [|split; [|split; [|split]]].
  - rewrite (pieceAt_setPiece_ne _ _ _ _ _ _ _ Hm2) by (apply D; lia).
    rewrite (pieceAt_setPiece_ne _ _ _ _ _ _ _ Hm1) by (apply D; lia).
    rewrite (pieceAt_setPiece_ne _ _ _ _ _ _ _ Hm0) by (apply D; lia).
    eapply pieceAt_setPiece_eq. exact Hm.
  - rewrite (pieceAt_setPiece_ne _ _ _ _ _ _ _ Hm2) by (apply D; lia).
    rewrite (pieceAt_setPiece_ne _ _ _ _ _ _ _ Hm1) by (apply D; lia).
    eapply pieceAt_setPiece_eq. exact Hm0.
  - rewrite (pieceAt_setPiece_ne _ _ _ _ _ _ _ Hm2) by (apply D; lia).
    eapply pieceAt_setPiece_eq. exact Hm1.
  - eapply pieceAt_setPiece_eq. exact Hm2.
  - intros r' c' N.
    assert (N' : forall c, c = kingTo \/ c = rookTo \/ c = 4 \/ c = rookCol ->
                           (r', c') <> (r, c)).
    { intros c Hc E. inversion E. subst. lia. }
    rewrite (pieceAt_setPiece_ne _ _ _ _ _ _ _ Hm2) by (apply N'; auto).
    rewrite (pieceAt_setPiece_ne _ _ _ _ _ _ _ Hm1) by (apply N'; auto).
    rewrite (pieceAt_setPiece_ne _ _ _ _ _ _ _ Hm0) by (apply N'; auto).
    apply (pieceAt_setPiece_ne _ _ _ _ _ _ _ Hm). apply N'. auto.
Qed.

Lemma castling_effect_witness :
  let s := afterPlay 3 classic castlingGame in
  let s' := afterPlay 3 classic (castlingGame ++ [move 7 4 0 6]) in
  movePiece 3 s (square 7 4) (square 0 6) = Ret (true, s') /\
  pieceAt (board s') 7 6 = Ret (Some (mkPiece KING WHITE true)) /\
  pieceAt (board s') 7 5 = Ret (Some (mkPiece ROOK WHITE true)) /\
  pieceAt (board s') 7 4 = Ret None /\
  pieceAt (board s') 7 7 = Ret None /\
  pieceAt (board s') 0 6 = pieceAt (board s) 0 6.
Proof.
  intros s s'.
  assert (Hm : movePiece 3 s (square 7 4) (square 0 6) = Ret (true, s'))
    by (vm_compute; reflexivity).
  split; [exact Hm|].
  destruct (castling_effect 3 s s' (square 7 4) (square 0 6) (mkPiece KING WHITE false))
    as (H1 & H2 & H3 & H4 & H5);
    [vm_compute; reflexivity | reflexivity | exact Hm |].
  split; [exact H1|]. split; [exact H2|]. split; [exact H3|]. split; [exact H4|].
  apply H5. left. discriminate.
Defined.

(** X10. A successful move outside the castling branches records itself in
    [lastMove], with the piece as it stood before the move.  Right after
    it, [isEnPassantPossible] answers true only if that move was a pawn's
    two-row step, and then only for a pawn of the other colour standing
    beside the square the pawn arrived on, capturing into its column. *)
Theorem move_opens_en_passant_window (fuel : nat) (s s' : ChessGameState)
    (from to : Position) (pc : Piece) :
  pieceAt (board s) (row from) (col from) = Ret (Some pc) ->
  castlingShape pc from to = false ->
  movePiece fuel s from to = Ret (true, s') ->
  lastMove s' = Some (mkLastMove from to pc) /\
  forall f t,
    isEnPassantPossible s' f t = Ret true ->
    type pc = PAWN /\
    Z.abs (row to - row from) = 2 /\
    row f = row to /\ col t = col to /\ Z.abs (col t - col f) = 1 /\
    exists q, pieceAt (board s') (row f) (col f) = Ret (Some q) /\
              type q = PAWN /\ color q <> color pc.
Proof.
  intros Hp Hshape H.
  apply movePiece_cases in H as (pc' & Hp' & H).
  rewrite Hp in Hp'. inversion Hp'; subst pc'; clear Hp'.
  rewrite Hshape in H.
  apply ordinary_move_records_lastMove in H.
  split; [exact H|]. intros f t He.
  unfold isEnPassantPossible in He. bind_inv He.
  destruct a as [q|]; [|discriminate].
  destruct (type_eqb (type q) PAWN) eqn:E1; [|discriminate].
  destruct (Z.abs (col t - col f) =? 1) eqn:E2; [|discriminate].
  rewrite H in He. simpl in He.
  apply type_eqb_eq in E1. apply Z.eqb_eq in E2.
  destruct (color_eqb (color q) WHITE) eqn:E3; inversion He as [E]; clear He;
    repeat (apply andb_true_iff in E as [E ?]);
    repeat match goal with
           | P : (_ =? _) = true |- _ => apply Z.eqb_eq in P
           | P : type_eqb _ _ = true |- _ => apply type_eqb_eq in P
           | P : color_eqb _ _ = true |- _ => apply color_eqb_eq in P
           end;
    (split; [assumption|]); (split; [lia|]); (split; [lia|]);
    (split; [lia|]); (split; [exact E2|]);
    exists q; (split; [exact Hm|]); (split; [exact E1|]);
    destruct (color q), (color pc); simpl in *; congruence.
Qed.

Lemma move_opens_en_passant_window_witness :
  let s := afterPlay 3 classic
             [move 6 4 4 4; move 1 0 3 0; move 7 4 6 4; move 0 0 2 0; move 6 4 5 4;
              move 2 0 2 1; move 5 4 4 5; move 3 0 4 0; move 4 4 3 4; move 4 0 5 0;
              move 4 5 3 6; move 2 1 3 1; move 6 7 5 7] in
  let s' := afterPlay 3 classic enPassantPinGame in
  movePiece 3 s (square 1 3) (square 3 3) = Ret (true, s') /\
  isEnPassantPossible s' (square 3 4) (square 2 3) = Ret true /\
  lastMove s' = Some (mkLastMove (square 1 3) (square 3 3) (mkPiece PAWN BLACK false)).
Proof.
  intros s s'.
  assert (Hm : movePiece 3 s (square 1 3) (square 3 3) = Ret (true, s'))
    by (vm_compute; reflexivity).
  split; [exact Hm|]. split; [vm_compute; reflexivity|].
  destruct (move_opens_en_passant_window 3 s s' (square 1 3) (square 3 3)
              (mkPiece PAWN BLACK false))
    as (H1 & _); [vm_compute; reflexivity | reflexivity | exact Hm |].
  exact H1.
Defined.


(** ** What move generation reads of the state *)

Lemma view_isEnPassantPossible s1 s2 from to :
  sameView s1 s2 -> isEnPassantPossible s1 from to = isEnPassantPossible s2 from to.
Proof.
  intros (Hb & _ & Hl). unfold isEnPassantPossible. rewrite Hb, Hl. reflexivity.
Qed.

Lemma view_calculatePawnMovesRaw s1 s2 pos acc b :
  sameView s1 s2 -> calculatePawnMovesRaw s1 pos acc b = calculatePawnMovesRaw s2 pos acc b.
Proof.
  intros Hv. unfold calculatePawnMovesRaw.
  apply bind_ext. intros [pc|]; [|reflexivity]. cbv zeta.
  apply bind_ext. intros acc1. apply foldM_ext. intros off a.
  unfold pawnCapture. cbv zeta.
  destruct (isValidPosition _ _); [|reflexivity].
  apply bind_ext. intros [t|]; [reflexivity|].
  rewrite (view_isEnPassantPossible s1 s2 _ _ Hv). reflexivity.
Qed.

Section ViewWith.
Variables castle1 castle2 : Position -> Position -> outcome bool.
Variables s1 s2 : ChessGameState.
Hypothesis Hcastle : forall k r, castle1 k r = castle2 k r.
Hypothesis Hview : sameView s1 s2.

Lemma view_calculateKingMovesRaw pos acc b :
  calculateKingMovesRaw castle1 pos acc b = calculateKingMovesRaw castle2 pos acc b.
Proof.
  unfold calculateKingMovesRaw.
  apply bind_ext. intros [pc|]; [|reflexivity].
  apply bind_ext. intros acc1.
  destruct (_ && _); [|reflexivity]. cbv zeta. rewrite !Hcastle. reflexivity.
Qed.

Lemma view_calculateRawMovesByPieceTypeWith pos ty b :
  calculateRawMovesByPieceTypeWith castle1 s1 pos ty b
  = calculateRawMovesByPieceTypeWith castle2 s2 pos ty b.
Proof.
  unfold calculateRawMovesByPieceTypeWith. destruct ty; try reflexivity.
  - rewrite (view_calculatePawnMovesRaw s1 s2 _ _ _ Hview). reflexivity.
  - rewrite view_calculateKingMovesRaw. reflexivity.
Qed.

Lemma view_isSquareUnderAttackWith target byColor b :
  isSquareUnderAttackWith castle1 s1 target byColor b
  = isSquareUnderAttackWith castle2 s2 target byColor b.
Proof.
  unfold isSquareUnderAttackWith. apply existsM_ext. intros sq.
  unfold attacksFrom. apply bind_ext. intros [pc|]; [|reflexivity].
  destruct (color_eqb _ _); [|reflexivity].
  rewrite view_calculateRawMovesByPieceTypeWith. reflexivity.
Qed.

Lemma view_isCastlingPossibleBody kingPos rookPos :
  isCastlingPossibleBody castle1 s1 kingPos rookPos
  = isCastlingPossibleBody castle2 s2 kingPos rookPos.
Proof.
  destruct Hview as (Hb & Hi & _).
  unfold isCastlingPossibleBody. rewrite Hb, Hi.
  apply bind_ext. intros [k|]; [|reflexivity].
  apply bind_ext. intros [r|]; [|reflexivity].
  destruct (_ || _); [reflexivity|].
  destruct (flaggedInCheck _ _); [reflexivity|]. cbv zeta.
  apply bind_ext. intros [|]; [reflexivity|].
  assert (A : forall c,
             isSquareUnderAttackWith castle1 s1 (mkPosition (row kingPos) c)
               (opposite (color k)) (board s2)
             = isSquareUnderAttackWith castle2 s2 (mkPosition (row kingPos) c)
                 (opposite (color k)) (board s2))
    by (intros c; apply view_isSquareUnderAttackWith).
  destruct (col rookPos =? 7);
    [apply bind_cong; apply existsM_ext; exact A|].
  destruct (col rookPos =? 0);
    [apply bind_cong; apply existsM_ext; exact A | reflexivity].
Qed.
End ViewWith.

Lemma view_isCastlingPossible fuel : forall s1 s2 kingPos rookPos,
  sameView s1 s2 ->
  isCastlingPossible fuel s1 kingPos rookPos = isCastlingPossible fuel s2 kingPos rookPos.
Proof.
  induction fuel as [|n IH]; intros s1 s2 kingPos rookPos Hv; simpl; [reflexivity|].
  apply view_isCastlingPossibleBody; [|exact Hv].
  intros k r. apply IH. exact Hv.
Qed.

Lemma view_calculateRawMovesByPieceType fuel s1 s2 pos ty b :
  sameView s1 s2 ->
  calculateRawMovesByPieceType fuel s1 pos ty b
  = calculateRawMovesByPieceType fuel s2 pos ty b.
Proof.
  intros Hv. apply view_calculateRawMovesByPieceTypeWith; [|exact Hv].
  intros k r. apply view_isCastlingPossible. exact Hv.
Qed.

Lemma view_isSquareUnderAttack fuel s1 s2 target byColor b :
  sameView s1 s2 ->
  isSquareUnderAttack fuel s1 target byColor b
  = isSquareUnderAttack fuel s2 target byColor b.
Proof.
  intros Hv. apply view_isSquareUnderAttackWith; [|exact Hv].
  intros k r. apply view_isCastlingPossible. exact Hv.
Qed.

Lemma view_keepsKingSafe fuel s1 s2 pos pc mv :
  sameView s1 s2 ->
  keepsKingSafe fuel s1 pos pc mv = keepsKingSafe fuel s2 pos pc mv.
Proof.
  intros Hv. unfold keepsKingSafe, simulateMove. rewrite (proj1 Hv).
  apply bind_ext. intros tb. apply try_catch_cong.
  apply bind_ext. intros kp.
  rewrite (view_isSquareUnderAttack fuel s1 s2 _ _ _ Hv). reflexivity.
Qed.

Lemma view_getValidMovesForPiece fuel s1 s2 pos :
  sameView s1 s2 ->
  getValidMovesForPiece fuel s1 pos = getValidMovesForPiece fuel s2 pos.
Proof.
  intros Hv. unfold getValidMovesForPiece. rewrite (proj1 Hv).
  apply bind_ext. intros [pc|]; [|reflexivity].
  rewrite (view_calculateRawMovesByPieceType fuel s1 s2 _ _ _ Hv).
  apply bind_ext. intros raw. apply filterM_ext. intros mv.
  apply view_keepsKingSafe. exact Hv.
Qed.

Lemma view_getCastlingPartners fuel s1 s2 pos :
  sameView s1 s2 ->
  getCastlingPartners fuel s1 pos = getCastlingPartners fuel s2 pos.
Proof.
  intros Hv. unfold getCastlingPartners. rewrite (proj1 Hv).
  apply bind_ext. intros [pc|]; [|reflexivity].
  destruct (hasMoved pc); [reflexivity|]. cbv zeta.
  destruct (_ && _).
  - rewrite !(view_isCastlingPossible fuel s1 s2 _ _ Hv). reflexivity.
  - destruct (_ && _); [|reflexivity].
    rewrite !(view_isCastlingPossible fuel s1 s2 _ _ Hv). reflexivity.
Qed.

(** X11. Move generation reads the board, the check flag and the last move
    and nothing else: two states that agree on these three get the same
    legal moves, castling partners, raw moves, castling answers and attack
    answers, whatever their turn, variant, counters, awaited draws and
    selection. *)
Theorem move_generation_reads (fuel : nat) (s1 s2 : ChessGameState) :
  board s1 = board s2 ->
  isInCheck s1 = isInCheck s2 ->
  lastMove s1 = lastMove s2 ->
  (forall pos, getValidMovesForPiece fuel s1 pos = getValidMovesForPiece fuel s2 pos) /\
  (forall pos, getCastlingPartners fuel s1 pos = getCastlingPartners fuel s2 pos) /\
  (forall pos ty b, calculateRawMovesByPieceType fuel s1 pos ty b
                    = calculateRawMovesByPieceType fuel s2 pos ty b) /\
  (forall kingPos rookPos, isCastlingPossible fuel s1 kingPos rookPos
                           = isCastlingPossible fuel s2 kingPos rookPos) /\
  (forall target byColor b, isSquareUnderAttack fuel s1 target byColor b
                            = isSquareUnderAttack fuel s2 target byColor b).
Proof.
  intros Hb Hi Hl.
  assert (Hv : sameView s1 s2) by (repeat split; assumption).
  split; [intros; apply view_getValidMovesForPiece; exact Hv|].
  split; [intros; apply view_getCastlingPartners; exact Hv|].
  split; [intros; apply view_calculateRawMovesByPieceType; exact Hv|].
  split; [intros; apply view_isCastlingPossible; exact Hv|].
  intros; apply view_isSquareUnderAttack; exact Hv.
Qed.

Lemma move_generation_reads_witness :
  getValidMovesForPiece 3 (constructor classic) (square 6 4)
  = getValidMovesForPiece 3 ((rollDice (constructor dice) 5).2) (square 6 4).
Proof.
  assert (Hb : board (constructor classic) = board (rollDice (constructor dice) 5).2)
    by (vm_compute; reflexivity).
  assert (Hi : isInCheck (constructor classic)
               = isInCheck (rollDice (constructor dice) 5).2)
    by (vm_compute; reflexivity).
  assert (Hl : lastMove (constructor classic)
               = lastMove (rollDice (constructor dice) 5).2)
    by (vm_compute; reflexivity).
  exact (proj1 (move_generation_reads 3 (constructor classic)
                  ((rollDice (constructor dice) 5).2) Hb Hi Hl) (square 6 4)).
Defined.

(** ** The turn and the move *)

Lemma sameView_turn s t : sameView (set_currentTurn s t) s.
Proof. repeat split; reflexivity. Qed.

Lemma turn_checkColor fuel c s t :
  checkColor fuel c (set_currentTurn s t)
  = let* r := checkColor fuel c s in Ret (set_currentTurn r t).
Proof.
  unfold checkColor. change (board (set_currentTurn s t)) with (board s).
  destruct (findKingPosition c (board s)) as [kp|e]; [|reflexivity].
  cbv beta iota delta [bind try_catch].
  rewrite (view_isSquareUnderAttack fuel _ _ kp (opposite c) (board s)
             (sameView_turn s t)).
  destruct (isSquareUnderAttack fuel s kp (opposite c) (board s)) as [[|]|];
    reflexivity.
Qed.

Lemma turn_checkForCheck fuel s t :
  checkForCheck fuel (set_currentTurn s t)
  = let* r := checkForCheck fuel s in Ret (set_currentTurn r t).
Proof.
  unfold checkForCheck. cbn [foldM].
  change (set_isInCheck (set_currentTurn s t) None)
    with (set_currentTurn (set_isInCheck s None) t).
  rewrite turn_checkColor.
  destruct (checkColor fuel WHITE (set_isInCheck s None)) as [s1|];
    cbn [bind]; [|reflexivity].
  rewrite turn_checkColor.
  destruct (checkColor fuel BLACK s1) as [s2|]; reflexivity.
Qed.

Lemma turn_checkForCheckmate fuel s t :
  checkForCheckmate fuel (set_currentTurn s t)
  = let* r := checkForCheckmate fuel s in Ret (set_currentTurn r t).
Proof.
  unfold checkForCheckmate. change (isInCheck (set_currentTurn s t)) with (isInCheck s).
  destruct (isInCheck s) as [cc|]; [|reflexivity].
  rewrite (existsM_ext (canMoveFrom fuel (set_currentTurn s t) cc)
             (canMoveFrom fuel s cc)).
  - destruct (existsM _ _) as [[|]|]; reflexivity.
  - intros sq. unfold canMoveFrom.
    change (board (set_currentTurn s t)) with (board s).
    apply bind_ext. intros [pc|]; [|reflexivity].
    destruct (color_eqb _ _); [|reflexivity].
    rewrite (view_getValidMovesForPiece fuel _ _ sq (sameView_turn s t)).
    reflexivity.
Qed.

Lemma turn_advanceTurn s t :
  exists t', advanceTurn (set_currentTurn s t) = set_currentTurn (advanceTurn s) t'.
Proof.
  unfold advanceTurn.
  destruct s as [b0 t0 sp vm bm ic cm l0 [ | | ] rm wc wd ld lc]; simpl.
  - eexists. reflexivity.
  - destruct (negb _); eexists; reflexivity.
  - destruct (_ && _); eexists; reflexivity.
Qed.

Lemma turn_handlePostMove fuel s t s' :
  handlePostMove fuel s = Ret s' ->
  exists t', handlePostMove fuel (set_currentTurn s t) = Ret (set_currentTurn s' t').
Proof.
  unfold handlePostMove. intros H.
  destruct (turn_advanceTurn s t) as [t1 ->]. rewrite turn_checkForCheck.
  destruct (checkForCheck fuel (advanceTurn s)) as [a|]; [|discriminate].
  cbn [bind] in H |- *.
  change (isInCheck (set_currentTurn a t1)) with (isInCheck a).
  destruct (isSome (isInCheck a)).
  - rewrite turn_checkForCheckmate.
    destruct (checkForCheckmate fuel a) as [a0|]; [|discriminate].
    cbn [bind] in H |- *.
    change (isInCheck (set_currentTurn a0 t1)) with (isInCheck a0).
    destruct (isSome (isInCheck a0)); inversion H; subst.
    + exists (opposite t1). reflexivity.
    + eauto.
  - inversion H; subst. eauto.
Qed.

Lemma turn_castle s t pc r a b c :
  castle (set_currentTurn s t) pc r a b c
  = let* x := castle s pc r a b c in Ret (set_currentTurn x t).
Proof.
  unfold castle. change (board (set_currentTurn s t)) with (board s).
  destruct (setPiece (board s) r a _) as [b1|]; cbn [bind]; [|reflexivity].
  destruct (setPiece b1 r b _) as [b2|]; cbn [bind]; [|reflexivity].
  destruct (setPiece b2 r 4 _) as [b3|]; cbn [bind]; [|reflexivity].
  destruct (setPiece b3 r c _) as [b4|]; reflexivity.
Qed.

Lemma turn_ordinaryMove fuel s t pc from to ok s' :
  ordinaryMove fuel s pc from to = Ret (ok, s') ->
  exists t', ordinaryMove fuel (set_currentTurn s t) pc from to
             = Ret (ok, set_currentTurn s' t').
Proof.
  unfold ordinaryMove.
  rewrite (view_getValidMovesForPiece fuel _ _ from (sameView_turn s t)).
  rewrite (view_isEnPassantPossible _ _ from to (sameView_turn s t)).
  change (board (set_currentTurn s t)) with (board s).
  destruct (getValidMovesForPiece fuel s from) as [valid|]; cbn [bind];
    [|discriminate].
  destruct (negb _); [intros H; inversion H; subst; eauto|].
  destruct (if type_eqb (type pc) PAWN then _ else _) as [ep|]; cbn [bind];
    [|discriminate].
  destruct (if ep then _ else _) as [b1|]; cbn [bind]; [|discriminate].
  destruct (setPiece b1 _ _ _) as [b2|]; cbn [bind]; [|discriminate].
  destruct (setPiece b2 _ _ _) as [b3|]; cbn [bind]; [|discriminate].
  match goal with
  | |- context [handlePostMove fuel (set_board (set_lastMove (set_currentTurn s t) ?lm) b3)] =>
      change (set_board (set_lastMove (set_currentTurn s t) lm) b3)
        with (set_currentTurn (set_board (set_lastMove s lm) b3) t);
      destruct (handlePostMove fuel (set_board (set_lastMove s lm) b3)) as [s1|] eqn:Hh
  end; cbn [bind]; [|discriminate].
  intros H. inversion H; subst.
  destruct (turn_handlePostMove _ _ t _ Hh) as [t' ->]. eauto.
Qed.

(** X12. [movePiece] never reads [currentTurn]: run on a state that differs
    only in whose turn it is, it returns the same boolean and the same
    state up to [currentTurn].  A piece of either colour is moved whoever
    is to play. *)
Theorem movePiece_never_reads_the_turn (fuel : nat) (s s' : ChessGameState)
    (from to : Position) (ok : bool) (c : PlayerColor) :
  movePiece fuel s from to = Ret (ok, s') ->
  exists c', movePiece fuel (set_currentTurn s c) from to
             = Ret (ok, set_currentTurn s' c').
Proof.
  unfold movePiece.
  change (gameType (set_currentTurn s c)) with (gameType s).
  change (remainingMoves (set_currentTurn s c)) with (remainingMoves s).
  change (waitingForCoinToss (set_currentTurn s c)) with (waitingForCoinToss s).
  change (waitingForDiceRoll (set_currentTurn s c)) with (waitingForDiceRoll s).
  change (board (set_currentTurn s c)) with (board s).
  do 3 (destruct (_ && _); [intros H; inversion H; subst; eauto|]).
  destruct (pieceAt (board s) (row from) (col from)) as [[pc|]|]; cbn [bind];
    [|intros H; inversion H; subst; eauto|discriminate].
  assert (K : forall rookCol a b,
             (let* possible :=
                isCastlingPossible fuel s
                  (mkPosition (if color_eqb (color pc) WHITE then 7 else 0) 4)
                  (mkPosition (if color_eqb (color pc) WHITE then 7 else 0) rookCol) in
              if negb possible then Ret (false, s)
              else
                let* this1 := castle s pc (if color_eqb (color pc) WHITE then 7 else 0)
                                a b rookCol in
                let* this2 := handlePostMove fuel this1 in Ret (true, this2))
             = Ret (ok, s') ->
             exists c',
               (let* possible :=
                  isCastlingPossible fuel (set_currentTurn s c)
                    (mkPosition (if color_eqb (color pc) WHITE then 7 else 0) 4)
                    (mkPosition (if color_eqb (color pc) WHITE then 7 else 0) rookCol) in
                if negb possible then Ret (false, set_currentTurn s c)
                else
                  let* this1 := castle (set_currentTurn s c) pc
                                  (if color_eqb (color pc) WHITE then 7 else 0)
                                  a b rookCol in
                  let* this2 := handlePostMove fuel this1 in Ret (true, this2))
               = Ret (ok, set_currentTurn s' c')).
  { intros rookCol a b.
    rewrite (view_isCastlingPossible fuel _ _ _ _ (sameView_turn s c)).
    destruct (isCastlingPossible fuel s _ _) as [[|]|]; cbn [bind negb];
      [|intros H; inversion H; subst; eauto|discriminate].
    rewrite turn_castle.
    destruct (castle s pc _ a b rookCol) as [s1|]; cbn [bind];
      [|discriminate].
    destruct (handlePostMove fuel s1) as [s2|] eqn:Hh; cbn [bind];
      [|discriminate].
    intros H. inversion H; subst.
    destruct (turn_handlePostMove _ _ c _ Hh) as [c' ->]. eauto. }
  cbv zeta.
  destruct (type_eqb (type pc) KING && (col from =? 4) && (col to =? 6));
    [apply K|].
  destruct (type_eqb (type pc) KING && (col from =? 4) && (col to =? 2));
    [apply K|].
  apply turn_ordinaryMove.
Qed.

Lemma movePiece_never_reads_the_turn_witness :
  let s := constructor classic in
  let s' := afterPlay 2 classic [move 6 4 4 4] in
  exists c', movePiece 2 (set_currentTurn s BLACK) (square 6 4) (square 4 4)
             = Ret (true, set_currentTurn s' c').
Proof.
  intros s s'.
  apply (movePiece_never_reads_the_turn 2 s s' (square 6 4) (square 4 4) true BLACK).
  vm_compute. reflexivity.
Defined.

(** ** Selection *)

Lemma sameView_selection s p v b : sameView (set_selection s p v b) s.
Proof. repeat split; reflexivity. Qed.

Lemma selectPiece_returned fuel s s' pos pc :
  pieceAt (board s) (row pos) (col pos) = Ret (Some pc) ->
  color pc = currentTurn s ->
  selectPiece fuel s pos = Ret s' ->
  unselectPiece s' = unselectPiece s /\
  selectedPiece s' = Some pos /\
  exists legal partners raw,
    getValidMovesForPiece fuel s pos = Ret legal /\
    getCastlingPartners fuel s pos = Ret partners /\
    calculateRawMovesByPieceType fuel s pos (type pc) (board s) = Ret raw /\
    validMoves s' = legal ++ partners /\
    (forall mv, In mv (blockedMoves s') <->
                In mv raw /\
                existsb (fun v => samePosition v mv) (validMoves s') = false) /\
    (forall mv, In mv (blockedMoves s') ->
                isValidPosition (row mv) (col mv) = true /\
                (row mv, col mv) <> (row pos, col pos) /\
                (pieceAt (board s) (row mv) (col mv) = Ret None \/
                 exists q, pieceAt (board s) (row mv) (col mv) = Ret (Some q) /\
                           color q <> color pc)).
Proof.
  intros Hp Hc H. unfold selectPiece in H. rewrite Hp in H. cbn [bind] in H.
  rewrite Hc in H.
  assert (E : color_eqb (currentTurn s) (currentTurn s) = true)
    by (destruct (currentTurn s); reflexivity).
  rewrite E in H. cbn [negb] in H. cbv zeta in H.
  rewrite (view_getValidMovesForPiece fuel _ s pos (sameView_selection _ _ _ _)) in H.
  rewrite (view_calculateRawMovesByPieceType fuel _ s pos (type pc) _
             (sameView_selection _ _ _ _)) in H.
  rewrite (view_getCastlingPartners fuel _ s pos (sameView_selection _ _ _ _)) in H.
  change (board (set_selection s (Some pos) (validMoves s) (blockedMoves s)))
    with (board s) in H.
  bind_inv H. bind_inv H. bind_inv H. inversion H; subst s'; clear H.
  split; [reflexivity|]. split; [reflexivity|].
  exists a, a1, a0. do 4 (split; [assumption || reflexivity|]).
  cbn [blockedMoves validMoves set_selection].
  assert (B : forall mv,
             In mv (filter (fun move => negb (existsb (fun v => samePosition v move)
                                                       (a ++ a1))) a0) <->
             In mv a0 /\ existsb (fun v => samePosition v mv) (a ++ a1) = false).
  { intros mv. rewrite <- !list_elem_of_In, list_elem_of_filter.
    rewrite <- negb_true_iff. unfold Is_true.
    destruct (negb _); intuition congruence. }
  split; [exact B|].
  intros mv Hin. apply B in Hin as [Hin _].
  pose proof (calculateRawMovesByPieceType_sound _ _ _ _ _ _ Hp Hm0) as F.
  rewrite Forall_forall in F.
  destruct (F mv (proj2 (list_elem_of_In _ _) Hin)) as (V & Hne & t & Ht & Hq).
  split; [exact V|]. split; [exact Hne|].
  destruct t as [q|]; [right | left; exact Ht].
  exists q. split; [exact Ht|]. apply Hq. reflexivity.
Qed.

(** A selection that throws after its first read has assigned
    [selectedPiece] and nothing else. *)
Lemma selectPiece_raised_selected fuel s pos pc e :
  pieceAt (board s) (row pos) (col pos) = Ret (Some pc) ->
  color pc = currentTurn s ->
  selectPiece fuel s pos = Throw e ->
  stateLeft (Tracked.selectPiece fuel pos s)
  = set_selection s (Some pos) (validMoves s) (blockedMoves s).
Proof.
  intros Hp Hc Ht.
  pose proof (selectPiece_tracked fuel pos s) as T. rewrite Ht in T. simpl in T.
  apply returned_Raised in T. revert T.
  generalize (stateLeft (Tracked.selectPiece fuel pos s)). intros sl T.
  unfold Tracked.selectPiece in T.
  apply bindM_Raised in T as [T | (p & s1 & H1 & T)].
  { apply read_Raised in T as [_ T]. congruence. }
  apply read_Done in H1 as [-> H1]. rewrite Hp in H1. inversion H1; subst p; clear H1.
  apply bindM_Raised in T as [T | (turn & s1 & H1 & T)]; [discriminate|].
  apply read_Done in H1 as [-> H1]. inversion H1; subst turn; clear H1.
  rewrite Hc in T.
  assert (E : color_eqb (currentTurn s) (currentTurn s) = true)
    by (destruct (currentTurn s); reflexivity).
  rewrite E in T. cbn [negb] in T.
  apply bindM_Raised in T as [T | ([] & s1 & H1 & T)]; [discriminate|].
  inversion H1; subst s1; clear H1.
  apply bindM_Raised in T as [T | (legal & s1 & H1 & T)].
  { apply read_Raised in T as [-> _]. reflexivity. }
  apply read_Done in H1 as [-> _].
  apply bindM_Raised in T as [T | (raw & s1 & H1 & T)].
  { apply read_Raised in T as [-> _]. reflexivity. }
  apply read_Done in H1 as [-> _].
  apply bindM_Raised in T as [T | (partners & s1 & H1 & T)]; [|discriminate].
  apply read_Raised in T as [-> _]. reflexivity.
Qed.

Lemma stateLeft_then {A B} (m : method A) (b : B) s :
  stateLeft ((do* _ := m in retM b) s) = stateLeft (m s).
Proof. unfold bindM, retM. destruct (m s); reflexivity. Qed.

(** X13. Selecting a piece of the side to move.  When the call returns,
    the state returned differs from the given one in the three selection
    fields only.  [validMoves] is the legal moves followed by the castling
    partners, both as computed on the given state, and [blockedMoves] is
    made of the raw moves that match no entry of [validMoves].  Every
    blocked square is thus a square of the board, other than the piece's
    own, that is empty or holds an opposing piece: a square held by a piece
    of the mover's side never shows up.  When the call throws, it leaves
    the piece selected and the two lists as they were. *)
Theorem selectPiece_lists (fuel : nat) (s : ChessGameState)
    (pos : Position) (pc : Piece) :
  pieceAt (board s) (row pos) (col pos) = Ret (Some pc) ->
  color pc = currentTurn s ->
  (forall s',
      selectPiece fuel s pos = Ret s' ->
      unselectPiece s' = unselectPiece s /\
      selectedPiece s' = Some pos /\
      exists legal partners raw,
        getValidMovesForPiece fuel s pos = Ret legal /\
        getCastlingPartners fuel s pos = Ret partners /\
        calculateRawMovesByPieceType fuel s pos (type pc) (board s) = Ret raw /\
        validMoves s' = legal ++ partners /\
        (forall mv, In mv (blockedMoves s') <->
                    In mv raw /\
                    existsb (fun v => samePosition v mv) (validMoves s') = false) /\
        (forall mv, In mv (blockedMoves s') ->
                    isValidPosition (row mv) (col mv) = true /\
                    (row mv, col mv) <> (row pos, col pos) /\
                    (pieceAt (board s) (row mv) (col mv) = Ret None \/
                     exists q, pieceAt (board s) (row mv) (col mv) = Ret (Some q) /\
                               color q <> color pc))) /\
  (forall e,
      selectPiece fuel s pos = Throw e ->
      leaves fuel (OpSelectPiece pos) s
      = set_selection s (Some pos) (validMoves s) (blockedMoves s)).
Proof.
  intros Hp Hc. split.
  - intros s' H. exact (selectPiece_returned fuel s s' pos pc Hp Hc H).
  - intros e H. unfold leaves. cbn [Tracked.run]. rewrite stateLeft_then.
    exact (selectPiece_raised_selected fuel s pos pc e Hp Hc H).
Qed.

Lemma selectPiece_lists_witness :
  let s := afterPlay 3 classic [move 6 4 4 4; move 1 3 3 3; move 7 5 4 2] in
  exists s',
    selectPiece 3 s (square 1 2) = Ret s' /\
    unselectPiece s' = unselectPiece s /\
    selectedPiece s' = Some (square 1 2).
Proof.
  intros s.
  destruct (selectPiece 3 s (square 1 2)) as [s'|] eqn:Hs;
    try (vm_compute in Hs; discriminate Hs).
  exists s'. split; [reflexivity|].
  destruct (selectPiece_lists 3 s (square 1 2) (mkPiece PAWN BLACK false))
    as [K _]; [vm_compute; reflexivity | vm_compute; reflexivity |].
  destruct (K s' Hs) as (H1 & H2 & _).
  exact (conj H1 H2).
Defined.

(** ** Checkmate *)

Lemma allSquares_complete r c :
  isValidPosition r c = true -> In (mkPosition r c) allSquares.
Proof.
  intros V. apply isValidPosition_iff in V as [Hr Hc].
  unfold allSquares. apply in_flat_map. exists r. split.
  - unfold range8. simpl. lia.
  - apply in_map. unfold range8. simpl. lia.
Qed.

Lemma homeRow_inj a b : homeRow a = homeRow b -> a = b.
Proof. destruct a, b; simpl; intros H; congruence || discriminate. Qed.

(** A castling test for a king flagged in check answers false at once,
    before it asks about any square. *)
Lemma flagged_castling_refused n s c rc :
  wfBoard (board s) -> unmovedAtHome (board s) -> isInCheck s = Some c ->
  rc = 7 \/ rc = 0 ->
  isCastlingPossible (S n) s (mkPosition (homeRow c) 4) (mkPosition (homeRow c) rc)
  = Ret false.
Proof.
  intros Hw Hu Hi Hrc. cbn [isCastlingPossible]. unfold isCastlingPossibleBody.
  cbn [row col].
  destruct (pieceAt_total (board s) (homeRow c) 4 Hw) as [king Ek].
  { destruct c; reflexivity. }
  destruct (pieceAt_total (board s) (homeRow c) rc Hw) as [rook Er].
  { destruct c, Hrc as [-> | ->]; reflexivity. }
  rewrite Ek, Er. cbn [bind].
  destruct king as [k|]; [|reflexivity]. destruct rook as [r|]; [|reflexivity].
  destruct (negb (type_eqb (type k) KING)) eqn:E1; [reflexivity|].
  destruct (hasMoved k) eqn:E2; [reflexivity|]. cbn [orb].
  destruct (negb (type_eqb (type r) ROOK) || hasMoved r); [reflexivity|].
  apply negb_false_iff, type_eqb_eq in E1.
  destruct (initial_pieces _ _ _ (Hu _ _ _ Ek E2)) as [Hking _].
  destruct (Hking E1) as [_ Hrow]. apply homeRow_inj in Hrow.
  rewrite Hi, Hrow. unfold flaggedInCheck.
  rewrite (proj2 (color_eqb_eq (color k) (color k)) eq_refl). reflexivity.
Qed.

(** X14. Once a move has flagged a colour both in check and checkmated, no
    call of [movePiece] on the state it returned moves a piece of that
    colour: every such call returns false and leaves the state as it is.
    (The stack has room for one castling test at least.) *)
Theorem mated_side_cannot_move (g : GameType) (fuel : nat)
    (s s' : ChessGameState) (f0 t0 from to : Position) (c : PlayerColor)
    (pc : Piece) :
  (1 <= fuel)%nat ->
  reachable g s ->
  movePiece fuel s f0 t0 = Ret (true, s') ->
  isInCheck s' = Some c ->
  isCheckmate s' = Some c ->
  pieceAt (board s') (row from) (col from) = Ret (Some pc) ->
  color pc = c ->
  movePiece fuel s' from to = Ret (false, s').
Proof.
  intros Hf R Hm Hi Hc Hp Hcol.
  assert (Hw : wfBoard (board s')).
  { apply (run_wf fuel (OpMovePiece f0 t0) s (RBool true) s' (reachable_wf _ _ R)).
    simpl. rewrite Hm. reflexivity. }
  assert (Hu : unmovedAtHome (board s')).
  { eapply rewritten_unmoved; [exact (movePiece_rewritten _ _ _ _ _ _ Hm)|].
    exact (reachable_unmoved _ _ R). }
  destruct (moveBarred s') eqn:G; [apply movePiece_barred; exact G|].
  (* the answers of the detection that ended the mating move *)
  assert (Hnone : getValidMovesForPiece fuel s' from = Ret []).
  { clear G Hu.
    apply movePiece_inv in Hm as [[Hm _] | (_ & _ & b & lm & Hm)]; [discriminate|].
    apply handlePostMove_inv in Hm as (c0 & m & _ & Hm).
    set (x := advanceTurn (set_board (set_lastMove s lm) b)) in *.
    destruct c0 as [c0|]; [|subst s'; discriminate Hi].
    destruct Hm as [Hmate ->]. simpl in Hc, Hi.
    apply checkForCheckmate_sets with (c := c) in Hmate; [|exact Hc].
    destruct Hmate as [_ Hnone].
    set (s1 := set_isInCheck x (Some c0)) in *.
    set (s' := checkOverride (set_isCheckmate s1 m)) in *.
    assert (Hv : sameView s' s1) by (repeat split; reflexivity).
    rewrite (view_getValidMovesForPiece fuel s' s1 from Hv).
    assert (Hin : In from allSquares).
    { destruct from as [fr fc]. apply allSquares_complete.
      destruct (isValidPosition fr fc) eqn:V; [reflexivity|].
      cbn [row col] in Hp.
      rewrite (pieceAt_out_of_range _ _ _ Hw V) in Hp.
      discriminate. }
    exact (Hnone from pc Hin Hp Hcol). }
  unfold moveBarred in G. apply orb_false_iff in G as [G G3].
  apply orb_false_iff in G as [G1 G2].
  unfold movePiece. rewrite G1, G2, G3, Hp. cbn [bind].
  destruct fuel as [|n]; [lia|].
  change (if color_eqb (color pc) WHITE then 7 else 0) with (homeRow (color pc)).
  rewrite Hcol.
  destruct (type_eqb (type pc) KING && (col from =? 4) && (col to =? 6)).
  { rewrite (flagged_castling_refused n s' c 7 Hw Hu Hi) by (left; reflexivity).
    reflexivity. }
  destruct (type_eqb (type pc) KING && (col from =? 4) && (col to =? 2)).
  { rewrite (flagged_castling_refused n s' c 0 Hw Hu Hi) by (right; reflexivity).
    reflexivity. }
  unfold ordinaryMove. rewrite Hnone. reflexivity.
Qed.

Lemma mated_side_cannot_move_witness :
  let s := afterPlay 4 classic [move 6 5 5 5; move 1 4 3 4; move 6 6 4 6] in
  let s' := afterPlay 4 classic foolsMate in
  movePiece 4 s (square 0 3) (square 4 7) = Ret (true, s') /\
  isCheckmate s' = Some WHITE /\
  movePiece 4 s' (square 7 4) (square 6 5) = Ret (false, s').
Proof.
  intros s s'.
  assert (R : reachable classic s).
  { eapply (play_reachable classic 5 [move 6 5 5 5; move 1 4 3 4; move 6 6 4 6]
              (constructor classic)); [lia | apply reachable_new | vm_compute; reflexivity]. }
  assert (Hm : movePiece 4 s (square 0 3) (square 4 7) = Ret (true, s'))
    by (vm_compute; reflexivity).
  assert (Hc : isCheckmate s' = Some WHITE) by (vm_compute; reflexivity).
  split; [exact Hm|]. split; [exact Hc|].
  apply (mated_side_cannot_move classic 4 s s' (square 0 3) (square 4 7)
           (square 7 4) (square 6 5) WHITE (mkPiece KING WHITE false));
    [lia | exact R | exact Hm | vm_compute; reflexivity | exact Hc
     | vm_compute; reflexivity | reflexivity].
Defined.


(** ** Finding the king, detecting check *)

Lemma findKingIn_split c b sqs :
  Forall (fun sq => exists p, pieceAt b (row sq) (col sq) = Ret p) sqs ->
  (exists l1 kp l2 k,
      sqs = l1 ++ kp :: l2 /\ findKingIn c b sqs = Ret kp /\
      pieceAt b (row kp) (col kp) = Ret (Some k) /\ type k = KING /\ color k = c /\
      Forall (fun sq => noKingAt c b (row sq) (col sq)) l1) \/
  (findKingIn c b sqs = Throw KingNotFound /\
   Forall (fun sq => noKingAt c b (row sq) (col sq)) sqs).
Proof.
  induction sqs as [|sq rest IH]; intros F.
  { right. split; [reflexivity | constructor]. }
  inversion F as [|? ? [p Hp] F']; subst.
  cbn [findKingIn]. rewrite Hp. cbn [bind].
  assert (K : forall k, p = Some k ->
                        type_eqb (type k) KING && color_eqb (color k) c = false ->
                        noKingAt c b (row sq) (col sq)).
  { intros k -> E q Hq [T C]. rewrite Hp in Hq. inversion Hq; subst q.
    apply type_eqb_eq in T. apply color_eqb_eq in C. rewrite T, C in E. discriminate. }
  assert (Next : noKingAt c b (row sq) (col sq) ->
            (exists l1 kp l2 k,
                sq :: rest = l1 ++ kp :: l2 /\ findKingIn c b rest = Ret kp /\
                pieceAt b (row kp) (col kp) = Ret (Some k) /\ type k = KING /\
                color k = c /\
                Forall (fun sq => noKingAt c b (row sq) (col sq)) l1) \/
            (findKingIn c b rest = Throw KingNotFound /\
             Forall (fun sq => noKingAt c b (row sq) (col sq)) (sq :: rest))).
  { intros Hno. destruct (IH F') as [(l1 & kp & l2 & k & -> & H1 & H2 & H3 & H4 & H5) | [H1 H2]].
    - left. exists (sq :: l1), kp, l2, k. repeat split; auto.
    - right. split; [exact H1 | constructor; assumption]. }
  destruct p as [k|].
  - destruct (type_eqb (type k) KING && color_eqb (color k) c) eqn:E.
    + left. exists [], sq, rest, k. apply andb_true_iff in E as [E1 E2].
      apply type_eqb_eq in E1. apply color_eqb_eq in E2.
      repeat split; auto.
    + apply Next. apply (K k eq_refl E).
  - apply Next. intros q Hq. rewrite Hp in Hq. discriminate.
Qed.

Lemma increasing_above lo l : increasing lo l -> forall x, In x l -> lo < x.
Proof.
  revert lo. induction l as [|y l IH]; intros lo H x Hx; [destruct Hx|].
  destruct H as [H1 H2]. destruct Hx as [<- | Hx]; [exact H1|].
  pose proof (IH _ H2 _ Hx). lia.
Qed.

Lemma increasing_split {A} (key : A -> Z) l1 x l2 : forall lo,
  increasing lo (map key (l1 ++ x :: l2)) ->
  forall y, In y l2 -> key x < key y.
Proof.
  induction l1 as [|z l1 IH]; intros lo H y Hy.
  - destruct H as [_ H]. apply (increasing_above _ _ H). apply in_map. exact Hy.
  - destruct H as [_ H]. exact (IH _ H y Hy).
Qed.

Lemma allSquares_increasing : increasing (-1) (map scanRank allSquares).
Proof. unfold allSquares, range8, scanRank. simpl. repeat split. Qed.

(** X15. [findKingPosition] on a board of eight by eight squares either
    returns the square of a king of the colour asked for, the first one in
    the order of the scan (row by row, each row by increasing column), or
    throws its "King not found" error, and then no square holds such a
    king.  It throws nothing else. *)
Theorem findKingPosition_first (c : PlayerColor) (b : Board) :
  wfBoard b ->
  (exists kp k,
      findKingPosition c b = Ret kp /\
      isValidPosition (row kp) (col kp) = true /\
      pieceAt b (row kp) (col kp) = Ret (Some k) /\ type k = KING /\ color k = c /\
      forall r' c', r' < row kp \/ (r' = row kp /\ c' < col kp) ->
                    noKingAt c b r' c') \/
  (findKingPosition c b = Throw KingNotFound /\ forall r' c', noKingAt c b r' c').
Proof.
  intros W.
  assert (F : Forall (fun sq => exists p, pieceAt b (row sq) (col sq) = Ret p) allSquares).
  { eapply Forall_impl; [apply allSquares_inRange|].
    intros sq V. apply pieceAt_total; assumption. }
  assert (Out : forall r' c', isValidPosition r' c' = false -> noKingAt c b r' c').
  { intros r' c' V p Hp. rewrite (pieceAt_out_of_range _ _ _ W V) in Hp. discriminate. }
  unfold findKingPosition.
  destruct (findKingIn_split c b allSquares F)
    as [(l1 & kp & l2 & k & E & H1 & H2 & H3 & H4 & H5) | [H1 H2]].
  - left. exists kp, k.
    assert (Vk : isValidPosition (row kp) (col kp) = true).
    { pose proof allSquares_inRange as R. rewrite E in R.
      rewrite Forall_forall in R. apply R. apply list_elem_of_In.
      apply in_or_app. right. left. reflexivity. }
    do 5 (split; [assumption|]).
    intros r' c' Hlt.
    destruct (isValidPosition r' c') eqn:V; [|apply Out; exact V].
    pose proof (allSquares_complete _ _ V) as Hin. rewrite E in Hin.
    apply isValidPosition_iff in V. apply isValidPosition_iff in Vk.
    apply in_app_or in Hin as [Hin | [Hin | Hin]].
    + rewrite Forall_forall in H5.
      exact (H5 _ (proj2 (list_elem_of_In _ _) Hin)).
    + subst kp. simpl in Hlt. lia.
    + pose proof allSquares_increasing as Inc. rewrite E in Inc.
      pose proof (increasing_split scanRank _ _ _ _ Inc _ Hin) as L.
      unfold scanRank in L. simpl in L. lia.
  - right. split; [exact H1|]. intros r' c'.
    destruct (isValidPosition r' c') eqn:V; [|apply Out; exact V].
    rewrite Forall_forall in H2.
    exact (H2 _ (proj2 (list_elem_of_In _ _) (allSquares_complete _ _ V))).
Qed.

Lemma findKingPosition_first_witness :
  exists kp k,
    findKingPosition WHITE createInitialBoard = Ret kp /\
    pieceAt createInitialBoard (row kp) (col kp) = Ret (Some k) /\
    forall r' c', r' < row kp \/ (r' = row kp /\ c' < col kp) ->
                  noKingAt WHITE createInitialBoard r' c'.
Proof.
  destruct (findKingPosition_first WHITE createInitialBoard createInitialBoard_wf)
    as [(kp & k & H1 & _ & H3 & _ & _ & H6) | [H _]].
  - exists kp, k. exact (conj H1 (conj H3 H6)).
  - vm_compute in H. discriminate H.
Defined.

Lemma checkColor_flag fuel c s :
  checkColor fuel c s
  = Ret (if kingAttackedb fuel s c then set_isInCheck s (Some c) else s).
Proof.
  unfold checkColor, kingAttackedb.
  destruct (findKingPosition c (board s)) as [kp|e];
    cbv beta iota delta [bind try_catch]; [|reflexivity].
  destruct (isSquareUnderAttack fuel s kp (opposite c) (board s)) as [[|]|e];
    reflexivity.
Qed.

(** X16. [checkForCheck] always returns, and what it leaves in [isInCheck],
    the only field it changes, is this.  White's king is tested first, with
    the flag cleared; Black's king is tested next, with the flag as White's
    test left it.  The flag names Black when Black's test succeeds,
    whatever White's gave; else White when White's succeeded; else nothing.
    A king that is not on the board, or a test that throws (the overflow of
    the stack included), counts as not attacked. *)
Theorem checkForCheck_flag (fuel : nat) (s : ChessGameState) :
  let w := kingAttackedb fuel (set_isInCheck s None) WHITE in
  let sw := set_isInCheck s (if w then Some WHITE else None) in
  checkForCheck fuel s
  = Ret (set_isInCheck s (if kingAttackedb fuel sw BLACK then Some BLACK
                          else if w then Some WHITE else None)).
Proof.
  unfold checkForCheck. cbn [foldM]. cbv zeta.
  rewrite checkColor_flag. cbn [bind]. rewrite checkColor_flag. cbn [bind].
  destruct (kingAttackedb fuel (set_isInCheck s None) WHITE);
    [change (set_isInCheck (set_isInCheck s None) (Some WHITE))
       with (set_isInCheck s (Some WHITE))|];
    destruct (kingAttackedb fuel _ BLACK); reflexivity.
Qed.

(** ** Promotion *)

Lemma promotePawn_used_up fuel s s1 pos newType newType' :
  newType <> PAWN ->
  promotePawn fuel s pos newType = Ret s1 ->
  promotePawn fuel s1 pos newType' = Ret s1.
Proof.
  intros Hn H. unfold promotePawn in H. bind_inv H.
  assert (Same : s1 = s -> ~ promotable a pos = true ->
                 promotePawn fuel s1 pos newType' = Ret s1).
  { intros -> Hnp. unfold promotePawn. rewrite Hm. cbn [bind].
    unfold promotable in Hnp. destruct a as [pc|]; [|reflexivity].
    destruct (type_eqb (type pc) PAWN); [|reflexivity]. cbn [negb andb] in Hnp |- *.
    cbv zeta. destruct (_ || _); [exfalso; apply Hnp; reflexivity | reflexivity]. }
  destruct a as [pc|]; [|inversion H; apply Same; [auto | discriminate]].
  destruct (type_eqb (type pc) PAWN) eqn:E1; cbn [negb] in H;
    [|inversion H; apply Same; [auto | simpl; rewrite E1; discriminate]].
  cbv zeta in H.
  destruct (_ || _) eqn:E2; cbn [negb] in H;
    [|inversion H; apply Same; [auto | simpl; rewrite E1, E2; discriminate]].
  bind_inv H. bind_inv H.
  match goal with
  | P : checkForCheck _ _ = Ret _ |- _ => apply checkForCheck_frame in P as [c ->]
  end.
  assert (Eb : board s1 = a).
  { destruct (isSome _); [|inversion H; reflexivity].
    apply checkForCheckmate_frame in H as [m ->]. reflexivity. }
  unfold promotePawn. rewrite Eb.
  rewrite (pieceAt_setPiece_eq _ _ _ _ _ Hm0). cbn [bind type].
  destruct newType; try contradiction; reflexivity.
Qed.

Lemma setPiece_after_pieceAt b r c q p :
  pieceAt b r c = Ret q -> exists b', setPiece b r c p = Ret b'.
Proof.
  unfold pieceAt, setPiece.
  destruct (index b r) as [l|]; simpl; [|discriminate].
  destruct (index l c) as [sq|]; simpl; [eauto | discriminate].
Qed.

(** A promotion that throws does so at its first read, with nothing
    written, or from the scan of [checkForCheckmate], with the pawn
    replaced and a check flagged. *)
Lemma promotePawn_raised_where fuel pos ty s e s1 :
  Tracked.promotePawn fuel pos ty s = Raised e s1 ->
  (s1 = s /\ pieceAt (board s) (row pos) (col pos) = Throw e) \/
  (exists pc b c,
      pieceAt (board s) (row pos) (col pos) = Ret (Some pc) /\
      setPiece (board s) (row pos) (col pos) (Some (mkPiece ty (color pc) true)) = Ret b /\
      s1 = set_isInCheck (set_board s b) (Some c)).
Proof.
  unfold Tracked.promotePawn. intros H.
  apply bindM_Raised in H as [H | (p & s0 & H1 & H)].
  { apply read_Raised in H as [-> H]. auto. }
  apply read_Done in H1 as [-> Hp].
  destruct p as [pc|]; [|discriminate].
  destruct (negb (type_eqb _ _)); [discriminate|].
  destruct (negb _); [discriminate|].
  apply bindM_Raised in H as [H | ([] & s0 & H1 & H)].
  { apply write_Raised in H as [_ H].
    destruct (setPiece_after_pieceAt _ _ _ _ (Some (mkPiece ty (color pc) true)) Hp)
      as [b E].
    rewrite E in H. discriminate. }
  apply write_Done in H1 as (b & E & ->).
  apply bindM_Raised in H as [H | ([] & s0 & H1 & H)].
  { rewrite checkForCheck_tracked in H.
    destruct (checkForCheck_returns fuel (set_board s b)) as [s0 E1].
    rewrite E1 in H. discriminate. }
  rewrite checkForCheck_tracked in H1.
  destruct (checkForCheck fuel (set_board s b)) as [s2|] eqn:E1; [|discriminate].
  inversion H1; subst s2; clear H1.
  destruct (checkForCheck_frame _ _ _ E1) as [c ->].
  apply bindM_Raised in H as [H | (flag & s2 & H1 & H)]; [discriminate|].
  apply read_Done in H1 as [-> H1]. inversion H1; subst flag; clear H1.
  destruct c as [c|]; simpl in H; [|discriminate].
  rewrite checkForCheckmate_tracked in H.
  destruct (checkForCheckmate fuel _); [discriminate|].
  inversion H. right. exists pc, b, c. auto.
Qed.

(** X17. Promotion is used up: after [promotePawn] has answered a request
    for a type other than PAWN, a second request on the same square, for
    any type, changes nothing.  Nor does it on the state the first request
    leaves when it throws. *)
Theorem promotePawn_twice (fuel : nat) (s : ChessGameState) (pos : Position)
    (newType newType' : PieceType) :
  newType <> PAWN ->
  (forall s1, promotePawn fuel s pos newType = Ret s1 ->
              promotePawn fuel s1 pos newType' = Ret s1) /\
  let s1 := leaves fuel (OpPromotePawn pos (Some newType)) s in
  leaves fuel (OpPromotePawn pos (Some newType')) s1 = s1.
Proof.
  intros Hn. split; [intros s1; apply promotePawn_used_up; exact Hn|].
  unfold leaves. cbn [Tracked.run]. rewrite !stateLeft_then.
  destruct (Tracked.promotePawn fuel pos newType s) as [[] s1|e s1] eqn:E;
    cbn [stateLeft].
  - assert (H : promotePawn fuel s pos newType = Ret s1).
    { pose proof (promotePawn_tracked fuel pos newType s) as T. rewrite E in T.
      simpl in T. destruct (promotePawn fuel s pos newType); inversion T; reflexivity. }
    apply (promotePawn_used_up fuel s s1 pos newType newType' Hn) in H.
    pose proof (promotePawn_tracked fuel pos newType' s1) as T. rewrite H in T.
    apply returned_Done in T. rewrite T. reflexivity.
  - apply promotePawn_raised_where in E as [[-> E] | (pc & b & c & Hp & Hb & ->)].
    + unfold Tracked.promotePawn, bindM, read. rewrite E. reflexivity.
    + unfold Tracked.promotePawn, bindM, read. cbn [board set_isInCheck set_board].
      rewrite (pieceAt_setPiece_eq _ _ _ _ _ Hb). cbn [type].
      destruct newType; try contradiction; reflexivity.
Qed.

Lemma promotePawn_twice_witness :
  let s := afterPlay 3 classic promotionGame in
  exists s1, promotePawn 3 s (square 0 0) KNIGHT = Ret s1 /\
             promotePawn 3 s1 (square 0 0) QUEEN = Ret s1.
Proof.
  intros s.
  destruct (promotePawn 3 s (square 0 0) KNIGHT) as [s1|] eqn:H;
    try (vm_compute in H; discriminate H).
  exists s1. split; [reflexivity|].
  exact (proj1 (promotePawn_twice 3 s (square 0 0) KNIGHT QUEEN ltac:(discriminate))
           s1 H).
Defined.


(** ** The geometry of the raw moves *)

Lemma pushValid_all (P : Position -> Prop) mv (acc : Acc) :
  Forall P acc.1 -> P mv -> Forall P (pushValid mv acc).1.
Proof.
  intros Ha Hm. unfold pushValid. simpl. apply Forall_app. split; [exact Ha|].
  constructor; [exact Hm | constructor].
Qed.

Lemma stepMove_all (P : Position -> Prop) pos pc b d acc :
  P (mkPosition (row pos + d.1) (col pos + d.2)) ->
  Forall P acc.1 ->
  ensures (fun a : Acc => Forall P a.1) (stepMove pos pc b d acc).
Proof.
  intros Hd Ha. unfold stepMove. cbv zeta.
  destruct (isValidPosition _ _); [|apply ensures_Ret; exact Ha].
  eapply ensures_bind with (Q := fun _ => True); [intros ? _; exact I|].
  intros [t|] _.
  - destruct (negb _); apply ensures_Ret; [apply pushValid_all; assumption | exact Ha].
  - apply ensures_Ret. apply pushValid_all; assumption.
Qed.

Lemma walkLine_slides pos pc b D dr dc :
  In (dr, dc) D ->
  forall n k r c acc,
    1 <= k -> r = row pos + k * dr -> c = col pos + k * dc ->
    (forall j, 1 <= j < k -> pieceAt b (row pos + j * dr) (col pos + j * dc) = Ret None) ->
    Forall (slides b pos D) acc.1 ->
    ensures (fun a : Acc => Forall (slides b pos D) a.1) (walkLine n pc b dr dc r c acc).
Proof.
  intros Hd. induction n as [|n IH]; intros k r c acc Hk Hr Hc Hfree Ha; simpl.
  - destruct (isValidPosition r c); [intros a H; discriminate|].
    apply ensures_Ret. exact Ha.
  - destruct (isValidPosition r c); [|apply ensures_Ret; exact Ha].
    assert (Here : slides b pos D (mkPosition r c)).
    { exists dr, dc, k. simpl. auto. }
    eapply ensures_bind; [apply ensures_self|]. intros [t|] Ht; cbv beta iota.
    + destruct (negb _); apply ensures_Ret; [apply pushValid_all; assumption | exact Ha].
    + apply (IH (k + 1)); [lia | lia | lia | | apply pushValid_all; assumption].
      intros j Hj. destruct (decide (j = k)) as [->|Hne].
      * rewrite <- Hr, <- Hc. exact Ht.
      * apply Hfree. lia.
Qed.

Lemma calculateLineMovementsRaw_slides pos dirs D acc b :
  (forall d, In d dirs -> In d D) ->
  Forall (slides b pos D) acc.1 ->
  ensures (fun a : Acc => Forall (slides b pos D) a.1)
          (calculateLineMovementsRaw pos dirs acc b).
Proof.
  intros Hsub Ha. unfold calculateLineMovementsRaw.
  eapply ensures_bind with (Q := fun _ => True); [intros ? _; exact I|].
  intros [pc|] _; [|apply ensures_Ret; exact Ha].
  apply ensures_foldM; [|exact Ha]. intros [dr dc] a Hin Ha'. simpl.
  apply (walkLine_slides pos pc b D dr dc (Hsub _ Hin) 8 1); [lia | lia | lia | | exact Ha'].
  intros j Hj. lia.
Qed.

(** X18. Rook, bishop and queen move along clear lines.  A raw move of a
    rook lies on the row or the column of its square, a raw move of a
    bishop on a diagonal, a raw move of a queen on either, and every
    square strictly between the piece and the destination is empty: a line
    piece never jumps. *)
Theorem line_moves_follow_clear_rays (fuel : nat) (s : ChessGameState)
    (pos : Position) (ty : PieceType) (b : Board) (ms : ValidMoves) (mv : Position) :
  ty = ROOK \/ ty = BISHOP \/ ty = QUEEN ->
  calculateRawMovesByPieceType fuel s pos ty b = Ret ms ->
  In mv ms ->
  exists dr dc k,
    In (dr, dc) (lineDirections ty) /\ 1 <= k /\
    row mv = row pos + k * dr /\ col mv = col pos + k * dc /\
    forall j, 1 <= j < k -> pieceAt b (row pos + j * dr) (col pos + j * dc) = Ret None.
Proof.
  intros Hty H Hin.
  assert (E : ensures (fun a : Acc => Forall (slides b pos (lineDirections ty)) a.1)
                (match ty with
                 | ROOK => calculateRookMovesRaw pos ([], []) b
                 | BISHOP => calculateBishopMovesRaw pos ([], []) b
                 | _ => calculateQueenMovesRaw pos ([], []) b
                 end)).
  { destruct Hty as [-> | [-> | ->]]; unfold lineDirections.
    - apply calculateLineMovementsRaw_slides; [auto | constructor].
    - apply calculateLineMovementsRaw_slides; [auto | constructor].
    - unfold calculateQueenMovesRaw.
      eapply ensures_bind
        with (Q := fun a : Acc =>
                     Forall (slides b pos (rookDirections ++ bishopDirections)) a.1).
      + apply calculateLineMovementsRaw_slides; [|constructor].
        intros d Hd. apply in_or_app. auto.
      + intros acc1 A1. apply calculateLineMovementsRaw_slides; [|exact A1].
        intros d Hd. apply in_or_app. auto. }
  unfold calculateRawMovesByPieceType, calculateRawMovesByPieceTypeWith in H.
  bind_inv H. inversion H; subst ms; clear H.
  assert (F : Forall (slides b pos (lineDirections ty)) a.1).
  { destruct Hty as [-> | [-> | ->]]; exact (E a Hm). }
  rewrite Forall_forall in F.
  exact (F mv (proj2 (list_elem_of_In _ _) Hin)).
Qed.

Lemma line_moves_follow_clear_rays_witness :
  let s := afterPlay 3 classic [move 6 4 4 4; move 1 3 3 3] in
  exists dr dc k,
    In (dr, dc) (lineDirections BISHOP) /\ 1 <= k /\
    row (square 3 1) = row (square 7 5) + k * dr /\
    col (square 3 1) = col (square 7 5) + k * dc /\
    forall j, 1 <= j < k ->
              pieceAt (board s) (row (square 7 5) + j * dr) (col (square 7 5) + j * dc)
              = Ret None.
Proof.
  intros s.
  apply (line_moves_follow_clear_rays 3 s (square 7 5) BISHOP (board s)
           [square 6 4; square 5 3; square 4 2; square 3 1; square 2 0]).
  - auto.
  - vm_compute. reflexivity.
  - simpl. auto.
Defined.

Lemma calculatePawnMovesRaw_steps this pos acc b pc :
  pieceAt b (row pos) (col pos) = Ret (Some pc) ->
  Forall (pawnStep this b pos pc) acc.1 ->
  ensures (fun a : Acc => Forall (pawnStep this b pos pc) a.1)
          (calculatePawnMovesRaw this pos acc b).
Proof.
  intros Hp Ha. unfold calculatePawnMovesRaw.
  apply (ensures_bind_Ret _ _ _ _ Hp). cbv beta iota zeta.
  unfold pawnStep.
  set (direction := if color_eqb (color pc) WHITE then -1 else 1) in *.
  set (startRow := if color_eqb (color pc) WHITE then 6 else 1) in *.
  set (P := fun mv : Position => _ \/ _ \/ _) in *.
  eapply ensures_bind with (Q := fun a : Acc => Forall P a.1).
  { destruct (isValidPosition (row pos + direction) (col pos));
      [|apply ensures_Ret; exact Ha].
    eapply ensures_bind; [apply ensures_self|]. intros [t1|] H1; cbv beta iota.
    { apply ensures_Ret. exact Ha. }
    assert (A1 : Forall P (pushValid (mkPosition (row pos + direction) (col pos)) acc).1).
    { apply pushValid_all; [exact Ha|]. left. simpl. auto. }
    destruct (row pos =? startRow) eqn:Es; cbn [andb]; [|apply ensures_Ret; exact A1].
    apply Z.eqb_eq in Es.
    destruct (isValidPosition (row pos + 2 * direction) (col pos));
      [|apply ensures_Ret; exact A1].
    eapply ensures_bind; [apply ensures_self|]. intros [t2|] H2; cbv beta iota;
      apply ensures_Ret; [exact A1|].
    apply pushValid_all; [exact A1|]. right. left. simpl. auto. }
  intros acc1 A1. apply ensures_foldM; [|exact A1].
  intros off a Hoff Ha'. unfold pawnCapture. cbv zeta.
  destruct (isValidPosition _ _); [|apply ensures_Ret; exact Ha'].
  assert (Habs : Z.abs (col pos + off - col pos) = 1).
  { simpl in Hoff. destruct Hoff as [<- | [<- | []]]; lia. }
  eapply ensures_bind; [apply ensures_self|]. intros [t|] Ht; cbv beta iota.
  - destruct (negb _) eqn:E; apply ensures_Ret; [|exact Ha'].
    apply pushValid_all; [exact Ha'|]. right. right. simpl.
    split; [reflexivity|]. split; [exact Habs|]. left.
    exists t. split; [exact Ht|]. apply color_neqb. exact E.
  - eapply ensures_bind; [apply ensures_self|].
    intros [|] Hep; apply ensures_Ret; [|exact Ha'].
    apply pushValid_all; [exact Ha'|]. right. right. simpl.
    split; [reflexivity|]. split; [exact Habs|]. right. auto.
Qed.

(** X19. A pawn's raw moves.  Each is one of: the square one row ahead
    (row - 1 for White, row + 1 for Black), empty; the square two rows
    ahead, the pawn standing on its start row (6 for White, 1 for Black)
    and both squares ahead being empty; a square one row ahead and one
    column aside that holds an opposing piece, or is empty while
    [isEnPassantPossible] answers true for it.  A pawn never moves
    backwards or sideways and never captures straight ahead. *)
Theorem pawn_moves_geometry (fuel : nat) (s : ChessGameState) (pos : Position)
    (b : Board) (pc : Piece) (ms : ValidMoves) (mv : Position) :
  pieceAt b (row pos) (col pos) = Ret (Some pc) ->
  calculateRawMovesByPieceType fuel s pos PAWN b = Ret ms ->
  In mv ms ->
  pawnStep s b pos pc mv.
Proof.
  intros Hp H Hin.
  unfold calculateRawMovesByPieceType, calculateRawMovesByPieceTypeWith in H.
  bind_inv H. inversion H; subst ms; clear H.
  pose proof (calculatePawnMovesRaw_steps s pos ([], []) b pc Hp
                ltac:(constructor) a Hm) as F.
  rewrite Forall_forall in F.
  exact (F mv (proj2 (list_elem_of_In _ _) Hin)).
Qed.

Lemma pawn_moves_geometry_witness :
  let s := afterPlay 3 classic enPassantPinGame in
  pawnStep s (board s) (square 3 4) (mkPiece PAWN WHITE true) (square 2 3).
Proof.
  intros s.
  apply (pawn_moves_geometry 3 s (square 3 4) (board s) (mkPiece PAWN WHITE true)
           [square 2 4; square 2 3]).
  - vm_compute. reflexivity.
  - vm_compute. reflexivity.
  - simpl. auto.
Defined.

Lemma calculateKingMovesRaw_steps castle pos acc b pc :
  pieceAt b (row pos) (col pos) = Ret (Some pc) ->
  Forall (kingStep castle pos pc) acc.1 ->
  ensures (fun a : Acc => Forall (kingStep castle pos pc) a.1)
          (calculateKingMovesRaw castle pos acc b).
Proof.
  intros Hp Ha. unfold calculateKingMovesRaw.
  apply (ensures_bind_Ret _ _ _ _ Hp). cbv beta iota.
  eapply ensures_bind with (Q := fun a : Acc => Forall (kingStep castle pos pc) a.1).
  { apply ensures_foldM; [|exact Ha]. intros d a Hin Ha'.
    apply stepMove_all; [|exact Ha'].
    left. simpl in Hin |- *.
    repeat (destruct Hin as [<- | Hin]; [simpl; lia|]). destruct Hin. }
  intros acc1 H1. destruct (hasMoved pc) eqn:Eh; cbn [negb andb];
    [apply ensures_Ret; exact H1|].
  destruct (col pos =? 4) eqn:E; [|apply ensures_Ret; exact H1].
  apply Z.eqb_eq in E. cbv zeta.
  change (if color_eqb (color pc) WHITE then 7 else 0) with (homeRow (color pc)).
  eapply ensures_bind; [apply ensures_self|]. intros ks Eks.
  eapply ensures_bind; [apply ensures_self|]. intros qs Eqs.
  apply ensures_Ret.
  assert (A2 : Forall (kingStep castle pos pc)
                 (if ks then pushValid (mkPosition (homeRow (color pc)) 6) acc1
                  else acc1).1).
  { destruct ks; [|exact H1]. apply pushValid_all; [exact H1|].
    right. simpl. auto 10. }
  destruct qs; [|exact A2]. apply pushValid_all; [exact A2|].
  right. simpl. auto 10.
Qed.

(** X20. Knight and king steps.  A knight's raw move goes two squares one
    way and one square the other.  A king's raw move goes to a neighbouring
    square, or else is a castling destination: the king has [hasMoved]
    false and stands on column 4, the destination is column 6 or column 2
    of its colour's home row, and [isCastlingPossible] answers true for
    that side. *)
Theorem step_moves_geometry (fuel : nat) (s : ChessGameState) (pos : Position)
    (b : Board) (pc : Piece) (ty : PieceType) (ms : ValidMoves) (mv : Position) :
  pieceAt b (row pos) (col pos) = Ret (Some pc) ->
  calculateRawMovesByPieceType fuel s pos ty b = Ret ms ->
  In mv ms ->
  (ty = KNIGHT ->
   Z.abs (row mv - row pos) * Z.abs (col mv - col pos) = 2) /\
  (ty = KING -> kingStep (isCastlingPossible fuel s) pos pc mv).
Proof.
  intros Hp H Hin.
  unfold calculateRawMovesByPieceType, calculateRawMovesByPieceTypeWith in H.
  bind_inv H. inversion H; subst ms; clear H.
  apply list_elem_of_In in Hin.
  split; intros ->.
  - unfold calculateKnightMovesRaw in Hm. rewrite Hp in Hm. cbn [bind] in Hm.
    assert (F : Forall (fun m => Z.abs (row m - row pos) * Z.abs (col m - col pos) = 2)
                  a.1).
    { refine (ensures_foldM (fun a : Acc => Forall _ a.1) _ _ _ ([], []) _ a Hm);
        [|constructor].
      intros d a' Hd Ha'. apply stepMove_all; [|exact Ha'].
      simpl in Hd |- *.
      repeat (destruct Hd as [<- | Hd]; [simpl; lia|]). destruct Hd. }
    rewrite Forall_forall in F. exact (F mv Hin).
  - pose proof (calculateKingMovesRaw_steps (isCastlingPossible fuel s) pos ([], []) b pc
                  Hp ltac:(constructor) a Hm) as F.
    rewrite Forall_forall in F. exact (F mv Hin).
Qed.

Lemma step_moves_geometry_witness :
  let s := afterPlay 3 classic castlingGame in
  (KING = KNIGHT ->
   Z.abs (row (square 7 6) - row (square 7 4))
   * Z.abs (col (square 7 6) - col (square 7 4)) = 2) /\
  (KING = KING ->
   kingStep (isCastlingPossible 3 s) (square 7 4) (mkPiece KING WHITE false)
     (square 7 6)).
Proof.
  intros s.
  apply (step_moves_geometry 3 s (square 7 4) (board s) (mkPiece KING WHITE false) KING
           [square 7 5; square 7 6]).
  - vm_compute. reflexivity.
  - vm_compute. reflexivity.
  - simpl. auto.
Defined.

(** ** Every such square is offered *)

Lemma pieceAt_valid b r c t :
  wfBoard b -> pieceAt b r c = Ret t -> isValidPosition r c = true.
Proof.
  intros W H. destruct (isValidPosition r c) eqn:V; [reflexivity|].
  rewrite (pieceAt_out_of_range _ _ _ W V) in H. discriminate.
Qed.

Lemma pushValid_keeps mv (acc : Acc) x : In x acc.1 -> In x (pushValid mv acc).1.
Proof. intros H. unfold pushValid. simpl. apply in_or_app. auto. Qed.

Lemma pushValid_adds mv (acc : Acc) : In mv (pushValid mv acc).1.
Proof. unfold pushValid. simpl. apply in_or_app. right. left. reflexivity. Qed.

Lemma foldM_keeps {A} (f : A -> Acc -> outcome Acc) l :
  (forall x a a', f x a = Ret a' -> forall mv, In mv a.1 -> In mv a'.1) ->
  forall a a', foldM f l a = Ret a' -> forall mv, In mv a.1 -> In mv a'.1.
Proof.
  intros Hf. induction l as [|x l IH]; intros a a' H mv Hin; simpl in H.
  - inversion H; subst. exact Hin.
  - bind_inv H. eapply IH; [exact H|]. eapply Hf; eauto.
Qed.

Lemma foldM_adds {A} (f : A -> Acc -> outcome Acc) l d target :
  In d l ->
  (forall x a a', f x a = Ret a' -> forall mv, In mv a.1 -> In mv a'.1) ->
  (forall a a', f d a = Ret a' -> In target a'.1) ->
  forall a a', foldM f l a = Ret a' -> In target a'.1.
Proof.
  intros Hd Hk Ha. induction l as [|x l IH]; intros a a' H; [destruct Hd|].
  simpl in H. bind_inv H. destruct Hd as [-> | Hd].
  - eapply (foldM_keeps f l Hk); [exact H|]. eapply Ha. exact Hm.
  - eapply IH; eauto.
Qed.

Lemma walkLine_keeps pc b dr dc : forall n r c acc acc',
  walkLine n pc b dr dc r c acc = Ret acc' ->
  forall mv, In mv acc.1 -> In mv acc'.1.
Proof.
  induction n as [|n IH]; intros r c acc acc' H mv Hin; simpl in H.
  - destruct (isValidPosition r c); [discriminate|]. inversion H; subst. exact Hin.
  - destruct (isValidPosition r c); [|inversion H; subst; exact Hin].
    bind_inv H. destruct a as [t|].
    + destruct (negb _); inversion H; subst; [apply pushValid_keeps|]; exact Hin.
    + eapply IH; [exact H|]. apply pushValid_keeps. exact Hin.
Qed.

Lemma walkLine_reaches pc b dr dc : forall n k r c acc acc',
  0 <= k ->
  walkLine n pc b dr dc r c acc = Ret acc' ->
  (forall j, 0 <= j < k ->
             isValidPosition (r + j * dr) (c + j * dc) = true /\
             pieceAt b (r + j * dr) (c + j * dc) = Ret None) ->
  isValidPosition (r + k * dr) (c + k * dc) = true ->
  (forall t, pieceAt b (r + k * dr) (c + k * dc) = Ret (Some t) ->
             color t <> color pc) ->
  In (mkPosition (r + k * dr) (c + k * dc)) acc'.1.
Proof.
  induction n as [|n IH]; intros k r c acc acc' Hk H Hfree Hv Ht; simpl in H.
  - destruct (isValidPosition r c) eqn:V; [discriminate|].
    destruct (decide (k = 0)) as [->|Hne].
    + replace (r + 0 * dr) with r in Hv by lia.
      replace (c + 0 * dc) with c in Hv by lia. congruence.
    + destruct (Hfree 0 ltac:(lia)) as [V0 _].
      replace (r + 0 * dr) with r in V0 by lia.
      replace (c + 0 * dc) with c in V0 by lia. congruence.
  - destruct (decide (k = 0)) as [->|Hne].
    + replace (r + 0 * dr) with r in * by lia.
      replace (c + 0 * dc) with c in * by lia.
      rewrite Hv in H. bind_inv H. destruct a as [t|].
      * destruct (negb (color_eqb (color t) (color pc))) eqn:E.
        -- inversion H; subst. apply pushValid_adds.
        -- exfalso. apply (Ht t Hm).
           destruct (color t), (color pc); simpl in E; congruence.
      * eapply walkLine_keeps; [exact H|]. apply pushValid_adds.
    + destruct (Hfree 0 ltac:(lia)) as [V0 P0].
      replace (r + 0 * dr) with r in V0, P0 by lia.
      replace (c + 0 * dc) with c in V0, P0 by lia.
      rewrite V0, P0 in H. cbn [bind] in H.
      replace (r + k * dr) with ((r + dr) + (k - 1) * dr) in * by lia.
      replace (c + k * dc) with ((c + dc) + (k - 1) * dc) in * by lia.
      apply (IH (k - 1) (r + dr) (c + dc) (pushValid (mkPosition r c) acc) acc');
        [lia | exact H | | exact Hv | exact Ht].
      intros j Hj. destruct (Hfree (j + 1) ltac:(lia)) as [V1 P1].
      replace (r + (j + 1) * dr) with (r + dr + j * dr) in V1, P1 by lia.
      replace (c + (j + 1) * dc) with (c + dc + j * dc) in V1, P1 by lia.
      auto.
Qed.

Lemma calculateLineMovementsRaw_reaches pos dirs acc acc' b pc dr dc k :
  wfBoard b ->
  pieceAt b (row pos) (col pos) = Ret (Some pc) ->
  calculateLineMovementsRaw pos dirs acc b = Ret acc' ->
  (forall mv, In mv acc.1 -> In mv acc'.1) /\
  (In (dr, dc) dirs -> 1 <= k ->
   (forall j, 1 <= j < k ->
              pieceAt b (row pos + j * dr) (col pos + j * dc) = Ret None) ->
   (exists t, pieceAt b (row pos + k * dr) (col pos + k * dc) = Ret t /\
              forall q, t = Some q -> color q <> color pc) ->
   In (mkPosition (row pos + k * dr) (col pos + k * dc)) acc'.1).
Proof.
  intros W Hp H. unfold calculateLineMovementsRaw in H. rewrite Hp in H.
  cbn [bind] in H.
  assert (K : forall (x : Z * Z) (a a' : Acc),
             walkLine 8 pc b x.1 x.2 (row pos + x.1) (col pos + x.2) a = Ret a' ->
             forall mv, In mv a.1 -> In mv a'.1).
  { intros x a a' Hw. eapply walkLine_keeps. exact Hw. }
  split; [exact (foldM_keeps _ dirs K acc acc' H)|].
  intros Hd Hk Hfree (t & Ht & Hq).
  refine (foldM_adds _ dirs (dr, dc) _ Hd K _ acc acc' H).
  intros a a' Hw. simpl in Hw.
  replace (row pos + k * dr) with ((row pos + dr) + (k - 1) * dr) in * by lia.
  replace (col pos + k * dc) with ((col pos + dc) + (k - 1) * dc) in * by lia.
  apply (walkLine_reaches pc b dr dc 8 (k - 1) _ _ a a'); [lia | exact Hw | | |].
  - intros j Hj. pose proof (Hfree (j + 1) ltac:(lia)) as P.
    replace (row pos + (j + 1) * dr) with (row pos + dr + j * dr) in P by lia.
    replace (col pos + (j + 1) * dc) with (col pos + dc + j * dc) in P by lia.
    split; [exact (pieceAt_valid _ _ _ _ W P) | exact P].
  - exact (pieceAt_valid _ _ _ _ W Ht).
  - intros q Hq'. rewrite Hq' in Ht. inversion Ht; subst t. apply Hq. reflexivity.
Qed.

(** X21. Rook, bishop and queen reach every square of a clear line.  On a
    board of eight by eight squares, when the generator returns, a square
    on a ray of the piece (row or column for a rook, diagonal for a bishop,
    either for a queen) is among the raw moves as soon as every square
    before it on the ray is empty and it is itself empty or held by a piece
    of the other colour. *)
Theorem line_moves_complete (fuel : nat) (s : ChessGameState) (pos : Position)
    (ty : PieceType) (b : Board) (pc : Piece) (ms : ValidMoves) (dr dc k : Z) :
  wfBoard b ->
  pieceAt b (row pos) (col pos) = Ret (Some pc) ->
  calculateRawMovesByPieceType fuel s pos ty b = Ret ms ->
  In (dr, dc) (lineDirections ty) ->
  1 <= k ->
  (forall j, 1 <= j < k ->
             pieceAt b (row pos + j * dr) (col pos + j * dc) = Ret None) ->
  (exists t, pieceAt b (row pos + k * dr) (col pos + k * dc) = Ret t /\
             forall q, t = Some q -> color q <> color pc) ->
  In (mkPosition (row pos + k * dr) (col pos + k * dc)) ms.
Proof.
  intros W Hp H Hd Hk Hfree Ht.
  unfold calculateRawMovesByPieceType, calculateRawMovesByPieceTypeWith in H.
  bind_inv H. inversion H; subst ms; clear H.
  destruct ty; try (simpl in Hd; contradiction).
  - exact (proj2 (calculateLineMovementsRaw_reaches _ _ _ _ _ _ dr dc k W Hp Hm)
             Hd Hk Hfree Ht).
  - exact (proj2 (calculateLineMovementsRaw_reaches _ _ _ _ _ _ dr dc k W Hp Hm)
             Hd Hk Hfree Ht).
  - unfold calculateQueenMovesRaw in Hm. bind_inv Hm.
    destruct (calculateLineMovementsRaw_reaches _ _ _ _ _ _ dr dc k W Hp Hm0) as [_ R1].
    destruct (calculateLineMovementsRaw_reaches _ _ _ _ _ _ dr dc k W Hp Hm) as [K2 R2].
    change (In (dr, dc) (rookDirections ++ bishopDirections)) in Hd.
    apply in_app_or in Hd as [Hd | Hd].
    + apply K2. apply R1; assumption.
    + apply R2; assumption.
Qed.

Lemma line_moves_complete_witness :
  let s := afterPlay 3 classic [move 6 4 4 4; move 1 3 3 3] in
  In (mkPosition (7 + 4 * -1) (5 + 4 * -1))
     [square 6 4; square 5 3; square 4 2; square 3 1; square 2 0].
Proof.
  intros s.
  apply (line_moves_complete 3 s (square 7 5) BISHOP (board s)
           (mkPiece BISHOP WHITE false)
           [square 6 4; square 5 3; square 4 2; square 3 1; square 2 0] (-1) (-1) 4).
  - unfold wfBoard. vm_compute. split; [reflexivity | repeat constructor].
  - vm_compute. reflexivity.
  - vm_compute. reflexivity.
  - simpl. auto.
  - lia.
  - intros j Hj. assert (E : j = 1 \/ j = 2 \/ j = 3) by lia.
    destruct E as [-> | [-> | ->]]; vm_compute; reflexivity.
  - exists None. split; [vm_compute; reflexivity | discriminate].
Defined.

Lemma stepMove_keeps pos pc b d acc acc' :
  stepMove pos pc b d acc = Ret acc' -> forall mv, In mv acc.1 -> In mv acc'.1.
Proof.
  unfold stepMove. cbv zeta. intros H mv Hin.
  destruct (isValidPosition _ _); [|inversion H; subst; exact Hin].
  bind_inv H. destruct a as [t|].
  - destruct (negb _); inversion H; subst; [apply pushValid_keeps|]; exact Hin.
  - inversion H; subst. apply pushValid_keeps. exact Hin.
Qed.

Lemma stepMove_reaches pos pc b d acc acc' :
  stepMove pos pc b d acc = Ret acc' ->
  isValidPosition (row pos + d.1) (col pos + d.2) = true ->
  (forall t, pieceAt b (row pos + d.1) (col pos + d.2) = Ret (Some t) ->
             color t <> color pc) ->
  In (mkPosition (row pos + d.1) (col pos + d.2)) acc'.1.
Proof.
  unfold stepMove. cbv zeta. intros H V Ht. rewrite V in H.
  bind_inv H. destruct a as [t|].
  - destruct (negb (color_eqb (color t) (color pc))) eqn:E.
    + inversion H; subst. apply pushValid_adds.
    + exfalso. apply (Ht t Hm). destruct (color t), (color pc); simpl in E; congruence.
  - inversion H; subst. apply pushValid_adds.
Qed.

(** X22. Knight and king reach every square a step away.  When the
    generator returns, the square at a knight's offset from a knight, or
    next to a king, is among the raw moves as soon as it is a square of the
    board that is empty or held by a piece of the other colour. *)
Theorem step_moves_complete (fuel : nat) (s : ChessGameState) (pos : Position)
    (b : Board) (pc : Piece) (ty : PieceType) (ms : ValidMoves) (d : Z * Z) :
  pieceAt b (row pos) (col pos) = Ret (Some pc) ->
  calculateRawMovesByPieceType fuel s pos ty b = Ret ms ->
  (ty = KNIGHT /\ In d knightMoves) \/ (ty = KING /\ In d normalMoves) ->
  isValidPosition (row pos + d.1) (col pos + d.2) = true ->
  (forall t, pieceAt b (row pos + d.1) (col pos + d.2) = Ret (Some t) ->
             color t <> color pc) ->
  In (mkPosition (row pos + d.1) (col pos + d.2)) ms.
Proof.
  intros Hp H Hty V Ht.
  unfold calculateRawMovesByPieceType, calculateRawMovesByPieceTypeWith in H.
  bind_inv H. inversion H; subst ms; clear H.
  assert (K : forall (x : Z * Z) (a0 a' : Acc),
             stepMove pos pc b x a0 = Ret a' ->
             forall mv, In mv a0.1 -> In mv a'.1).
  { intros x a0 a' Hs. eapply stepMove_keeps. exact Hs. }
  assert (R : forall a0 a' : Acc,
             stepMove pos pc b d a0 = Ret a' ->
             In (mkPosition (row pos + d.1) (col pos + d.2)) a'.1).
  { intros a0 a' Hs. eapply stepMove_reaches; eauto. }
  destruct Hty as [[-> Hd] | [-> Hd]].
  - unfold calculateKnightMovesRaw in Hm. rewrite Hp in Hm. cbn [bind] in Hm.
    exact (foldM_adds _ knightMoves d _ Hd K R _ _ Hm).
  - unfold calculateKingMovesRaw in Hm. rewrite Hp in Hm. cbn [bind] in Hm.
    bind_inv Hm.
    pose proof (foldM_adds _ normalMoves d _ Hd K R _ _ Hm0) as Hin.
    destruct (negb (hasMoved pc) && (col pos =? 4)); [|inversion Hm; subst; exact Hin].
    cbv zeta in Hm. bind_inv Hm. bind_inv Hm. inversion Hm; subst a; clear Hm.
    destruct a1, a2; repeat apply pushValid_keeps; exact Hin.
Qed.

Lemma step_moves_complete_witness :
  In (mkPosition (7 + (-2, 1).1) (1 + (-2, 1).2)) [square 5 0; square 5 2].
Proof.
  apply (step_moves_complete 2 (constructor classic) (square 7 1)
           (board (constructor classic)) (mkPiece KNIGHT WHITE false) KNIGHT
           [square 5 0; square 5 2] (-2, 1)).
  - vm_compute. reflexivity.
  - vm_compute. reflexivity.
  - left. split; [reflexivity|]. simpl. auto.
  - reflexivity.
  - intros t H. vm_compute in H. discriminate H.
Defined.

Lemma pawnCapture_keeps this pos pc direction b off acc acc' :
  pawnCapture this pos pc direction b off acc = Ret acc' ->
  forall mv, In mv acc.1 -> In mv acc'.1.
Proof.
  unfold pawnCapture. cbv zeta. intros H mv Hin.
  destruct (isValidPosition _ _); [|inversion H; subst; exact Hin].
  bind_inv H. destruct a as [t|].
  - destruct (negb _); inversion H; subst; [apply pushValid_keeps|]; exact Hin.
  - bind_inv H. destruct a; inversion H; subst; [apply pushValid_keeps|]; exact Hin.
Qed.

(** X23. A pawn is offered each of its moves.  On a board of eight by eight
    squares, when the generator returns, every square that passes the test
    of one of the three kinds of pawn move (one ahead, two ahead from the
    start row, diagonal capture or en passant) is among the raw moves. *)
Theorem pawn_moves_complete (fuel : nat) (s : ChessGameState) (pos : Position)
    (b : Board) (pc : Piece) (ms : ValidMoves) (mv : Position) :
  wfBoard b ->
  pieceAt b (row pos) (col pos) = Ret (Some pc) ->
  calculateRawMovesByPieceType fuel s pos PAWN b = Ret ms ->
  pawnStep s b pos pc mv ->
  In (mkPosition (row mv) (col mv)) ms.
Proof.
  intros W Hp H Hstep.
  unfold calculateRawMovesByPieceType, calculateRawMovesByPieceTypeWith in H.
  bind_inv H. inversion H; subst ms; clear H.
  unfold calculatePawnMovesRaw in Hm. rewrite Hp in Hm. cbn [bind] in Hm.
  cbv zeta in Hm. unfold pawnStep in Hstep. cbv zeta in Hstep.
  set (direction := if color_eqb (color pc) WHITE then -1 else 1) in *.
  set (startRow := if color_eqb (color pc) WHITE then 6 else 1) in *.
  bind_inv Hm.
  assert (K : forall (x : Z) (a1 a' : Acc),
             pawnCapture s pos pc direction b x a1 = Ret a' ->
             forall m, In m a1.1 -> In m a'.1).
  { intros x a1 a' Hc. eapply pawnCapture_keeps. exact Hc. }
  destruct Hstep as [(Er & Ec & Hn) | [(Er & Ec & Es & Hn1 & Hn2) | (Er & Ec & Hcap)]].
  - (* one row ahead *)
    apply (foldM_keeps _ _ K _ _ Hm). rewrite Er, Ec in Hn |- *.
    rewrite (pieceAt_valid _ _ _ _ W Hn), Hn in Hm0. cbn [bind] in Hm0.
    destruct (_ && _).
    + bind_inv Hm0. destruct a1; inversion Hm0; subst;
        [|apply pushValid_keeps]; apply pushValid_adds.
    + inversion Hm0; subst. apply pushValid_adds.
  - (* two rows ahead *)
    apply (foldM_keeps _ _ K _ _ Hm). rewrite Er, Ec in Hn2 |- *.
    rewrite (pieceAt_valid _ _ _ _ W Hn1), Hn1 in Hm0. cbn [bind] in Hm0.
    rewrite (proj2 (Z.eqb_eq _ _) Es), (pieceAt_valid _ _ _ _ W Hn2), Hn2 in Hm0.
    cbn [andb bind] in Hm0. inversion Hm0; subst. apply pushValid_adds.
  - (* capture *)
    assert (Hoff : exists off, In off [-1; 1] /\ col mv = col pos + off).
    { destruct (decide (col mv - col pos = 1)) as [E|E].
      - exists 1. split; [simpl; auto | lia].
      - exists (-1). split; [simpl; auto | lia]. }
    destruct Hoff as (off & Hoff & Eo). rewrite Er, Eo in Hcap |- *.
    refine (foldM_adds _ [-1; 1] off _ Hoff K _ _ _ Hm).
    intros a1 a' Hc. unfold pawnCapture in Hc. cbv zeta in Hc.
    destruct Hcap as [(t & Ht & Hne) | [Hn Hep]].
    + rewrite (pieceAt_valid _ _ _ _ W Ht), Ht in Hc. cbn [bind] in Hc.
      destruct (negb (color_eqb (color t) (color pc))) eqn:E.
      * inversion Hc; subst. apply pushValid_adds.
      * exfalso. apply Hne. destruct (color t), (color pc); simpl in E; congruence.
    + rewrite (pieceAt_valid _ _ _ _ W Hn), Hn in Hc. cbn [bind] in Hc.
      assert (Em : mv = mkPosition (row pos + direction) (col pos + off))
        by (destruct mv; simpl in *; congruence).
      rewrite <- Em, Hep in Hc. cbn [bind] in Hc.
      inversion Hc; subst a'. rewrite Em. apply pushValid_adds.
Qed.

Lemma pawn_moves_complete_witness :
  In (mkPosition 4 4) [square 5 4; square 4 4].
Proof.
  apply (pawn_moves_complete 2 (constructor classic) (square 6 4)
           (board (constructor classic)) (mkPiece PAWN WHITE false)
           [square 5 4; square 4 4] (square 4 4)).
  - unfold wfBoard. vm_compute. split; [reflexivity | repeat constructor].
  - vm_compute. reflexivity.
  - vm_compute. reflexivity.
  - right. left. vm_compute. repeat split.
Defined.

(** ** A move is made entirely or not at all *)

Lemma finishes_Ret {A} (a : A) : finishes (Ret a).
Proof. discriminate. Qed.

Lemma finishes_bind {A B} (m : outcome A) (f : A -> outcome B) :
  finishes m -> (forall a, m = Ret a -> finishes (f a)) -> finishes (bind m f).
Proof.
  destruct m as [a|e]; simpl; intros Hm Hf; [apply Hf; reflexivity|].
  intros E. apply Hm. inversion E. reflexivity.
Qed.

Lemma finishes_foldM {A B} (f : A -> B -> outcome B) l :
  (forall x b, In x l -> finishes (f x b)) -> forall b, finishes (foldM f l b).
Proof.
  induction l as [|x l IH]; intros H b; simpl; [apply finishes_Ret|].
  apply finishes_bind; [apply H; left; reflexivity|].
  intros b' _. apply IH. intros y c Hy. apply H. right. exact Hy.
Qed.

Lemma finishes_existsM {A} (f : A -> outcome bool) l :
  (forall x, In x l -> finishes (f x)) -> finishes (existsM f l).
Proof.
  induction l as [|x l IH]; intros H; simpl; [apply finishes_Ret|].
  apply finishes_bind; [apply H; left; reflexivity|].
  intros [] _; [apply finishes_Ret|]. apply IH. intros y Hy. apply H. right. exact Hy.
Qed.

Lemma finishes_filterM {A} (f : A -> outcome bool) l :
  (forall x, finishes (f x)) -> finishes (filterM f l).
Proof.
  intros H. induction l as [|x l IH]; simpl; [apply finishes_Ret|].
  apply finishes_bind; [apply H|]. intros b _.
  apply finishes_bind; [exact IH|]. intros r _. apply finishes_Ret.
Qed.

Lemma finishes_post {A} (Q : A -> Prop) (m : outcome A) :
  post Q m -> finishes m -> exists a, m = Ret a /\ Q a.
Proof.
  destruct m as [a|e]; simpl; intros P F; [eauto|].
  destruct e; contradiction.
Qed.

Lemma setPiece_finishes b r c p : finishes (setPiece b r c p).
Proof.
  unfold setPiece, index.
  destruct (r <? 0); [discriminate|].
  destruct (b !! Z.to_nat r) as [l|]; [|discriminate]. simpl.
  destruct (c <? 0); [discriminate|].
  destruct (l !! Z.to_nat c); discriminate.
Qed.

Lemma isEnPassantPossible_finishes s from to : finishes (isEnPassantPossible s from to).
Proof.
  unfold isEnPassantPossible.
  apply finishes_bind; [apply pieceAt_finishes|]. intros [pc|] _; [|discriminate].
  destruct (negb (type_eqb _ _)); [discriminate|].
  destruct (negb _); [discriminate|].
  destruct (lastMove s); [|discriminate].
  destruct (color_eqb _ _); discriminate.
Qed.

Lemma pawnCapture_finishes s pos pc d b off acc :
  finishes (pawnCapture s pos pc d b off acc).
Proof.
  unfold pawnCapture. cbv zeta.
  destruct (isValidPosition _ _); [|discriminate].
  apply finishes_bind; [apply pieceAt_finishes|]. intros [t|] _.
  - destruct (negb _); discriminate.
  - apply finishes_bind; [apply isEnPassantPossible_finishes|].
    intros [] _; discriminate.
Qed.

Lemma calculatePawnMovesRaw_finishes s pos acc b :
  finishes (calculatePawnMovesRaw s pos acc b).
Proof.
  unfold calculatePawnMovesRaw.
  apply finishes_bind; [apply pieceAt_finishes|]. intros [pc|] _; [|discriminate].
  cbv zeta. apply finishes_bind.
  - destruct (isValidPosition _ _); [|discriminate].
    apply finishes_bind; [apply pieceAt_finishes|]. intros [t|] _; [discriminate|].
    destruct (_ && _); [|discriminate].
    apply finishes_bind; [apply pieceAt_finishes|]. intros [t|] _; discriminate.
  - intros acc1 _. apply finishes_foldM. intros off a _. apply pawnCapture_finishes.
Qed.

Lemma calculateLineMovementsRaw_finishes pos dirs acc b :
  (forall d, In d dirs -> In d (rookDirections ++ bishopDirections)) ->
  finishes (calculateLineMovementsRaw pos dirs acc b).
Proof.
  intros Hd. unfold calculateLineMovementsRaw.
  apply finishes_bind; [apply pieceAt_finishes|]. intros [pc|] _; [|discriminate].
  apply finishes_foldM. intros [dr dc] a Hin.
  apply walkLine_terminates. apply Hd. exact Hin.
Qed.

Lemma stepMove_finishes pos pc b m acc : finishes (stepMove pos pc b m acc).
Proof.
  unfold stepMove. cbv zeta.
  destruct (isValidPosition _ _); [|discriminate].
  apply finishes_bind; [apply pieceAt_finishes|]. intros [t|] _; [|discriminate].
  destruct (negb _); discriminate.
Qed.

(** The raw moves come to an end when the castling tests asked on behalf
    of the piece do. *)
Lemma calculateRawMovesByPieceTypeWith_finishes castle s pos ty b :
  (forall pc rc,
      pieceAt b (row pos) (col pos) = Ret (Some pc) -> rc = 7 \/ rc = 0 ->
      finishes (castle (mkPosition (homeRow (color pc)) 4)
                       (mkPosition (homeRow (color pc)) rc))) ->
  finishes (calculateRawMovesByPieceTypeWith castle s pos ty b).
Proof.
  intros Hc. unfold calculateRawMovesByPieceTypeWith.
  apply finishes_bind; [|intros; discriminate].
  destruct ty.
  - apply calculatePawnMovesRaw_finishes.
  - apply calculateLineMovementsRaw_finishes. intros d Hd. apply in_or_app. auto.
  - unfold calculateKnightMovesRaw.
    apply finishes_bind; [apply pieceAt_finishes|]. intros [pc|] _; [|discriminate].
    apply finishes_foldM. intros m a _. apply stepMove_finishes.
  - apply calculateLineMovementsRaw_finishes. intros d Hd. apply in_or_app. auto.
  - unfold calculateQueenMovesRaw.
    apply finishes_bind;
      [apply calculateLineMovementsRaw_finishes; intros d Hd; apply in_or_app; auto|].
    intros acc1 _.
    apply calculateLineMovementsRaw_finishes. intros d Hd. apply in_or_app. auto.
  - unfold calculateKingMovesRaw.
    apply finishes_bind; [apply pieceAt_finishes|]. intros [pc|] Hp; [|discriminate].
    apply finishes_bind;
      [apply finishes_foldM; intros m a _; apply stepMove_finishes|].
    intros acc1 _. destruct (_ && _); [|discriminate]. cbv zeta.
    apply finishes_bind; [apply (Hc pc 7 Hp); auto|]. intros ks _.
    apply finishes_bind; [apply (Hc pc 0 Hp); auto|]. intros qs _.
    discriminate.
Qed.

Lemma keepsKingSafe_finishes fuel s pos pc mv : finishes (keepsKingSafe fuel s pos pc mv).
Proof.
  unfold keepsKingSafe.
  apply finishes_bind.
  - unfold simulateMove.
    apply finishes_bind; [apply pieceAt_finishes|]. intros p _.
    apply finishes_bind; apply setPiece_finishes || (intros; apply setPiece_finishes).
  - intros tb _. unfold try_catch. destruct (let* _ := _ in _); discriminate.
Qed.

(** The legal moves of a piece of the side flagged in check come to an
    end: the castling tests of its king answer at once. *)
Lemma checked_side_moves_finish n s c sq :
  wfBoard (board s) -> unmovedAtHome (board s) -> isInCheck s = Some c ->
  (forall pc, pieceAt (board s) (row sq) (col sq) = Ret (Some pc) -> color pc = c) ->
  finishes (getValidMovesForPiece (S n) s sq).
Proof.
  intros Hw Hu Hi Hc. unfold getValidMovesForPiece.
  apply finishes_bind; [apply pieceAt_finishes|]. intros [pc|] Hp; [|discriminate].
  apply finishes_bind.
  - apply calculateRawMovesByPieceTypeWith_finishes.
    intros pc' rc Hp' Hrc. rewrite (Hc pc' Hp').
    rewrite (flagged_castling_refused n s c rc Hw Hu Hi Hrc). discriminate.
  - intros raw _. apply finishes_filterM. intros mv. apply keepsKingSafe_finishes.
Qed.

Lemma checkForCheckmate_finishes n s :
  wfBoard (board s) -> unmovedAtHome (board s) -> finishes (checkForCheckmate (S n) s).
Proof.
  intros Hw Hu. unfold checkForCheckmate.
  destruct (isInCheck s) as [c|] eqn:Hi; [|discriminate].
  apply finishes_bind; [|intros; discriminate].
  apply finishes_existsM. intros sq _. unfold canMoveFrom.
  apply finishes_bind; [apply pieceAt_finishes|]. intros [pc|] Hp; [|discriminate].
  destruct (color_eqb (color pc) c) eqn:Ec; [|discriminate].
  apply color_eqb_eq in Ec.
  apply finishes_bind; [|intros; discriminate].
  apply (checked_side_moves_finish n s c sq Hw Hu Hi).
  intros pc' Hp'. rewrite Hp in Hp'. inversion Hp' as [Epc]. rewrite <- Epc. exact Ec.
Qed.

(** [handlePostMove] always returns: its check detection catches what is
    thrown, and its checkmate detection comes to an end. *)
Lemma handlePostMove_returns n s :
  wfBoard (board s) -> unmovedAtHome (board s) ->
  exists s', handlePostMove (S n) s = Ret s' /\ board s' = board s.
Proof.
  intros Hw Hu.
  apply finishes_post; [apply handlePostMove_post; exact Hw|].
  unfold handlePostMove.
  destruct (checkForCheck_returns (S n) (advanceTurn s)) as [s1 E1]. rewrite E1.
  cbn [bind]. destruct (checkForCheck_frame _ _ _ E1) as [c ->].
  destruct (isSome _); [|discriminate].
  apply finishes_bind.
  - apply checkForCheckmate_finishes; cbn [board set_isInCheck];
      rewrite board_advanceTurn; assumption.
  - intros s2 _. destruct (isSome _); discriminate.
Qed.

Lemma promotePawn_on_board_returns g fuel s pos newType :
  reachable g s ->
  (1 <= fuel)%nat ->
  inRange pos ->
  exists s', promotePawn fuel s pos newType = Ret s' /\
             leaves fuel (OpPromotePawn pos (Some newType)) s = s'.
Proof.
  intros R Hf Hp. destruct fuel as [|n]; [lia|].
  pose proof (reachable_wf _ _ R) as Hw.
  pose proof (reachable_unmoved _ _ R) as Hu.
  assert (F : finishes (promotePawn (S n) s pos newType)).
  { unfold promotePawn.
    apply finishes_bind; [apply pieceAt_finishes|]. intros [pc|] _; [|discriminate].
    destruct (negb (type_eqb _ _)); [discriminate|]. cbv zeta.
    destruct (negb _); [discriminate|].
    apply finishes_bind; [apply setPiece_finishes|]. intros b Hb.
    destruct (checkForCheck_returns (S n) (set_board s b)) as [s1 E1]. rewrite E1.
    cbn [bind]. destruct (checkForCheck_frame _ _ _ E1) as [c ->].
    destruct (isSome _); [|discriminate].
    apply checkForCheckmate_finishes; cbn [board set_isInCheck set_board].
    - eapply setPiece_wf; eassumption.
    - eapply setPiece_unmoved; [|exact Hu|exact Hb].
      intros q Hq. inversion Hq. reflexivity. }
  destruct (finishes_post _ _ (promotePawn_post (S n) s pos newType Hw Hp) F)
    as (s' & E & _).
  exists s'. split; [exact E|].
  apply (run_leaves (S n) (OpPromotePawn pos (Some newType)) s RVoid).
  simpl. rewrite E. reflexivity.
Qed.

(** X30. In every reachable state [promotePawn] returns when its position
    names a square of the board (the stack having room for one castling
    test): the writes are on the board, [checkForCheck] catches what its
    tests throw, and [checkForCheckmate] comes to an end, since the castling
    test of a king flagged in check answers before it asks about any
    square. *)
Theorem promotePawn_returns (g : GameType) (fuel : nat) (s : ChessGameState)
    (pos : Position) (newType : PieceType) :
  reachable g s ->
  (1 <= fuel)%nat ->
  inRange pos ->
  exists s', promotePawn fuel s pos newType = Ret s' /\
             leaves fuel (OpPromotePawn pos (Some newType)) s = s'.
Proof. apply promotePawn_on_board_returns. Qed.

Lemma promotePawn_returns_witness :
  exists s', promotePawn 5 openKingsides (square 6 0) QUEEN = Ret s'.
Proof.
  destruct (promotePawn_returns classic 5 openKingsides (square 6 0) QUEEN)
    as (s' & E & _); [exact openKingsides_reachable | lia | reflexivity|].
  exists s'. exact E.
Defined.

Lemma castle_rewritten s pc r k t f s1 :
  castle s pc r k t f = Ret s1 -> rewritten (board s) (board s1).
Proof.
  intros Hc. unfold castle in Hc. do 4 bind_inv Hc. inversion Hc; subst. simpl.
  assert (M : forall ty c q, Some (mkPiece ty c true) = Some q -> hasMoved q = true)
    by (intros ty c q E; inversion E; reflexivity).
  assert (N : forall q : Piece, None = Some q -> hasMoved q = true) by discriminate.
  eapply rewritten_step; [eassumption | apply M |].
  eapply rewritten_step; [eassumption | apply M |].
  eapply rewritten_step; [eassumption | apply N |].
  eapply rewritten_one; [eassumption | apply N].
Qed.

(** Once the castling test has answered true, the castling move is made
    to its end. *)
Lemma castling_is_completed n s pc k t f :
  wfBoard (board s) -> unmovedAtHome (board s) ->
  0 <= k < 8 -> 0 <= t < 8 -> 0 <= f < 8 ->
  exists s2,
    (do* _ := Tracked.castle pc (homeRow (color pc)) k t f in
     do* _ := Tracked.handlePostMove (S n) in retM true) s = Done true s2.
Proof.
  intros Hw Hu Hk Ht Hf.
  assert (V : forall c, 0 <= c < 8 -> isValidPosition (homeRow (color pc)) c = true).
  { intros c Hc. apply isValidPosition_iff. unfold homeRow.
    destruct (color_eqb _ _); lia. }
  assert (F : finishes (castle s pc (homeRow (color pc)) k t f)).
  { unfold castle.
    apply finishes_bind; [apply setPiece_finishes|]. intros b1 _.
    apply finishes_bind; [apply setPiece_finishes|]. intros b2 _.
    apply finishes_bind; [apply setPiece_finishes|]. intros b3 _.
    apply finishes_bind; [apply setPiece_finishes|]. intros b4 _. discriminate. }
  destruct (finishes_post _ _
              (castle_post s pc (homeRow (color pc)) k t f Hw
                 (V k Hk) (V t Ht) (V 4 ltac:(lia)) (V f Hf)) F) as (s1 & E1 & W1).
  pose proof (rewritten_unmoved _ _ (castle_rewritten _ _ _ _ _ _ _ E1) Hu) as U1.
  destruct (handlePostMove_returns n s1 W1 U1) as (s2 & E2 & _).
  exists s2. apply returned_Done.
  rewrite returned_bindM_eq, castle_tracked, E1. cbn [bind fst snd].
  rewrite returned_bindM_eq, handlePostMove_tracked, E2. reflexivity.
Qed.

Lemma ordinaryMove_finishes n s pc from to :
  wfBoard (board s) -> unmovedAtHome (board s) ->
  finishes (getValidMovesForPiece (S n) s from) ->
  finishes (ordinaryMove (S n) s pc from to).
Proof.
  intros Hw Hu Hv. unfold ordinaryMove.
  assert (M : forall ty c q, Some (mkPiece ty c true) = Some q -> hasMoved q = true)
    by (intros ty c q E; inversion E; reflexivity).
  assert (N : forall q : Piece, None = Some q -> hasMoved q = true) by discriminate.
  apply finishes_bind; [exact Hv|]. intros valid _.
  destruct (negb _); [discriminate|].
  apply finishes_bind.
  { destruct (type_eqb _ _); [apply isEnPassantPossible_finishes | discriminate]. }
  intros ep _.
  apply finishes_bind.
  { destruct ep; [apply setPiece_finishes | discriminate]. }
  intros b1 Hb1.
  assert (I1 : wfBoard b1 /\ unmovedAtHome b1).
  { destruct ep; [|inversion Hb1; subst; auto].
    split; [eapply setPiece_wf | eapply setPiece_unmoved]; eauto. }
  destruct I1 as [W1 U1]. cbv zeta.
  apply finishes_bind; [apply setPiece_finishes|]. intros b2 Hb2.
  apply finishes_bind; [apply setPiece_finishes|]. intros b3 Hb3.
  assert (W3 : wfBoard b3) by (eapply setPiece_wf; [eapply setPiece_wf|]; eauto).
  assert (U3 : unmovedAtHome b3).
  { eapply setPiece_unmoved; [apply N | | exact Hb3].
    eapply setPiece_unmoved; [apply M | exact U1 | exact Hb2]. }
  apply finishes_bind; [|intros; discriminate].
  match goal with
  | |- finishes (handlePostMove _ ?x) =>
      destruct (handlePostMove_returns n x W3 U3) as (s' & E & _); rewrite E
  end.
  discriminate.
Qed.

Lemma stateLeft_map {A B} (m : method A) (g : A -> B) s :
  stateLeft ((do* a := m in retM (g a)) s) = stateLeft (m s).
Proof. unfold bindM, retM. destruct (m s); reflexivity. Qed.

(** X29. [movePiece] moves entirely or not at all.  In every reachable
    state (the stack having room for one castling test) a call of
    [movePiece] that throws leaves the game exactly as it found it: it
    throws from its first board access (a [TypeError], when the square
    moved from is off the board), from the castling test or from the legal
    moves (the [RangeError]), all before its first assignment.  The writes
    on the board and [handlePostMove] never throw. *)
Theorem failed_move_changes_nothing (g : GameType) (fuel : nat) (s : ChessGameState)
    (from to : Position) (e : Error) :
  reachable g s ->
  (1 <= fuel)%nat ->
  movePiece fuel s from to = Throw e ->
  leaves fuel (OpMovePiece from to) s = s /\
  (inRange from -> e = RangeError) /\
  (~ inRange from -> e = TypeError).
Proof.
  intros R Hf H. destruct fuel as [|n]; [lia|].
  pose proof (reachable_wf _ _ R) as Hw.
  pose proof (reachable_unmoved _ _ R) as Hu.
  split; [|split].
  - unfold leaves. cbn [Tracked.run]. rewrite stateLeft_map.
    pose proof (movePiece_tracked (S n) from to s) as T. rewrite H in T.
    apply returned_Raised in T. revert T.
    generalize (stateLeft (Tracked.movePiece (S n) from to s)). intros sl T.
    unfold Tracked.movePiece in T.
    destruct (_ && _); [discriminate|].
    destruct (_ && _); [discriminate|].
    destruct (_ && _); [discriminate|].
    unfold bindM at 1 in T. unfold read at 1 in T.
    destruct (pieceAt (board s) (row from) (col from)) as [[pc|]|e'] eqn:Ep;
      [|discriminate|inversion T; reflexivity].
    cbv zeta in T.
    change (if color_eqb (color pc) WHITE then 7 else 0) with (homeRow (color pc)) in T.
    destruct (type_eqb (type pc) KING && (col from =? 4) && (col to =? 6)).
    { unfold bindM at 1 in T. unfold read at 1 in T.
      destruct (isCastlingPossible (S n) s _ _) as [[|]|e'']; cbn [negb] in T;
        [|discriminate|inversion T; reflexivity].
      destruct (castling_is_completed n s pc 6 5 7 Hw Hu) as [s2 E]; try lia.
      rewrite E in T. discriminate. }
    destruct (type_eqb (type pc) KING && (col from =? 4) && (col to =? 2)).
    { unfold bindM at 1 in T. unfold read at 1 in T.
      destruct (isCastlingPossible (S n) s _ _) as [[|]|e'']; cbn [negb] in T;
        [|discriminate|inversion T; reflexivity].
      destruct (castling_is_completed n s pc 2 3 0 Hw Hu) as [s2 E]; try lia.
      rewrite E in T. discriminate. }
    destruct (getValidMovesForPiece (S n) s from) as [valid|e''] eqn:Ev.
    + exfalso.
      assert (F : finishes (ordinaryMove (S n) s pc from to)).
      { apply ordinaryMove_finishes; try assumption. rewrite Ev. discriminate. }
      assert (Hin : inRange from) by exact (pieceAt_valid _ _ _ _ Hw Ep).
      destruct (finishes_post _ _ (ordinaryMove_post (S n) s pc from to Hw Hin) F)
        as (r & Er & _).
      pose proof (ordinaryMove_tracked (S n) pc from to s) as A.
      rewrite T, Er in A. discriminate A.
    + unfold Tracked.ordinaryMove, bindM, read in T. rewrite Ev in T.
      inversion T. reflexivity.
  - intros Hin. pose proof (movePiece_post (S n) s from to Hw Hin) as P.
    rewrite H in P. destruct e; simpl in P; [contradiction | contradiction | reflexivity].
  - intros Hout.
    assert (V : isValidPosition (row from) (col from) = false).
    { unfold inRange in Hout. destruct (isValidPosition _ _); congruence. }
    pose proof (pieceAt_out_of_range _ _ _ Hw V) as E.
    unfold movePiece in H.
    destruct (_ && _); [discriminate|].
    destruct (_ && _); [discriminate|].
    destruct (_ && _); [discriminate|].
    rewrite E in H. inversion H. reflexivity.
Qed.

Lemma failed_move_changes_nothing_witness :
  movePiece 5 openKingsides (square 7 4) (square 7 6) = Throw RangeError /\
  leaves 5 (move 7 4 7 6) openKingsides = openKingsides.
Proof.
  assert (H : movePiece 5 openKingsides (square 7 4) (square 7 6) = Throw RangeError)
    by (apply castling_attempt_never_returns).
  split; [exact H|].
  destruct (failed_move_changes_nothing classic 5 openKingsides (square 7 4)
              (square 7 6) RangeError openKingsides_reachable) as [E _];
    [lia | exact H | exact E].
Defined.


(** ** Errors across the public surface *)




(** ** The stack and the throw, in one place *)

(** X27. The depth of the stack is immaterial.  From five frames on, a
    public call returns the same value or throws the same error, and leaves
    the same state, whatever the depth: the castling test asks itself about
    four pairs of squares only, so a chain of nested tests that outgrows
    five frames repeats one of them and never ends. *)
Theorem stack_depth_is_immaterial (n m : nat) (op : Op) (s : ChessGameState) :
  (5 <= n)%nat -> (5 <= m)%nat ->
  Tracked.run n op s = Tracked.run m op s /\
  run n op s = run m op s /\
  leaves n op s = leaves m op s.
Proof.
  intros Hn Hm. split; [apply call_fuel_stable; assumption|].
  split; [apply run_settled; assumption | apply leaves_settled; assumption].
Qed.

Lemma stack_depth_is_immaterial_witness :
  run 5 (move 6 4 4 4) (constructor classic) = run 9 (move 6 4 4 4) (constructor classic).
Proof.
  destruct (stack_depth_is_immaterial 5 9 (move 6 4 4 4) (constructor classic))
    as (_ & H & _); [lia | lia | exact H].
Defined.


(** The games used as scenarios are played above on a stack of two to four
    frames.  They run the same on every deeper one. *)
Lemma scenarios_on_any_stack n :
  (5 <= n)%nat ->
  play n foolsMate (constructor classic) = play 4 foolsMate (constructor classic) /\
  play n (foolsMate ++ [move 4 7 3 7]) (constructor classic)
  = play 4 (foolsMate ++ [move 4 7 3 7]) (constructor classic) /\
  play n [OpRollDice 2; move 6 4 5 4; move 7 3 3 7; OpRollDice 2; move 3 7 1 5;
          move 0 4 1 5] (constructor dice)
  = play 3 [OpRollDice 2; move 6 4 5 4; move 7 3 3 7; OpRollDice 2; move 3 7 1 5;
            move 0 4 1 5] (constructor dice) /\
  play n (castlingGame ++ [move 7 4 7 6]) (constructor classic)
  = play 3 (castlingGame ++ [move 7 4 7 6]) (constructor classic) /\
  play n (pawnOnE2Game ++ [move 7 4 7 6]) (constructor classic)
  = play 3 (pawnOnE2Game ++ [move 7 4 7 6]) (constructor classic) /\
  isSquareUnderAttack n (afterPlay 3 classic pawnOnE2Game) (square 7 5) BLACK
    (board (afterPlay 3 classic pawnOnE2Game)) = Ret false /\
  play n (promotionGame ++ [OpPromotePawn (square 0 0) (Some QUEEN)])
    (constructor classic)
  = play 3 (promotionGame ++ [OpPromotePawn (square 0 0) (Some QUEEN)])
      (constructor classic) /\
  play n (enPassantPinGame ++ [move 3 4 2 3]) (constructor classic)
  = play 3 (enPassantPinGame ++ [move 3 4 2 3]) (constructor classic) /\
  play n [OpRollDice 3; move 6 0 4 0; move 4 0 3 0; move 3 0 2 0;
          OpRollDice 3; move 2 0 1 1; move 1 1 0 0; move 7 1 5 2;
          OpRollDice 2; move 5 2 3 3; move 3 3 1 2] (constructor dice)
  = Ret exhaustedDiceGame /\
  run n (OpPromotePawn (square 0 0) None) exhaustedDiceGame
  = run 3 (OpPromotePawn (square 0 0) None) exhaustedDiceGame.
Proof.
  intros Hn. assert (H5 : (5 <= 5)%nat) by lia.
  do 5 (split; [rewrite (play_settled n 5 Hn H5); vm_compute; reflexivity|]).
  split; [rewrite (isSquareUnderAttack_settled n 5 Hn H5); vm_compute; reflexivity|].
  do 3 (split; [rewrite (play_settled n 5 Hn H5); vm_compute; reflexivity|]).
  rewrite (run_settled n 5 Hn H5). vm_compute. reflexivity.
Qed.
